(** * Stepper driver (IIoT-Lab5): shallow embedding and verified properties

    The development follows the Python sources:
    - [functions.py]: [sleep], [normalize], [parse], [to_angle];
    - [led.py]: the [LED] class;
    - [stepper.py]: the [Stepper] class.

    Python [int] is [Z].  Python [float] is IEEE-754 binary64, taken from the
    executable specification [SpecFloat] of the Standard Library
    ([prec = 53], [emax = 1024], rounding to nearest, ties to even), which is
    the specification the primitive floats of Rocq are bound to.  Methods that
    mutate [self], drive GPIO lines, print or busy-wait are functions in a
    small state monad over a [World]; an exception or a wait that never ends
    stops the computation with the state reached so far.

    The file has three parts: the embedding of the sources, the vocabulary
    of the statements, and the properties with their proofs. *)

From Stdlib Require Import PrimFloat.
From Stdlib Require FloatOps FloatAxioms Uint63.
From Stdlib Require Import ZArith Bool List Lia String Ascii.
From Stdlib Require Import SpecFloat.
From stdpp Require Import base gmap.
Import ListNotations.

Set Warnings "-inexact-float".
Local Open Scope Z_scope.

(** ** Python numbers *)

Module PyNum.

Abbreviation float := spec_float.

Definition prec : Z := 53.
Definition emax : Z := 1024.

(** Exceptions the modelled code can raise. *)
Inductive exn : Set :=
| ValueError
| OverflowError
| ZeroDivisionError
| AttributeError.

(** Result of a pure operation that may raise. *)
Inductive res (A : Type) : Type :=
| Ok (a : A)
| Err (e : exn).
Arguments Ok {A} a.
Arguments Err {A} e.

Definition signed (s : bool) (m : positive) : Z :=
  if s then Zneg m else Zpos m.

(** [float(z)] for an int [z]: the nearest binary64, [OverflowError] when
    [z] is too large. *)
Definition int_to_float (z : Z) : res float :=
  match binary_normalize prec emax z 0 false with
  | S754_infinity _ => Err OverflowError
  | f => Ok f
  end.

(** [a / b] on two ints (true division): the correctly rounded quotient.
    [SFdiv] divides the integer mantissas exactly and rounds once, whatever
    their size. *)
Definition int_truediv (a b : Z) : res float :=
  if b =? 0 then Err ZeroDivisionError
  else match a with
       | Z0 => Ok (S754_zero (b <? 0))
       | _ =>
           match SFdiv prec emax
                   (S754_finite (a <? 0) (Z.to_pos (Z.abs a)) 0)
                   (S754_finite (b <? 0) (Z.to_pos (Z.abs b)) 0) with
           | S754_infinity _ => Err OverflowError
           | q => Ok q
           end
       end.

(** The binary64 value of the decimal literal [m * 10^-k] (nearest double). *)
Definition literal (m : Z) (k : Z) : float :=
  match int_truediv m (10 ^ k) with
  | Ok f => f
  | Err _ => S754_nan
  end.

(** [float * float], [float / float], [float - float]. *)
Definition fmul : float -> float -> float := SFmul prec emax.
Definition fdiv : float -> float -> float := SFdiv prec emax.
Definition fsub : float -> float -> float := SFsub prec emax.

(** [x < z], [x <= z], [x > z] for a float [x] and an int [z]: Python
    compares the exact values. *)
Definition float_cmp_int (x : float) (z : Z) : option comparison :=
  match x with
  | S754_nan => None
  | S754_infinity s => Some (if s then Lt else Gt)
  | S754_zero _ => Some (0 ?= z)
  | S754_finite s m e =>
      Some (if 0 <=? e then (signed s m * 2 ^ e ?= z)
            else (signed s m ?= z * 2 ^ (- e)))
  end.

Definition float_lt_int (x : float) (z : Z) : bool :=
  match float_cmp_int x z with Some Lt => true | _ => false end.
Definition float_le_int (x : float) (z : Z) : bool :=
  match float_cmp_int x z with Some Lt | Some Eq => true | _ => false end.
Definition float_gt_int (x : float) (z : Z) : bool :=
  match float_cmp_int x z with Some Gt => true | _ => false end.

(** Truth value of a float: everything but [0.0] and [-0.0]. *)
Definition float_truthy (x : float) : bool :=
  match x with
  | S754_zero _ => false
  | _ => true
  end.

(** [math.floor(x)]. *)
Definition math_floor (x : float) : res Z :=
  match x with
  | S754_nan => Err ValueError
  | S754_infinity _ => Err OverflowError
  | S754_zero _ => Ok 0
  | S754_finite s m e =>
      Ok (if 0 <=? e then signed s m * 2 ^ e else signed s m / 2 ^ (- e))
  end.

(** [int(x)]: truncation toward zero. *)
Definition float_to_int (x : float) : res Z :=
  match x with
  | S754_nan => Err ValueError
  | S754_infinity _ => Err OverflowError
  | S754_zero _ => Ok 0
  | S754_finite s m e =>
      Ok (if 0 <=? e then signed s m * 2 ^ e
          else Z.quot (signed s m) (2 ^ (- e)))
  end.

(** Nearest integer to [num / den] ([den > 0]), ties to the even one. *)
Definition round_half_even (num den : Z) : Z :=
  let q := num / den in
  let r := num mod den in
  match 2 * r ?= den with
  | Lt => q
  | Gt => q + 1
  | Eq => if Z.even q then q else q + 1
  end.

(** [round(x, ndigits)] for [ndigits >= 0]: the exact value of [x] is rounded
    to [ndigits] decimals (ties to even) and the decimal result is converted
    back to the nearest double; infinities and NaN round to themselves. *)
Definition py_round (x : float) (ndigits : Z) : res float :=
  match x with
  | S754_finite s m e =>
      let scale := 10 ^ ndigits in
      let k := if 0 <=? e then Zpos m * 2 ^ e * scale
               else round_half_even (Zpos m * scale) (2 ^ (- e)) in
      match k with
      | Z0 => Ok (S754_zero s)
      | _ => int_truediv (if s then - k else k) scale
      end
  | _ => Ok x
  end.

Definition fabs : float -> float := SFabs.

End PyNum.
Import PyNum.

(** The decimal literals of the sources, as the doubles they denote. *)
Definition lit_1_4222 : float := Eval vm_compute in literal 14222 4.
Definition lit_1_42222 : float := Eval vm_compute in literal 142222 5.
Definition lit_0_00195 : float := Eval vm_compute in literal 195 5.

(** ** functions.py *)

(** [normalize(value, rangeStart, rangeEnd)]; [shift/rangeWidth] is a true
    division, so the quotient goes through a float before [floor]. *)
Definition normalize (value rangeStart rangeEnd : Z) : res Z :=
  let shift := value - rangeStart in
  let rangeWidth := rangeEnd - rangeStart in
  match int_truediv shift rangeWidth with
  | Err e => Err e
  | Ok q =>
      match math_floor q with
      | Err e => Err e
      | Ok fl => Ok ((shift - fl * rangeWidth) + rangeStart)
      end
  end.

(** [to_angle(steps)] = [round(abs(steps/1.42222), 1)]. *)
Definition to_angle (steps : Z) : res float :=
  match int_to_float steps with
  | Err e => Err e
  | Ok f => py_round (fabs (fdiv f lit_1_42222)) 1
  end.

(** ** The world the driver acts on *)

(** Sense of rotation named in a printed message. *)
Inductive sense : Set := CW | CCW.

(** The angle shown by [rotate]: the argument itself, or the text
    [f"~{to_angle(numSteps)}"] when only steps were given. *)
Inductive angle_text : Set :=
| AngleGiven (a : float)
| AngleApprox (a : float).

(** The lines the driver prints, by format string. *)
Inductive message : Set :=
| MsgInvalidDirection (direction : string)
| MsgNoDistance
| MsgRotating (d : sense) (angle : angle_text) (numSteps : Z)
| MsgGoingHome (d : sense) (steps : Z) (angle : float)
| MsgAlreadyHome
| MsgNewHomeSet
| MsgHomeReset.

(** What the process does to its surroundings, newest event first in a log. *)
Inductive event : Set :=
| EvSetup (pin : Z)
| EvOutput (pin : Z) (value : bool)
| EvSleep (duration : float)
| EvPrint (m : message).

Module LED.
Record t : Set := { pin : Z }.
End LED.

(** The attributes of a [Stepper] object.  The four LED attributes exist only
    once [set_LEDs] has run. *)
Record Stepper : Set := {
  delay : float;
  stepsFromHome : Z;
  stepsFromDefaultHome : Z;
  minSpeed : Z;
  maxSpeed : Z;
  enablePin : Z;
  coilA1Pin : Z;
  coilA2Pin : Z;
  coilB1Pin : Z;
  coilB2Pin : Z;
  redLED : option LED.t;
  blueLED : option LED.t;
  greenLED : option LED.t;
  orangeLED : option LED.t
}.

Definition with_delay (d : float) (s : Stepper) : Stepper :=
  {| delay := d; stepsFromHome := stepsFromHome s;
     stepsFromDefaultHome := stepsFromDefaultHome s;
     minSpeed := minSpeed s; maxSpeed := maxSpeed s;
     enablePin := enablePin s; coilA1Pin := coilA1Pin s;
     coilA2Pin := coilA2Pin s; coilB1Pin := coilB1Pin s;
     coilB2Pin := coilB2Pin s; redLED := redLED s; blueLED := blueLED s;
     greenLED := greenLED s; orangeLED := orangeLED s |}.

Definition with_stepsFromHome (n : Z) (s : Stepper) : Stepper :=
  {| delay := delay s; stepsFromHome := n;
     stepsFromDefaultHome := stepsFromDefaultHome s;
     minSpeed := minSpeed s; maxSpeed := maxSpeed s;
     enablePin := enablePin s; coilA1Pin := coilA1Pin s;
     coilA2Pin := coilA2Pin s; coilB1Pin := coilB1Pin s;
     coilB2Pin := coilB2Pin s; redLED := redLED s; blueLED := blueLED s;
     greenLED := greenLED s; orangeLED := orangeLED s |}.

Definition with_stepsFromDefaultHome (n : Z) (s : Stepper) : Stepper :=
  {| delay := delay s; stepsFromHome := stepsFromHome s;
     stepsFromDefaultHome := n;
     minSpeed := minSpeed s; maxSpeed := maxSpeed s;
     enablePin := enablePin s; coilA1Pin := coilA1Pin s;
     coilA2Pin := coilA2Pin s; coilB1Pin := coilB1Pin s;
     coilB2Pin := coilB2Pin s; redLED := redLED s; blueLED := blueLED s;
     greenLED := greenLED s; orangeLED := orangeLED s |}.

Definition with_LEDs (red blue green orange : LED.t) (s : Stepper) : Stepper :=
  {| delay := delay s; stepsFromHome := stepsFromHome s;
     stepsFromDefaultHome := stepsFromDefaultHome s;
     minSpeed := minSpeed s; maxSpeed := maxSpeed s;
     enablePin := enablePin s; coilA1Pin := coilA1Pin s;
     coilA2Pin := coilA2Pin s; coilB1Pin := coilB1Pin s;
     coilB2Pin := coilB2Pin s; redLED := Some red; blueLED := Some blue;
     greenLED := Some green; orangeLED := Some orange |}.

(** The driver object, the level of every GPIO line written so far, and the
    log of events. *)
Record World : Type := {
  self : Stepper;
  levels : gmap Z bool;
  log : list event
}.

(** ** The monad of methods *)

Inductive outcome (A : Type) : Type :=
| Ret (a : A)
| Raise (e : exn)
| Hang.
Arguments Ret {A} a.
Arguments Raise {A} e.
Arguments Hang {A}.

Definition M (A : Type) : Type := World -> outcome A * World.

Definition ret {A} (a : A) : M A := fun w => (Ret a, w).

Definition bind {A B} (c : M A) (k : A -> M B) : M B :=
  fun w =>
    match c w with
    | (Ret a, w') => k a w'
    | (Raise e, w') => (Raise e, w')
    | (Hang, w') => (Hang, w')
    end.

Declare Scope monad_scope.
Delimit Scope monad_scope with M.
Notation "x <- c ;; k" := (bind c (fun x => k))
  (at level 100, c at next level, right associativity) : monad_scope.
Notation "c ;; k" := (bind c (fun _ => k))
  (at level 100, right associativity) : monad_scope.
Local Open Scope monad_scope.

Definition raise {A} (e : exn) : M A := fun w => (Raise e, w).

Definition lift {A} (r : res A) : M A :=
  match r with
  | Ok a => ret a
  | Err e => raise e
  end.

Definition get_self : M Stepper := fun w => (Ret (self w), w).

Definition modify_self (f : Stepper -> Stepper) : M unit :=
  fun w => (Ret tt, {| self := f (self w); levels := levels w; log := log w |}).

Definition emit (ev : event) : M unit :=
  fun w => (Ret tt, {| self := self w; levels := levels w; log := ev :: log w |}).

Definition print (m : message) : M unit := emit (EvPrint m).

(** Reading an attribute that may not have been assigned yet. *)
Definition attribute {A} (f : Stepper -> option A) : M A :=
  s <- get_self ;;
  match f s with
  | Some a => ret a
  | None => raise AttributeError
  end.

(** [for i in range(n): body]; the loops of the driver do not use [i]. *)
Fixpoint repeat_body (n : nat) (body : M unit) : M unit :=
  match n with
  | O => ret tt
  | S k => body ;; repeat_body k body
  end.

Definition for_range (n : Z) (body : M unit) : M unit :=
  repeat_body (Z.to_nat n) body.

(** ** RPi.GPIO, as far as the driver uses it *)

Module GPIO.

Definition setup (pin : Z) : M unit := emit (EvSetup pin).

Definition output (pin : Z) (value : bool) : M unit :=
  fun w => (Ret tt, {| self := self w;
                       levels := <[pin := value]> (levels w);
                       log := EvOutput pin value :: log w |}).

(** A line nobody wrote yet reads low. *)
Definition input (pin : Z) : M bool :=
  fun w => (Ret (default false (levels w !! pin)), w).

End GPIO.

(** [functions.sleep(duration)]: a busy wait on [perf_counter()] until
    [duration] seconds have gone by; it never ends when [duration] is
    [+inf], and ends at once when the comparison is false from the start. *)
Definition sleep (duration : float) : M unit :=
  fun w =>
    let w' := {| self := self w; levels := levels w;
                 log := EvSleep duration :: log w |} in
    match duration with
    | S754_infinity false => (Hang, w')
    | _ => (Ret tt, w')
    end.

(** ** led.py *)

Definition LED_is_on (l : LED.t) : M bool := GPIO.input (LED.pin l).

Definition LED_on (l : LED.t) : M unit :=
  b <- LED_is_on l ;;
  if negb b then GPIO.output (LED.pin l) true else ret tt.

Definition LED_off (l : LED.t) : M unit :=
  b <- LED_is_on l ;;
  if b then GPIO.output (LED.pin l) false else ret tt.

Definition LED_init (pin : Z) : M LED.t :=
  let l := {| LED.pin := pin |} in
  GPIO.setup pin ;;
  LED_off l ;;
  ret l.

(** ** stepper.py *)

Definition Stepper_init (enablePin coilA1Pin coilA2Pin coilB1Pin coilB2Pin : Z)
  : Stepper :=
  {| delay := lit_0_00195; stepsFromHome := 0; stepsFromDefaultHome := 0;
     minSpeed := 10; maxSpeed := 4;
     enablePin := enablePin; coilA1Pin := coilA1Pin; coilA2Pin := coilA2Pin;
     coilB1Pin := coilB1Pin; coilB2Pin := coilB2Pin;
     redLED := None; blueLED := None; greenLED := None; orangeLED := None |}.

(** The GPIO part of [__init__], run on the freshly built object. *)
Definition Stepper_init_pins : M unit :=
  s <- get_self ;;
  GPIO.setup (enablePin s) ;;
  GPIO.setup (coilA1Pin s) ;;
  GPIO.setup (coilA2Pin s) ;;
  GPIO.setup (coilB1Pin s) ;;
  GPIO.setup (coilB2Pin s) ;;
  GPIO.output (enablePin s) true.

Definition set_LEDs (red blue green orange : LED.t) : M unit :=
  modify_self (with_LEDs red blue green orange) ;;
  l <- attribute redLED ;;
  LED_on l.

Definition set_delay (d : float) : M unit := modify_self (with_delay d).

Definition set_speed (secPerRev : float) : M unit :=
  s <- get_self ;;
  if float_lt_int secPerRev (maxSpeed s) then raise ValueError
  else
    c <- lift (int_to_float 2050) ;;
    modify_self (with_delay (fdiv secPerRev c)).

(** After a clamp [pct] is the int [100] or [0]; [pct/100] is then [1.0] or
    [0.0], the same as for the float of that value, so [pct] stays a float
    here. *)
Definition set_speed_pct (pct : float) : M unit :=
  c100 <- lift (int_to_float 100) ;;
  c0 <- lift (int_to_float 0) ;;
  let pct := if float_le_int pct 1 then fmul pct c100 else pct in
  let pct := if float_gt_int pct 100 then c100 else pct in
  let pct := if float_lt_int pct 0 then c0 else pct in
  s <- get_self ;;
  lo <- lift (int_to_float (minSpeed s)) ;;
  span <- lift (int_to_float (minSpeed s - maxSpeed s)) ;;
  set_speed (fsub lo (fmul (fdiv pct c100) span)).

Definition set_step (A1 A2 B1 B2 : bool) : M unit :=
  s <- get_self ;;
  GPIO.output (coilA1Pin s) A1 ;;
  GPIO.output (coilA2Pin s) A2 ;;
  GPIO.output (coilB1Pin s) B1 ;;
  GPIO.output (coilB2Pin s) B2.

Definition deactivate : M unit :=
  set_step false false false false ;;
  r <- attribute redLED ;; LED_on r ;;
  b <- attribute blueLED ;; LED_off b ;;
  g <- attribute greenLED ;; LED_off g ;;
  o <- attribute orangeLED ;; LED_off o.

(** [int(round(1.4222*angle, 0))]. *)
Definition num_steps_required (angle : float) : res Z :=
  match py_round (fmul lit_1_4222 angle) 0 with
  | Err e => Err e
  | Ok r => float_to_int r
  end.

Definition lower_ascii (c : ascii) : ascii :=
  let n := nat_of_ascii c in
  if (Nat.leb 65 n && Nat.leb n 90)%bool then ascii_of_nat (n + 32) else c.

(** [str.lower()] on the ASCII letters; no other character lowers into the
    letters of ['cw'] or ['ccw']. *)
Fixpoint lower (s : string) : string :=
  match s with
  | EmptyString => EmptyString
  | String c s' => String (lower_ascii c) (lower s')
  end.

Definition valid_direction (direction : string) : bool :=
  existsb (String.eqb (lower direction)) ["cw"%string; "ccw"%string].

(** The four phases of one step, each held for [self.delay]. *)
Definition phase (A1 A2 B1 B2 : bool) : M unit :=
  set_step A1 A2 B1 B2 ;;
  s <- get_self ;;
  sleep (delay s).

Definition step_cw : M unit :=
  phase true false false true ;;
  phase false true false true ;;
  phase false true true false ;;
  phase true false true false.

Definition step_ccw : M unit :=
  phase true false true false ;;
  phase false true true false ;;
  phase false true false true ;;
  phase true false false true.

Definition truthy_angle (angle : option float) : bool :=
  match angle with
  | Some a => float_truthy a
  | None => false
  end.

Definition truthy_steps (steps : option Z) : bool :=
  match steps with
  | Some n => negb (n =? 0)
  | None => false
  end.

(** [self.num_steps_required(angle) if angle else steps if steps else None] *)
Definition chosen_steps (angle : option float) (steps : option Z)
  : res (option Z) :=
  match angle with
  | Some a =>
      if float_truthy a then
        match num_steps_required a with
        | Ok n => Ok (Some n)
        | Err e => Err e
        end
      else if truthy_steps steps then Ok steps else Ok None
  | None => if truthy_steps steps then Ok steps else Ok None
  end.

Definition shown_angle (angle : option float) (numSteps : Z) : res angle_text :=
  match angle with
  | Some a =>
      if float_truthy a then Ok (AngleGiven a)
      else match to_angle numSteps with
           | Ok t => Ok (AngleApprox t)
           | Err e => Err e
           end
  | None => match to_angle numSteps with
            | Ok t => Ok (AngleApprox t)
            | Err e => Err e
            end
  end.

Definition move_counters (d : Z) (s : Stepper) : Stepper :=
  with_stepsFromDefaultHome (stepsFromDefaultHome s + d)
    (with_stepsFromHome (stepsFromHome s + d) s).

Definition rotate (direction : string) (angle : option float) (steps : option Z)
  : M unit :=
  if negb (valid_direction direction) then
    print (MsgInvalidDirection direction)
  else
    numSteps <- lift (chosen_steps angle steps) ;;
    match numSteps with
    | None => print MsgNoDistance
    | Some numSteps =>
        if numSteps =? 0 then print MsgNoDistance
        else
          shown <- lift (shown_angle angle numSteps) ;;
          r <- attribute redLED ;; LED_off r ;;
          (if String.eqb (lower direction) "cw" then
             b <- attribute blueLED ;; LED_on b ;;
             g <- attribute greenLED ;; LED_on g ;;
             modify_self (move_counters (- numSteps)) ;;
             print (MsgRotating CW shown numSteps) ;;
             for_range numSteps step_cw
           else if String.eqb (lower direction) "ccw" then
             g <- attribute greenLED ;; LED_on g ;;
             o <- attribute orangeLED ;; LED_on o ;;
             modify_self (move_counters numSteps) ;;
             print (MsgRotating CCW shown numSteps) ;;
             for_range numSteps step_ccw
           else ret tt) ;;
          deactivate
    end.

Definition go_home (default : bool) : M unit :=
  s <- get_self ;;
  let stepsFromHome' :=
    if default then stepsFromDefaultHome s else stepsFromHome s in
  a <- lift (to_angle stepsFromHome') ;;
  (if 0 <? stepsFromHome'
   then print (MsgGoingHome CW stepsFromHome' a)
   else print (MsgGoingHome CCW (Z.abs stepsFromHome') a)) ;;
  steps <- lift (normalize stepsFromHome' (-256) 256) ;;
  if steps =? 0 then print MsgAlreadyHome
  else
    (if steps <? 0 then rotate "ccw" None (Some (Z.abs steps))
     else rotate "cw" None (Some steps)) ;;
    (if default then modify_self (with_stepsFromDefaultHome 0)
     else modify_self (with_stepsFromHome 0)) ;;
    modify_self (with_stepsFromHome 0).

Definition set_home : M unit :=
  modify_self (with_stepsFromHome 0) ;;
  print MsgNewHomeSet.

Definition reset_home : M unit :=
  s <- get_self ;;
  modify_self (with_stepsFromHome (stepsFromDefaultHome s)) ;;
  print MsgHomeReset.

(** * Vocabulary of the statements *)

(** ** A wired-up driver for concrete runs *)

Definition fresh_world (s : Stepper) : World :=
  {| self := s; levels := ∅; log := [] |}.

(** Pin set-up of the driver, the four LEDs, then [set_LEDs]. *)
Definition wire_up (red blue green orange : Z) : M unit :=
  Stepper_init_pins ;;
  r <- LED_init red ;;
  b <- LED_init blue ;;
  g <- LED_init green ;;
  o <- LED_init orange ;;
  set_LEDs r b g o.

Definition bench : World :=
  snd (wire_up 5 6 13 19 (fresh_world (Stepper_init 18 4 17 23 24))).

(** The same driver as [__init__] leaves it: pins set up, no LED attached. *)
Definition bench_unwired : World :=
  snd (Stepper_init_pins (fresh_world (Stepper_init 18 4 17 23 24))).

(** The counters of the driver in a world. *)
Definition home (w : World) : Z := stepsFromHome (self w).
Definition default_home (w : World) : Z := stepsFromDefaultHome (self w).

(** The GPIO writes recorded in a log. *)
Definition is_output (ev : event) : bool :=
  match ev with
  | EvOutput _ _ => true
  | _ => false
  end.

Definition outputs (l : list event) : list event := List.filter is_output l.

(** The float [2050.0] that [secPerRev/2050] divides by. *)
Definition f2050 : float := literal 2050 0.

Definition set_delay_world (d : float) (w : World) : World :=
  {| self := with_delay d (self w); levels := levels w; log := log w |}.

(** ** Runs of methods and what they do to [self] *)

(** [wp c Q s]: started with the driver [s], whatever the lines and the log
    are, the run of [c] ends with an outcome and a driver related by [Q]. *)
Definition wp {A} (c : M A) (Q : outcome A -> Stepper -> Prop) (s : Stepper)
  : Prop :=
  forall w, self w = s -> Q (fst (c w)) (self (snd (c w))).

(** The continuation of a [bind], by outcome of its first part. *)
Definition after {A B} (k : A -> M B) (Q : outcome B -> Stepper -> Prop)
  : outcome A -> Stepper -> Prop :=
  fun o s =>
    match o with
    | Ret a => wp (k a) Q s
    | Raise e => Q (Raise e) s
    | Hang => Q Hang s
    end.

(** [quiet c]: [c] always returns and leaves the driver object alone. *)
Definition quiet {A} (c : M A) : Prop :=
  forall w, exists a w', c w = (Ret a, w') /\ self w' = self w.

(** [+inf], the delay with which [sleep] never ends. *)
Definition is_pinf (d : float) : bool :=
  match d with
  | S754_infinity false => true
  | _ => false
  end.

(** The outcome of a run of waits of [s.delay] seconds, if there is any. *)
Definition waited (s : Stepper) (any : bool) : outcome unit :=
  if (is_pinf (delay s) && any)%bool then Hang else Ret tt.

(** [exactly o s']: the run ends with outcome [o] and driver [s']. *)
Definition exactly {A} (o : outcome A) (s' : Stepper)
  : outcome A -> Stepper -> Prop :=
  fun o' s'' => o' = o /\ s'' = s'.

(** [set_LEDs] has run: the four LED attributes exist. *)
Definition wired (s : Stepper) : Prop :=
  is_Some (redLED s) /\ is_Some (blueLED s) /\
  is_Some (greenLED s) /\ is_Some (orangeLED s).

(** The world after one more event. *)
Definition logged (ev : event) (w : World) : World :=
  {| self := self w; levels := levels w; log := ev :: log w |}.

(** The signed change of both counters for a move of [n] steps. *)
Definition signed_steps (direction : string) (n : Z) : Z :=
  if String.eqb (lower direction) "cw" then - n else n.

(** The level a line reads at. *)
Definition reads_high (w : World) (pin : Z) : bool :=
  default false (levels w !! pin).

(** The driver at rest: the four coil lines low, the red LED on. *)
Definition idle (w : World) : Prop :=
  reads_high w (coilA1Pin (self w)) = false /\
  reads_high w (coilA2Pin (self w)) = false /\
  reads_high w (coilB1Pin (self w)) = false /\
  reads_high w (coilB2Pin (self w)) = false /\
  exists r, redLED (self w) = Some r /\ reads_high w (LED.pin r) = true.

(** [stable I c]: a run of [c] from a driver in [I] ends, however it ends,
    with a driver in [I]. *)
Definition stable (I : Stepper -> Prop) {A} (c : M A) : Prop :=
  forall w, I (self w) -> I (self (snd (c w))).

(** ** Counters and homing *)

(** How far the default home is from the user's home, in steps. *)
Definition offset (w : World) : Z := default_home w - home w.

Definition offset_is (k : Z) (s : Stepper) : Prop :=
  stepsFromDefaultHome s - stepsFromHome s = k.

(** Two worlds for concrete runs, with counters (3, 3) and (0, 3). *)
Definition bench_turned : World := snd (rotate "ccw" None (Some 3) bench).
Definition bench_rehomed : World := snd (set_home bench_turned).

(** The counter [go_home] homes against. *)
Definition selected (default : bool) (w : World) : Z :=
  if default then default_home w else home w.

(** The two assignments that end [go_home]. *)
Definition reset_counters (default : bool) (w : World) : World :=
  {| self := with_stepsFromHome 0
               (if default then with_stepsFromDefaultHome 0 (self w)
                else with_stepsFromHome 0 (self w));
     levels := levels w; log := log w |}.

Definition going_home (c : Z) (a : float) : message :=
  if 0 <? c then MsgGoingHome CW c a else MsgGoingHome CCW (Z.abs c) a.

(** The call of [rotate] that [go_home] makes for a normalized count. *)
Definition homing_move (steps : Z) : M unit :=
  if steps <? 0 then rotate "ccw" None (Some (Z.abs steps))
  else rotate "cw" None (Some steps).

(** ** Speeds *)

Definition f100 : float := literal 100 0.
Definition f0 : float := literal 0 0.
Definition f10 : float := literal 10 0.
Definition f6 : float := literal 6 0.
Definition f4 : float := literal 4 0.

(** [if pct <= 1: pct *= 100] *)
Definition scaled (pct : float) : float :=
  if float_le_int pct 1 then fmul pct f100 else pct.

(** [if pct > 100: pct = 100] then [if pct < 0: pct = 0] *)
Definition clamped (pct : float) : float :=
  let pct := if float_gt_int pct 100 then f100 else pct in
  if float_lt_int pct 0 then f0 else pct.

(** [minSpeed - (pct/100)*(minSpeed-maxSpeed)] for the speeds 10 and 4. *)
Definition seconds_for (pct : float) : float :=
  fsub f10 (fmul (fdiv pct f100) f6).

(** The delay a world ends with. *)
Definition delay_after {A} (r : outcome A * World) : float :=
  delay (self (snd r)).

(** ** Steps, angles and checks over a range *)

(** [P] holds on the [len] integers from [lo] on. *)
Fixpoint forall_from (lo : Z) (len : nat) (P : Z -> bool) : bool :=
  match len with
  | O => true
  | S k => P lo && forall_from (lo + 1) k P
  end.

Definition res_Z_is (r : res Z) (n : Z) : bool :=
  match r with
  | Ok m => m =? n
  | Err _ => false
  end.

(** [num_steps_required(to_angle(n))] *)
Definition steps_of_angle_of (n : Z) : res Z :=
  match to_angle n with
  | Ok a => num_steps_required a
  | Err e => Err e
  end.

(** [num_steps_required(d)] for an int [d] of degrees. *)
Definition steps_of_degrees (d : Z) : res Z :=
  match int_to_float d with
  | Ok f => num_steps_required f
  | Err e => Err e
  end.

(** Rounding to the nearest multiple of [2^k] with shifts and masks, and
    the functions above run with it: the same values, computed faster. *)
Definition round_half_even_pow2 (num k : Z) : Z :=
  let q := Z.shiftr num k in
  let r := Z.land num (Z.ones k) in
  match 2 * r ?= Z.shiftl 1 k with
  | Lt => q
  | Gt => q + 1
  | Eq => if Z.even q then q else q + 1
  end.

Definition py_round_pow2 (x : float) (ndigits : Z) : res float :=
  match x with
  | S754_finite s m e =>
      let scale := 10 ^ ndigits in
      let k := if 0 <=? e then Zpos m * 2 ^ e * scale
               else round_half_even_pow2 (Zpos m * scale) (- e) in
      match k with
      | Z0 => Ok (S754_zero s)
      | _ => int_truediv (if s then - k else k) scale
      end
  | _ => Ok x
  end.

(** ** The same computation on the primitive floats

    The exhaustive check of [num_steps_required(to_angle(n))] runs the
    division and the multiplication on the primitive floats, which the
    Standard Library specifies ([FloatAxioms]) to agree with [SpecFloat]. *)

Definition hw_1_42222 : PrimFloat.float := Eval vm_compute in FloatOps.SF2Prim lit_1_42222.
Definition hw_1_4222 : PrimFloat.float := Eval vm_compute in FloatOps.SF2Prim lit_1_4222.

(** [float(n)] on the primitive floats. *)
Definition hw_of_int (n : Z) : PrimFloat.float :=
  PrimFloat.of_uint63 (Uint63Axioms.of_Z n).

(** [int(round(p, 0))] for a positive [p] below [2^53]. *)
Definition rounded_int (p : float) : option Z :=
  match p with
  | S754_zero _ => Some 0
  | S754_finite false m e =>
      if e <? 0 then
        let k := round_half_even_pow2 (Zpos m) (- e) in
        if ((0 <? k) && (k <? 9007199254740992))%bool then Some k else None
      else None
  | _ => None
  end.

Definition steps_of_angle_of_hw (n : Z) : option Z :=
  if ((0 <=? n) && (n <? 9007199254740992))%bool then
    match py_round_pow2
            (fabs (FloatOps.Prim2SF (PrimFloat.div (hw_of_int n) hw_1_42222))) 1
    with
    | Ok a =>
        if valid_binary prec emax a then
          rounded_int
            (FloatOps.Prim2SF (PrimFloat.mul hw_1_4222 (FloatOps.SF2Prim a)))
        else None
    | Err _ => None
    end
  else None.

Definition option_Z_is (o : option Z) (n : Z) : bool :=
  match o with
  | Some m => m =? n
  | None => false
  end.

(** * More of the sources *)

(** ** functions.py: parse *)

(** [s.split(sep)] from a position on, for a non-empty [sep]: the field
    being read and the fields after it.  The text is cut at the leftmost
    occurrences of [sep], read left to right; [skip] counts the characters
    of the occurrence being passed. *)
Fixpoint split_from (sep : string) (skip : nat) (s : string)
  : string * list string :=
  match s with
  | EmptyString => (EmptyString, [])
  | String c s' =>
      match skip with
      | S k => split_from sep k s'
      | O =>
          if String.prefix sep s then
            (EmptyString,
             let (f, r) := split_from sep (String.length sep - 1) s' in f :: r)
          else
            let (f, r) := split_from sep 0 s' in (String c f, r)
      end
  end.

(** [data.split(sep)]; an empty separator raises [ValueError]. *)
Definition split (data sep : string) : res (list string) :=
  if String.eqb sep "" then Err ValueError
  else let (f, r) := split_from sep 0 data in Ok (f :: r).

Section Parse.
Context {V : Type}.

(** The loop of [parse] from index [i] on: [data[i] = types[i](data[i])],
    and [None] as soon as [types[i]] does not exist or the cast raises. *)
Fixpoint cast_fields (types : list (string -> res V)) (i : nat)
  (fields : list string) : option (list V) :=
  match fields with
  | [] => Some []
  | f :: fs =>
      match types !! i with
      | None => None
      | Some type =>
          match type f with
          | Err _ => None
          | Ok v =>
              match cast_fields types (S i) fs with
              | None => None
              | Some vs => Some (v :: vs)
              end
          end
      end
  end.

(** [parse(data, types, delimiter)]; the split is outside the [try]. *)
Definition parse (data : string) (types : list (string -> res V))
  (delimiter : string) : res (option (list V)) :=
  match split data delimiter with
  | Err e => Err e
  | Ok fields => Ok (cast_fields types 0 fields)
  end.

End Parse.

(** [str], as a cast. *)
Definition str (s : string) : res string := Ok s.

(** * Vocabulary of the further statements *)

(** ** Strings and results *)

(** [sep.join(fields)] *)
Fixpoint join_with (sep : string) (fields : list string) : string :=
  match fields with
  | [] => EmptyString
  | [f] => f
  | f :: r => String.append f (String.append sep (join_with sep r))
  end.

(** [c in s] *)
Fixpoint contains (c : ascii) (s : string) : bool :=
  match s with
  | EmptyString => false
  | String a s' => Ascii.eqb a c || contains c s'
  end.

(** A result that is not an exception. *)
Definition res_is_ok {A} (r : res A) : bool :=
  match r with
  | Ok _ => true
  | Err _ => false
  end.

(** A result with the function [f] applied to its value. *)
Definition res_map {A B} (f : A -> B) (r : res A) : res B :=
  match r with
  | Ok a => Ok (f a)
  | Err e => Err e
  end.

(** The other direction. *)
Definition opposite (direction : string) : string :=
  if String.eqb (lower direction) "cw" then "ccw"%string else "cw"%string.

(** ** Lines, waits and phases *)

(** The world after [GPIO.output(pin, value)]. *)
Definition driven (pin : Z) (value : bool) (w : World) : World :=
  {| self := self w; levels := <[pin := value]> (levels w);
     log := EvOutput pin value :: log w |}.

(** The waits recorded in a log, newest first. *)
Fixpoint waits (l : list event) : list float :=
  match l with
  | [] => []
  | EvSleep d :: l' => d :: waits l'
  | _ :: l' => waits l'
  end.

(** The level of each line after the writes of a log (newest first), made
    on lines whose levels were [f]. *)
Fixpoint replay (l : list event) (f : Z -> bool) : Z -> bool :=
  match l with
  | [] => f
  | EvOutput p v :: l' =>
      fun q => if bool_decide (q = p) then v else replay l' f q
  | _ :: l' => replay l' f
  end.

(** The four coil pins of a driver. *)
Definition coil_pins (s : Stepper) : list Z :=
  [coilA1Pin s; coilA2Pin s; coilB1Pin s; coilB2Pin s].

(** The levels of the four coil lines, as (A1, A2, B1, B2). *)
Definition coils (s : Stepper) (f : Z -> bool) : bool * bool * bool * bool :=
  (f (coilA1Pin s), f (coilA2Pin s), f (coilB1Pin s), f (coilB2Pin s)).

(** The coil levels held during each wait of a log, newest first. *)
Fixpoint held (s : Stepper) (l : list event) (f : Z -> bool)
  : list (bool * bool * bool * bool) :=
  match l with
  | [] => []
  | EvSleep _ :: l' => coils s (replay l' f) :: held s l' f
  | _ :: l' => held s l' f
  end.

(** The level of the line of an LED attribute, low if there is none. *)
Definition led_level (f : Z -> bool) (l : option LED.t) : bool :=
  match l with
  | Some l => f (LED.pin l)
  | None => false
  end.

(** The levels of the four LED lines, as (red, blue, green, orange). *)
Definition leds (s : Stepper) (f : Z -> bool) : bool * bool * bool * bool :=
  (led_level f (redLED s), led_level f (blueLED s),
   led_level f (greenLED s), led_level f (orangeLED s)).

(** The LED levels during each wait of a log, newest first. *)
Fixpoint lit (s : Stepper) (l : list event) (f : Z -> bool)
  : list (bool * bool * bool * bool) :=
  match l with
  | [] => []
  | EvSleep _ :: l' => leds s (replay l' f) :: lit s l' f
  | _ :: l' => lit s l' f
  end.

(** The coil levels of the four phases of a step, in the order of the code,
    as (A1, A2, B1, B2). *)
Definition phases_cw : list (bool * bool * bool * bool) :=
  [(true, false, false, true); (false, true, false, true);
   (false, true, true, false); (true, false, true, false)].

Definition phases_ccw : list (bool * bool * bool * bool) :=
  [(true, false, true, false); (false, true, true, false);
   (false, true, false, true); (true, false, false, true)].

(** One end of each coil is high, the other low. *)
Definition full_step (p : bool * bool * bool * bool) : bool :=
  let '(a1, a2, b1, b2) := p in xorb a1 a2 && xorb b1 b2.

(** ** Observed runs *)

(** What can be seen of a run: the driver object, the level of each line,
    the waits made since the start, and the coil levels and the LED levels
    in each. *)
Record Obs : Type := {
  o_self : Stepper;
  o_lines : Z -> bool;
  o_waits : list float;
  o_held : list (bool * bool * bool * bool);
  o_lit : list (bool * bool * bool * bool)
}.

(** [shows w0 w ob]: the world [w], reached from [w0], is seen as [ob]. *)
Definition shows (w0 w : World) (ob : Obs) : Prop :=
  self w = o_self ob /\
  (forall q, reads_high w q = o_lines ob q) /\
  exists new,
    log w = new ++ log w0 /\
    (forall q, reads_high w q = replay new (reads_high w0) q) /\
    waits new = o_waits ob /\
    held (self w0) new (reads_high w0) = o_held ob /\
    lit (self w0) new (reads_high w0) = o_lit ob.

Definition observe (w : World) : Obs :=
  {| o_self := self w; o_lines := reads_high w; o_waits := []; o_held := [];
     o_lit := [] |}.

Definition set_line (p : Z) (v : bool) (ob : Obs) : Obs :=
  {| o_self := o_self ob;
     o_lines := fun q => if bool_decide (q = p) then v else o_lines ob q;
     o_waits := o_waits ob; o_held := o_held ob; o_lit := o_lit ob |}.

Definition add_wait (s0 : Stepper) (d : float) (ob : Obs) : Obs :=
  {| o_self := o_self ob; o_lines := o_lines ob;
     o_waits := d :: o_waits ob;
     o_held := coils s0 (o_lines ob) :: o_held ob;
     o_lit := leds s0 (o_lines ob) :: o_lit ob |}.

Definition on_self (f : Stepper -> Stepper) (ob : Obs) : Obs :=
  {| o_self := f (o_self ob); o_lines := o_lines ob;
     o_waits := o_waits ob; o_held := o_held ob; o_lit := o_lit ob |}.

(** [acts w0 c a ob ob']: run in a world seen as [ob], [c] returns [a] in a
    world seen as [ob']. *)
Definition acts (w0 : World) {A} (c : M A) (a : A) (ob ob' : Obs) : Prop :=
  forall w, shows w0 w ob -> exists w', c w = (Ret a, w') /\ shows w0 w' ob'.

(** What [set_step], a phase, a step and [deactivate] are seen to do. *)
Definition seen_set_step (A1 A2 B1 B2 : bool) (ob : Obs) : Obs :=
  let s := o_self ob in
  set_line (coilB2Pin s) B2
    (set_line (coilB1Pin s) B1
       (set_line (coilA2Pin s) A2 (set_line (coilA1Pin s) A1 ob))).

Definition seen_phase (s0 : Stepper) (A1 A2 B1 B2 : bool) (ob : Obs) : Obs :=
  add_wait s0 (delay (o_self ob)) (seen_set_step A1 A2 B1 B2 ob).

Definition seen_step_cw (s0 : Stepper) (ob : Obs) : Obs :=
  seen_phase s0 true false true false
    (seen_phase s0 false true true false
       (seen_phase s0 false true false true
          (seen_phase s0 true false false true ob))).

Definition seen_step_ccw (s0 : Stepper) (ob : Obs) : Obs :=
  seen_phase s0 true false false true
    (seen_phase s0 false true false true
       (seen_phase s0 false true true false
          (seen_phase s0 true false true false ob))).

Definition seen_deactivate (r b g o : LED.t) (ob : Obs) : Obs :=
  set_line (LED.pin o) false
    (set_line (LED.pin g) false
       (set_line (LED.pin b) false
          (set_line (LED.pin r) true
             (seen_set_step false false false false ob)))).

Definition seen_phases (s0 : Stepper) (ps : list (bool * bool * bool * bool))
  (ob : Obs) : Obs :=
  fold_left (fun ob '(a1, a2, b1, b2) => seen_phase s0 a1 a2 b1 b2 ob) ps ob.

(** What a valid call of [rotate] is seen to do, clockwise or not, for the
    step count [n] and the four LEDs. *)
Definition seen_rotate (s0 : Stepper) (cw : bool) (n : Z) (r b g o : LED.t)
  (ob : Obs) : Obs :=
  let ob1 := set_line (LED.pin r) false ob in
  let ob2 := if cw then set_line (LED.pin g) true (set_line (LED.pin b) true ob1)
             else set_line (LED.pin o) true (set_line (LED.pin g) true ob1) in
  let ob3 := on_self (move_counters (if cw then - n else n)) ob2 in
  seen_deactivate r b g o
    (Nat.iter (Z.to_nat n) (if cw then seen_step_cw s0 else seen_step_ccw s0)
       ob3).

(** ** States of the driver *)

(** An LED attribute exists and its line reads [v]. *)
Definition LED_reads (w : World) (led : Stepper -> option LED.t) (v : bool)
  : Prop :=
  exists l, led (self w) = Some l /\ reads_high w (LED.pin l) = v.

(** At rest: the coils without current, the red LED alone lit. *)
Definition at_rest (w : World) : Prop :=
  idle w /\ LED_reads w blueLED false /\ LED_reads w greenLED false /\
  LED_reads w orangeLED false.

(** The red LED shares its line with no coil and no other LED. *)
Definition red_apart (s : Stepper) : Prop :=
  forall r b g o,
    redLED s = Some r -> blueLED s = Some b ->
    greenLED s = Some g -> orangeLED s = Some o ->
    ~ In (LED.pin r) (coil_pins s ++ [LED.pin b; LED.pin g; LED.pin o]).

(** The line of an LED attribute, if it exists. *)
Definition pin_of (l : option LED.t) : list Z :=
  match l with
  | Some l => [LED.pin l]
  | None => []
  end.

(** The lines a driver writes after its construction: coils and LEDs. *)
Definition own_pins (s : Stepper) : list Z :=
  coil_pins s ++ pin_of (redLED s) ++ pin_of (blueLED s)
  ++ pin_of (greenLED s) ++ pin_of (orangeLED s).

(** The same pins, LEDs and speed limits. *)
Definition same_hardware (s s' : Stepper) : Prop :=
  enablePin s' = enablePin s /\ coil_pins s' = coil_pins s /\
  redLED s' = redLED s /\ blueLED s' = blueLED s /\
  greenLED s' = greenLED s /\ orangeLED s' = orangeLED s /\
  minSpeed s' = minSpeed s /\ maxSpeed s' = maxSpeed s.

(** The driver still has the hardware of [s0] and line [q] still reads [v]. *)
Definition untouched (s0 : Stepper) (q : Z) (v : bool) (w : World) : Prop :=
  same_hardware s0 (self w) /\ reads_high w q = v.

(** [keeps I c]: a run of [c] from a world in [I] ends, however it ends,
    in a world in [I]. *)
Definition keeps (I : World -> Prop) {A} (c : M A) : Prop :=
  forall w, I w -> I (snd (c w)).

(** ** Angles, signs and speeds *)

(** [-x] on floats, and the sign bit of a float. *)
Definition fneg : float -> float := SFopp.

Definition negative (x : float) : bool :=
  match x with
  | S754_zero s | S754_infinity s | S754_finite s _ _ => s
  | S754_nan => false
  end.

(** [|x - z| <= num/den], on the exact value of the float [x]. *)
Definition float_near_int (x : float) (z num den : Z) : bool :=
  match x with
  | S754_zero _ => Z.abs z * den <=? num
  | S754_finite s m e =>
      if 0 <=? e then Z.abs (signed s m * 2 ^ e - z) * den <=? num
      else Z.abs (signed s m - z * 2 ^ (- e)) * den <=? num * 2 ^ (- e)
  | _ => false
  end.

(** [to_angle(num_steps_required(d))] for an int [d] of degrees. *)
Definition angle_of_steps_of (d : Z) : res float :=
  match steps_of_degrees d with
  | Ok n => to_angle n
  | Err e => Err e
  end.

Definition res_near_int (r : res float) (z num den : Z) : bool :=
  match r with
  | Ok x => float_near_int x z num den
  | Err _ => false
  end.

(** The seconds per revolution [set_speed_pct] asks for, for a whole
    percentage, and whether they are within the limits 4 and 10. *)
Definition seconds_of_percent (k : Z) : res float :=
  match int_to_float k with
  | Ok f => Ok (seconds_for (clamped (scaled f)))
  | Err e => Err e
  end.

Definition within_limits (r : res float) : bool :=
  match r with
  | Ok secs => negb (float_lt_int secs 4) && negb (float_gt_int secs 10)
  | Err _ => false
  end.

(** * Properties *)

(** The decimal literals are the doubles the primitive floats parse. *)
Lemma literals_are_binary64 :
  FloatOps.Prim2SF 1.4222%float = lit_1_4222 /\
  FloatOps.Prim2SF 1.42222%float = lit_1_42222 /\
  FloatOps.Prim2SF 0.00195%float = lit_0_00195.
Proof. repeat split; vm_compute; reflexivity. Qed.

Lemma int_to_float_2050 : int_to_float 2050 = Ok f2050.
Proof. vm_compute. reflexivity. Qed.

(** ** Reasoning about methods: what a run does to [self] *)

Section WpRules.
Context {A B : Type}.
Variable Q : outcome B -> Stepper -> Prop.
Variable s : Stepper.

Lemma wp_bind (c : M A) (k : A -> M B) :
  wp c (after k Q) s -> wp (bind c k) Q s.
Proof.
  intros H w Hs. specialize (H w Hs). unfold bind.
  destruct (c w) as [[a|e|] w']; simpl in *; auto.
Qed.

Lemma wp_quiet (c : M A) (k : A -> M B) :
  quiet c -> (forall a, wp (k a) Q s) -> wp (bind c k) Q s.
Proof.
  intros Hq H w Hs. unfold bind.
  destruct (Hq w) as (a & w' & -> & Hself).
  apply H. congruence.
Qed.

Lemma wp_get_self (k : Stepper -> M B) :
  wp (k s) Q s -> wp (bind get_self k) Q s.
Proof.
  intros H w Hs. unfold bind, get_self. rewrite Hs. apply H, Hs.
Qed.

Lemma wp_modify_self (f : Stepper -> Stepper) (k : unit -> M B) :
  wp (k tt) Q (f s) -> wp (bind (modify_self f) k) Q s.
Proof.
  intros H w Hs. unfold bind, modify_self. apply H. simpl. congruence.
Qed.

Lemma wp_lift (r : res A) (k : A -> M B) :
  match r with
  | Ok a => wp (k a) Q s
  | Err e => Q (Raise e) s
  end -> wp (bind (lift r) k) Q s.
Proof.
  intros H w Hs. unfold bind, lift. destruct r; simpl.
  - apply H, Hs.
  - rewrite Hs. exact H.
Qed.

Lemma wp_attribute (f : Stepper -> option A) (k : A -> M B) :
  match f s with
  | Some a => wp (k a) Q s
  | None => Q (Raise AttributeError) s
  end -> wp (bind (attribute f) k) Q s.
Proof.
  intros H w Hs. unfold attribute. unfold bind, get_self. rewrite Hs.
  destruct (f s); simpl.
  - apply H, Hs.
  - rewrite Hs. exact H.
Qed.
End WpRules.

Section WpEnds.
Context {A : Type}.
Variable Q : outcome A -> Stepper -> Prop.
Variable s : Stepper.

Lemma wp_ret (a : A) : Q (Ret a) s -> wp (ret a) Q s.
Proof. intros H w Hs. simpl. rewrite Hs. exact H. Qed.

Lemma wp_quiet_end (c : M A) :
  quiet c -> (forall a, Q (Ret a) s) -> wp c Q s.
Proof.
  intros Hq H w Hs. destruct (Hq w) as (a & w' & -> & Hself).
  simpl. rewrite Hself, Hs. apply H.
Qed.
End WpEnds.

Lemma wp_modify_self_end (Q : outcome unit -> Stepper -> Prop) s f :
  Q (Ret tt) (f s) -> wp (modify_self f) Q s.
Proof. intros H w Hs. simpl. rewrite Hs. exact H. Qed.

Lemma wp_mono {A} (c : M A) (Q Q' : outcome A -> Stepper -> Prop) s :
  wp c Q s -> (forall o s', Q o s' -> Q' o s') -> wp c Q' s.
Proof. intros H HQ w Hs. apply HQ, H, Hs. Qed.

(** *** Quiet operations *)

Lemma quiet_ret {A} (a : A) : quiet (ret a).
Proof. intros w. exists a, w. split; reflexivity. Qed.

Lemma quiet_bind {A B} (c : M A) (k : A -> M B) :
  quiet c -> (forall a, quiet (k a)) -> quiet (bind c k).
Proof.
  intros Hc Hk w. destruct (Hc w) as (a & w1 & E1 & S1).
  destruct (Hk a w1) as (b & w2 & E2 & S2).
  exists b, w2. unfold bind. rewrite E1, E2. split; congruence.
Qed.

Lemma quiet_emit ev : quiet (emit ev).
Proof. intros w. eexists _, _. split; reflexivity. Qed.

Lemma quiet_print m : quiet (print m).
Proof. apply quiet_emit. Qed.

Lemma quiet_setup p : quiet (GPIO.setup p).
Proof. apply quiet_emit. Qed.

Lemma quiet_output p v : quiet (GPIO.output p v).
Proof. intros w. eexists _, _. split; reflexivity. Qed.

Lemma quiet_input p : quiet (GPIO.input p).
Proof. intros w. eexists _, _. split; reflexivity. Qed.

Lemma quiet_get_self : quiet get_self.
Proof. intros w. eexists _, _. split; reflexivity. Qed.

Lemma quiet_LED_on l : quiet (LED_on l).
Proof.
  apply quiet_bind; [apply quiet_input|].
  intros []; simpl; [apply quiet_ret | apply quiet_output].
Qed.

Lemma quiet_LED_off l : quiet (LED_off l).
Proof.
  apply quiet_bind; [apply quiet_input|].
  intros []; simpl; [apply quiet_output | apply quiet_ret].
Qed.

Lemma quiet_set_step a1 a2 b1 b2 : quiet (set_step a1 a2 b1 b2).
Proof.
  apply quiet_bind; [apply quiet_get_self|]. intros s.
  repeat (apply quiet_bind; [apply quiet_output|]; intros _).
  apply quiet_output.
Qed.

Create HintDb quiet.
#[local] Hint Resolve quiet_ret quiet_emit quiet_print quiet_setup
  quiet_output quiet_input quiet_get_self quiet_LED_on quiet_LED_off
  quiet_set_step : quiet.

(** *** Waiting and stepping *)

Lemma wp_exactly {A} (c : M A) o s s' (Q : outcome A -> Stepper -> Prop) :
  wp c (exactly o s') s -> Q o s' -> wp c Q s.
Proof.
  intros H HQ. apply (wp_mono _ _ _ _ H). intros ? ? [-> ->]. exact HQ.
Qed.

Lemma sleep_exactly s :
  wp (sleep (delay s)) (exactly (waited s true) s) s.
Proof.
  intros w Hs. unfold sleep, exactly, waited. rewrite andb_true_r.
  destruct (delay s) as [| [] | |]; simpl; auto.
Qed.

Lemma phase_exactly s a1 a2 b1 b2 :
  wp (phase a1 a2 b1 b2) (exactly (waited s true) s) s.
Proof.
  unfold phase. apply wp_quiet; [auto with quiet|]. intros _.
  apply wp_get_self. apply sleep_exactly.
Qed.

(** A phase followed by more: it hangs there, or the rest runs. *)
Lemma wp_phase {B} (Q : outcome B -> Stepper -> Prop) s a1 a2 b1 b2
  (k : unit -> M B) :
  (if is_pinf (delay s) then Q Hang s else wp (k tt) Q s) ->
  wp (bind (phase a1 a2 b1 b2) k) Q s.
Proof.
  intros H. apply wp_bind.
  apply (wp_exactly _ _ _ _ _ (phase_exactly s a1 a2 b1 b2)).
  unfold waited. rewrite andb_true_r.
  destruct (is_pinf (delay s)); exact H.
Qed.

Lemma step_cw_exactly s : wp step_cw (exactly (waited s true) s) s.
Proof.
  unfold step_cw, exactly, waited. rewrite andb_true_r.
  destruct (is_pinf (delay s)) eqn:E.
  - apply wp_phase. rewrite E. split; reflexivity.
  - do 3 (apply wp_phase; rewrite E).
    apply (wp_exactly _ _ _ _ _ (phase_exactly s _ _ _ _)).
    unfold waited. rewrite E. split; reflexivity.
Qed.

Lemma step_ccw_exactly s : wp step_ccw (exactly (waited s true) s) s.
Proof.
  unfold step_ccw, exactly, waited. rewrite andb_true_r.
  destruct (is_pinf (delay s)) eqn:E.
  - apply wp_phase. rewrite E. split; reflexivity.
  - do 3 (apply wp_phase; rewrite E).
    apply (wp_exactly _ _ _ _ _ (phase_exactly s _ _ _ _)).
    unfold waited. rewrite E. split; reflexivity.
Qed.

Lemma repeat_body_exactly (body : M unit) s :
  wp body (exactly (waited s true) s) s ->
  forall n : nat,
    wp (repeat_body n body) (exactly (waited s (negb (Nat.eqb n 0))) s) s.
Proof.
  intros Hb. induction n as [|n IH]; simpl.
  - apply wp_ret. unfold waited. rewrite andb_false_r. split; reflexivity.
  - apply wp_bind. apply (wp_exactly _ _ _ _ _ Hb).
    unfold waited in *. rewrite andb_true_r in *.
    destruct (is_pinf (delay s)); simpl in *.
    + split; reflexivity.
    + apply (wp_mono _ _ _ _ IH). intros o s' H. exact H.
Qed.

Lemma for_range_exactly (body : M unit) s (n : Z) :
  wp body (exactly (waited s true) s) s ->
  wp (for_range n body) (exactly (waited s (0 <? n)) s) s.
Proof.
  intros Hb. unfold for_range.
  replace (0 <? n) with (negb (Nat.eqb (Z.to_nat n) 0)).
  - apply repeat_body_exactly, Hb.
  - destruct (Z.ltb_spec 0 n), (Nat.eqb_spec (Z.to_nat n) 0);
      simpl; try reflexivity; lia.
Qed.

(** *** The LEDs *)

Lemma deactivate_exactly s :
  wired s -> wp deactivate (exactly (Ret tt) s) s.
Proof.
  intros ([r Hr] & [b Hb] & [g Hg] & [o Ho]). unfold deactivate.
  apply wp_quiet; [auto with quiet|]. intros _.
  apply wp_attribute. rewrite Hr.
  apply wp_quiet; [auto with quiet|]. intros _.
  apply wp_attribute. rewrite Hb.
  apply wp_quiet; [auto with quiet|]. intros _.
  apply wp_attribute. rewrite Hg.
  apply wp_quiet; [auto with quiet|]. intros _.
  apply wp_attribute. rewrite Ho.
  apply wp_quiet_end; [auto with quiet|]. intros []. split; reflexivity.
Qed.

Lemma wired_move_counters d s : wired s -> wired (move_counters d s).
Proof. intros H. exact H. Qed.

(** ** rotate *)

Lemma valid_direction_cases direction :
  valid_direction direction = true <->
  lower direction = "cw"%string \/ lower direction = "ccw"%string.
Proof.
  unfold valid_direction. simpl. rewrite orb_false_r, orb_true_iff.
  rewrite !String.eqb_eq. tauto.
Qed.

Lemma invalid_direction_cases direction :
  valid_direction direction = false <->
  lower direction <> "cw"%string /\ lower direction <> "ccw"%string.
Proof.
  destruct (valid_direction direction) eqn:E.
  - apply valid_direction_cases in E. split; [discriminate | tauto].
  - split; [intros _ | reflexivity].
    split; intros H; assert (valid_direction direction = true)
      by (apply valid_direction_cases; tauto); congruence.
Qed.

Lemma rotate_invalid_direction direction angle steps w :
  valid_direction direction = false ->
  rotate direction angle steps w
  = (Ret tt, logged (EvPrint (MsgInvalidDirection direction)) w).
Proof. intros H. unfold rotate. rewrite H. reflexivity. Qed.

Lemma chosen_steps_falsy angle steps :
  truthy_angle angle = false -> truthy_steps steps = false ->
  chosen_steps angle steps = Ok None.
Proof.
  intros Ha Hs. unfold chosen_steps.
  destruct angle as [a|]; simpl in Ha; rewrite ?Ha, Hs; reflexivity.
Qed.

Lemma rotate_no_distance direction angle steps w :
  valid_direction direction = true ->
  truthy_angle angle = false -> truthy_steps steps = false ->
  rotate direction angle steps w = (Ret tt, logged (EvPrint MsgNoDistance) w).
Proof.
  intros Hd Ha Hs. unfold rotate. rewrite Hd. simpl.
  unfold bind. rewrite (chosen_steps_falsy _ _ Ha Hs). reflexivity.
Qed.

(** A valid call on a wired driver: the counters move first, then the
    stepping runs to its end unless the delay is infinite. *)
Lemma rotate_valid s direction angle steps n shown :
  valid_direction direction = true ->
  chosen_steps angle steps = Ok (Some n) -> n <> 0 ->
  shown_angle angle n = Ok shown ->
  wired s ->
  wp (rotate direction angle steps)
     (exactly (waited s (0 <? n))
        (move_counters (signed_steps direction n) s)) s.
Proof.
  intros Hd Hn Hn0 Hshown Hw.
  pose proof Hw as ([r Hr] & [b Hb] & [g Hg] & [o Ho]).
  unfold rotate. rewrite Hd. simpl.
  apply wp_lift. rewrite Hn.
  destruct (Z.eqb_spec n 0) as [|_]; [contradiction|].
  apply wp_lift. rewrite Hshown.
  apply wp_attribute. rewrite Hr.
  apply wp_quiet; [auto with quiet|]. intros _.
  apply wp_bind. unfold signed_steps.
  destruct (String.eqb (lower direction) "cw") eqn:Ecw.
  - apply wp_attribute. rewrite Hb.
    apply wp_quiet; [auto with quiet|]. intros _.
    apply wp_attribute. rewrite Hg.
    apply wp_quiet; [auto with quiet|]. intros _.
    apply wp_modify_self.
    apply wp_quiet; [auto with quiet|]. intros _.
    eapply wp_exactly; [apply for_range_exactly, step_cw_exactly|].
    unfold after, waited. simpl.
    destruct (is_pinf (delay s) && (0 <? n))%bool; [split; reflexivity|].
    apply deactivate_exactly. exact Hw.
  - apply valid_direction_cases in Hd. destruct Hd as [Hd|Hd].
    + apply String.eqb_eq in Hd. congruence.
    + rewrite Hd. simpl.
      apply wp_attribute. rewrite Hg.
      apply wp_quiet; [auto with quiet|]. intros _.
      apply wp_attribute. rewrite Ho.
      apply wp_quiet; [auto with quiet|]. intros _.
      apply wp_modify_self.
      apply wp_quiet; [auto with quiet|]. intros _.
      eapply wp_exactly; [apply for_range_exactly, step_ccw_exactly|].
      unfold after, waited. simpl.
      destruct (is_pinf (delay s) && (0 <? n))%bool; [split; reflexivity|].
      apply deactivate_exactly. exact Hw.
Qed.

Lemma bind_lift_ok {A B} (r : res A) (a : A) (k : A -> M B) w :
  r = Ok a -> bind (lift r) k w = k a w.
Proof. intros ->. reflexivity. Qed.

(** Without a red LED a call that would move stops at [self.redLED.off()],
    the world being as it was. *)
Lemma rotate_raises_unwired direction angle steps n shown w :
  valid_direction direction = true ->
  chosen_steps angle steps = Ok (Some n) -> n <> 0 ->
  shown_angle angle n = Ok shown ->
  redLED (self w) = None ->
  rotate direction angle steps w = (Raise AttributeError, w).
Proof.
  intros Hd Hn Hn0 Hshown Hred. unfold rotate. rewrite Hd. cbn [negb].
  rewrite (bind_lift_ok _ _ _ _ Hn).
  destruct (Z.eqb_spec n 0) as [|_]; [contradiction|].
  rewrite (bind_lift_ok _ _ _ _ Hshown).
  unfold bind at 1. unfold attribute, bind, get_self. rewrite Hred.
  reflexivity.
Qed.

Lemma chosen_steps_only_steps n :
  n <> 0 -> chosen_steps None (Some n) = Ok (Some n).
Proof.
  intros H. unfold chosen_steps, truthy_steps.
  destruct (Z.eqb_spec n 0); [contradiction | reflexivity].
Qed.

Lemma shown_angle_only_steps n a :
  to_angle n = Ok a -> shown_angle None n = Ok (AngleApprox a).
Proof. intros H. unfold shown_angle. rewrite H. reflexivity. Qed.

(** A call with steps only, on a wired driver with a finite delay, returns
    with both counters moved. *)
Lemma rotate_steps_returns direction n a w :
  valid_direction direction = true ->
  n <> 0 -> to_angle n = Ok a ->
  wired (self w) -> is_pinf (delay (self w)) = false ->
  exists w',
    rotate direction None (Some n) w = (Ret tt, w') /\
    self w' = move_counters (signed_steps direction n) (self w).
Proof.
  intros Hd Hn Ha Hw Hfin.
  pose proof (rotate_valid (self w) direction None (Some n) n (AngleApprox a)
                Hd (chosen_steps_only_steps n Hn) Hn
                (shown_angle_only_steps n a Ha) Hw w eq_refl) as [Ho Hs].
  unfold waited in Ho. rewrite Hfin in Ho. simpl in Ho.
  exists (snd (rotate direction None (Some n) w)). split; [|exact Hs].
  destruct (rotate direction None (Some n) w) as [o w']. simpl in *.
  congruence.
Qed.

Lemma wired_bench : wired (self bench).
Proof. repeat split; eexists; reflexivity. Defined.

Lemma idle_bench : idle bench.
Proof.
  repeat split; try reflexivity.
  exists {| LED.pin := 5 |}. split; reflexivity.
Defined.

Lemma counters_moved w w' d :
  self w' = move_counters d (self w) ->
  home w' = home w + d /\ default_home w' = default_home w + d.
Proof. intros H. unfold home, default_home. rewrite H. split; reflexivity. Qed.

(** C5. For a valid direction, [rotate] with neither angle nor steps, or
    with both falsy (an explicit [0], [0.0] or [-0.0]), prints "No angle or
    steps specified." and returns: no GPIO write, no wait, and the counters
    and the delay are as before. *)
Theorem rotate_no_distance_spec
  (direction : string) (angle : option float) (steps : option Z) (w : World) :
  lower direction = "cw"%string \/ lower direction = "ccw"%string ->
  angle = None \/ (exists sg, angle = Some (S754_zero sg)) ->
  steps = None \/ steps = Some 0 ->
  exists w',
    rotate direction angle steps w = (Ret tt, w') /\
    log w' = EvPrint MsgNoDistance :: log w /\
    outputs (log w') = outputs (log w) /\
    levels w' = levels w /\
    home w' = home w /\
    default_home w' = default_home w /\
    delay (self w') = delay (self w).
Proof.
  intros Hd Ha Hs. exists (logged (EvPrint MsgNoDistance) w).
  split; [|repeat split].
  apply rotate_no_distance.
  - apply valid_direction_cases, Hd.
  - destruct Ha as [-> | [sg ->]]; reflexivity.
  - destruct Hs as [-> | ->]; reflexivity.
Qed.

Lemma rotate_no_distance_spec_witness :
  (exists w', rotate "cw" None None bench = (Ret tt, w') /\
              log w' = EvPrint MsgNoDistance :: log bench /\
              home w' = home bench) /\
  (exists w', rotate "CCW" (Some (S754_zero false)) (Some 0) bench
              = (Ret tt, w') /\
              outputs (log w') = outputs (log bench) /\
              delay (self w') = delay (self bench)).
Proof.
  split.
  - destruct (rotate_no_distance_spec "cw" None None bench
                (or_introl eq_refl) (or_introl eq_refl) (or_introl eq_refl))
      as (w' & H1 & H2 & _ & _ & H5 & _).
    exists w'. repeat split; assumption.
  - destruct (rotate_no_distance_spec "CCW" (Some (S754_zero false)) (Some 0)
                bench (or_intror eq_refl)
                (or_intror (ex_intro _ false eq_refl)) (or_intror eq_refl))
      as (w' & H1 & _ & H3 & _ & _ & _ & H7).
    exists w'. repeat split; assumption.
Defined.

(** C6. For a direction that is neither [cw] nor [ccw] once lowered (as
    ['up']), [rotate] prints "Invalid direction" and returns: no GPIO write,
    no wait, counters and delay as before, an idle driver still idle; and the
    next valid call moves the counters as usual. *)
Theorem rotate_invalid_direction_spec
  (direction : string) (angle : option float) (steps : option Z) (w : World) :
  lower direction <> "cw"%string -> lower direction <> "ccw"%string ->
  exists w',
    rotate direction angle steps w = (Ret tt, w') /\
    log w' = EvPrint (MsgInvalidDirection direction) :: log w /\
    outputs (log w') = outputs (log w) /\
    levels w' = levels w /\
    home w' = home w /\
    default_home w' = default_home w /\
    delay (self w') = delay (self w) /\
    (idle w -> idle w') /\
    (forall direction' n a,
        valid_direction direction' = true -> n <> 0 -> to_angle n = Ok a ->
        wired (self w) -> is_pinf (delay (self w)) = false ->
        exists w'',
          rotate direction' None (Some n) w' = (Ret tt, w'') /\
          home w'' = home w + signed_steps direction' n /\
          default_home w'' = default_home w + signed_steps direction' n).
Proof.
  intros Hcw Hccw.
  exists (logged (EvPrint (MsgInvalidDirection direction)) w).
  split; [|repeat split].
  - apply rotate_invalid_direction, invalid_direction_cases. tauto.
  - apply H.
  - apply H.
  - apply H.
  - apply H.
  - destruct H as (_ & _ & _ & _ & H). exact H.
  - intros direction' n a Hd Hn Ha Hw Hfin.
    destruct (rotate_steps_returns direction' n a
                (logged (EvPrint (MsgInvalidDirection direction)) w)
                Hd Hn Ha Hw Hfin) as (w'' & Hrun & Hself).
    exists w''. split; [exact Hrun|].
    apply (counters_moved _ _ _ Hself).
Qed.

Lemma rotate_invalid_direction_spec_witness :
  exists w',
    rotate "up" None (Some 10) bench = (Ret tt, w') /\
    outputs (log w') = outputs (log bench) /\
    home w' = home bench /\
    idle w' /\
    exists w'',
      rotate "cw" None (Some 10) w' = (Ret tt, w'') /\ home w'' = -10.
Proof.
  destruct (rotate_invalid_direction_spec "up" None (Some 10) bench)
    as (w' & Hrun & _ & Hout & _ & Hhome & _ & _ & Hidle & Hnext).
  - discriminate.
  - discriminate.
  - exists w'. repeat split; try assumption.
    + apply Hidle, idle_bench.
    + apply Hidle, idle_bench.
    + apply Hidle, idle_bench.
    + apply Hidle, idle_bench.
    + apply Hidle, idle_bench.
    + destruct (Hnext "cw"%string 10 (literal 7 0)) as (w'' & H1 & H2 & _).
      * reflexivity.
      * discriminate.
      * vm_compute. reflexivity.
      * exact wired_bench.
      * reflexivity.
      * exists w''. split; [exact H1|]. rewrite H2. reflexivity.
Defined.

(** C1 as the spec words it fails on a driver as [__init__] leaves it: no
    LED is attached, so [rotate('cw', steps=10)], a call with a valid
    direction and the step count 10, raises [AttributeError] at
    [self.redLED.off()], before the counters are touched: both stay 0
    instead of going to -10, and the world is as it was. *)
Lemma rotate_unwired_counters_stay :
  valid_direction "cw" = true /\
  chosen_steps None (Some 10) = Ok (Some 10) /\
  redLED (self bench_unwired) = None /\
  rotate "cw" None (Some 10) bench_unwired
  = (Raise AttributeError, bench_unwired) /\
  home (snd (rotate "cw" None (Some 10) bench_unwired)) = 0 /\
  default_home (snd (rotate "cw" None (Some 10) bench_unwired)) = 0 /\
  home (snd (rotate "cw" None (Some 10) bench_unwired))
  <> home bench_unwired - 10 /\
  default_home (snd (rotate "cw" None (Some 10) bench_unwired))
  <> default_home bench_unwired - 10.
Proof.
  split; [reflexivity|]. split; [reflexivity|]. split; [reflexivity|].
  assert (H : rotate "cw" None (Some 10) bench_unwired
              = (Raise AttributeError, bench_unwired)).
  { apply (rotate_raises_unwired "cw" None (Some 10) 10
             (AngleApprox (literal 7 0))).
    - reflexivity.
    - reflexivity.
    - discriminate.
    - vm_compute. reflexivity.
    - reflexivity. }
  split; [exact H|]. rewrite H.
  repeat split; try reflexivity; vm_compute; discriminate.
Qed.

(** C1, amended. On a driver with its LEDs attached, a call of [rotate]
    with a valid direction, a nonzero step count [n] from the angle or the
    steps, and an angle text that is computed without an exception,
    subtracts [n] from both counters when clockwise and adds [n] to both
    when counter-clockwise; the counters are already moved when the stepping
    starts, so they are moved even if the stepping never ends (the call
    returns unless the delay is [+inf] and [n > 0]).  For every [n > 0] for
    which [to_angle(n)] returns, on a driver with its LEDs attached and a
    delay other than [+inf], [rotate('cw', steps=n)] followed by
    [rotate('ccw', steps=n)] returns with both counters at their values
    before the two calls. *)
Theorem rotate_moves_both_counters :
  (forall (w : World) direction angle steps n shown,
      valid_direction direction = true ->
      chosen_steps angle steps = Ok (Some n) -> n <> 0 ->
      shown_angle angle n = Ok shown ->
      wired (self w) ->
      let r := rotate direction angle steps w in
      fst r = waited (self w) (0 <? n) /\
      (lower direction = "cw"%string ->
       home (snd r) = home w - n /\
       default_home (snd r) = default_home w - n) /\
      (lower direction = "ccw"%string ->
       home (snd r) = home w + n /\
       default_home (snd r) = default_home w + n)) /\
  (forall (w : World) n a,
      0 < n -> to_angle n = Ok a ->
      wired (self w) -> is_pinf (delay (self w)) = false ->
      exists w1 w2,
        rotate "cw" None (Some n) w = (Ret tt, w1) /\
        rotate "ccw" None (Some n) w1 = (Ret tt, w2) /\
        home w1 = home w - n /\
        default_home w1 = default_home w - n /\
        home w2 = home w /\
        default_home w2 = default_home w).
Proof.
  split.
  - intros w direction angle steps n shown Hd Hn Hn0 Hshown Hw r.
    destruct (rotate_valid (self w) direction angle steps n shown
                Hd Hn Hn0 Hshown Hw w eq_refl) as [Ho Hs].
    fold r in Ho, Hs. split; [exact Ho|].
    apply counters_moved in Hs. unfold signed_steps in Hs.
    split; intros Hl; rewrite Hl in Hs; simpl in Hs; lia.
  - intros w n a Hn Ha Hw Hfin.
    destruct (rotate_steps_returns "cw" n a w eq_refl ltac:(lia) Ha Hw Hfin)
      as (w1 & Hrun1 & Hs1).
    assert (Hw1 : wired (self w1)) by (rewrite Hs1; exact Hw).
    assert (Hfin1 : is_pinf (delay (self w1)) = false)
      by (rewrite Hs1; exact Hfin).
    destruct (rotate_steps_returns "ccw" n a w1 eq_refl ltac:(lia) Ha Hw1 Hfin1)
      as (w2 & Hrun2 & Hs2).
    exists w1, w2. apply counters_moved in Hs1, Hs2.
    unfold signed_steps in *. simpl in *.
    repeat split; try assumption; lia.
Qed.

Lemma rotate_moves_both_counters_witness :
  (fst (rotate "CCW" (Some (literal 90 0)) None bench) = Ret tt /\
   home (snd (rotate "CCW" (Some (literal 90 0)) None bench)) = 128 /\
   default_home (snd (rotate "CCW" (Some (literal 90 0)) None bench)) = 128) /\
  exists w1 w2,
    rotate "cw" None (Some 200) bench = (Ret tt, w1) /\
    rotate "ccw" None (Some 200) w1 = (Ret tt, w2) /\
    home w1 = -200 /\ default_home w1 = -200 /\
    home w2 = 0 /\ default_home w2 = 0.
Proof.
  destruct rotate_moves_both_counters as [Hcall Hpair]. split.
  - destruct (Hcall bench "CCW"%string (Some (literal 90 0)) None 128
                (AngleGiven (literal 90 0)))
      as (Ho & _ & Hccw).
    + reflexivity.
    + vm_compute. reflexivity.
    + discriminate.
    + reflexivity.
    + exact wired_bench.
    + split; [exact Ho|]. apply Hccw. reflexivity.
  - destruct (Hpair bench 200 (literal 1406 1))
      as (w1 & w2 & H1 & H2 & H3 & H4 & H5 & H6).
    + reflexivity.
    + vm_compute. reflexivity.
    + exact wired_bench.
    + reflexivity.
    + exists w1, w2. repeat split; assumption.
Defined.

(** ** The difference of the two counters *)

Section Stable.
Variable I : Stepper -> Prop.

Lemma stable_bind {A B} (c : M A) (k : A -> M B) :
  stable I c -> (forall a, stable I (k a)) -> stable I (bind c k).
Proof.
  intros Hc Hk w Hw. unfold bind. specialize (Hc w Hw).
  destruct (c w) as [[a|e|] w']; simpl in *; auto. apply Hk, Hc.
Qed.

Lemma stable_quiet {A} (c : M A) : quiet c -> stable I c.
Proof.
  intros Hq w Hw. destruct (Hq w) as (a & w' & -> & Hs). simpl.
  rewrite Hs. exact Hw.
Qed.

Lemma stable_raise {A} e : stable I (@raise A e).
Proof. intros w Hw. exact Hw. Qed.

Lemma stable_lift {A} (r : res A) : stable I (lift r).
Proof. destruct r; [apply stable_quiet, quiet_ret | apply stable_raise]. Qed.

Lemma stable_attribute {A} (f : Stepper -> option A) : stable I (attribute f).
Proof.
  apply stable_bind; [apply stable_quiet, quiet_get_self|].
  intros s. destruct (f s); [apply stable_quiet, quiet_ret | apply stable_raise].
Qed.

Lemma stable_sleep d : stable I (sleep d).
Proof. intros w Hw. unfold sleep. destruct d as [|[]| |]; exact Hw. Qed.

Lemma stable_modify_self f :
  (forall s, I s -> I (f s)) -> stable I (modify_self f).
Proof. intros Hf w Hw. apply Hf, Hw. Qed.

Lemma stable_phase a1 a2 b1 b2 : stable I (phase a1 a2 b1 b2).
Proof.
  apply stable_bind; [apply stable_quiet, quiet_set_step|]. intros _.
  apply stable_bind; [apply stable_quiet, quiet_get_self|]. intros s.
  apply stable_sleep.
Qed.

Lemma stable_step_cw : stable I step_cw.
Proof.
  unfold step_cw.
  repeat (apply stable_bind; [apply stable_phase|]; intros _).
  apply stable_phase.
Qed.

Lemma stable_step_ccw : stable I step_ccw.
Proof.
  unfold step_ccw.
  repeat (apply stable_bind; [apply stable_phase|]; intros _).
  apply stable_phase.
Qed.

Lemma stable_for_range n (body : M unit) :
  stable I body -> stable I (for_range n body).
Proof.
  intros Hb. unfold for_range. induction (Z.to_nat n) as [|k IH]; simpl.
  - apply stable_quiet, quiet_ret.
  - apply stable_bind; [exact Hb|]. intros _. exact IH.
Qed.

Lemma stable_deactivate : stable I deactivate.
Proof.
  unfold deactivate.
  apply stable_bind; [apply stable_quiet, quiet_set_step|]. intros _.
  repeat (apply stable_bind; [apply stable_attribute|]; intros ?;
          first [ apply stable_bind;
                  [apply stable_quiet; auto with quiet|]; intros _
                | apply stable_quiet; auto with quiet ]).
Qed.

(** [rotate] keeps every property of the driver that moving both counters
    by the same amount keeps. *)
Lemma stable_rotate direction angle steps :
  (forall d s, I s -> I (move_counters d s)) ->
  stable I (rotate direction angle steps).
Proof.
  intros Hmove. unfold rotate.
  destruct (valid_direction direction); simpl;
    [|apply stable_quiet, quiet_print].
  apply stable_bind; [apply stable_lift|]. intros [n|];
    [|apply stable_quiet, quiet_print].
  destruct (n =? 0); [apply stable_quiet, quiet_print|].
  apply stable_bind; [apply stable_lift|]. intros shown.
  apply stable_bind; [apply stable_attribute|]. intros r.
  apply stable_bind; [apply stable_quiet, quiet_LED_off|]. intros _.
  apply stable_bind; [|intros _; apply stable_deactivate].
  destruct (String.eqb (lower direction) "cw");
    [|destruct (String.eqb (lower direction) "ccw");
      [|apply stable_quiet, quiet_ret]].
  - apply stable_bind; [apply stable_attribute|]. intros b.
    apply stable_bind; [apply stable_quiet, quiet_LED_on|]. intros _.
    apply stable_bind; [apply stable_attribute|]. intros g.
    apply stable_bind; [apply stable_quiet, quiet_LED_on|]. intros _.
    apply stable_bind; [apply stable_modify_self, Hmove|]. intros _.
    apply stable_bind; [apply stable_quiet, quiet_print|]. intros _.
    apply stable_for_range, stable_step_cw.
  - apply stable_bind; [apply stable_attribute|]. intros g.
    apply stable_bind; [apply stable_quiet, quiet_LED_on|]. intros _.
    apply stable_bind; [apply stable_attribute|]. intros o.
    apply stable_bind; [apply stable_quiet, quiet_LED_on|]. intros _.
    apply stable_bind; [apply stable_modify_self, Hmove|]. intros _.
    apply stable_bind; [apply stable_quiet, quiet_print|]. intros _.
    apply stable_for_range, stable_step_ccw.
Qed.

Lemma stable_set_speed secPerRev :
  (forall d s, I s -> I (with_delay d s)) -> stable I (set_speed secPerRev).
Proof.
  intros Hd. unfold set_speed.
  apply stable_bind; [apply stable_quiet, quiet_get_self|]. intros s.
  destruct (float_lt_int secPerRev (maxSpeed s)); [apply stable_raise|].
  apply stable_bind; [apply stable_lift|]. intros c.
  apply stable_modify_self, Hd.
Qed.

Lemma stable_set_speed_pct pct :
  (forall d s, I s -> I (with_delay d s)) -> stable I (set_speed_pct pct).
Proof.
  intros Hd. unfold set_speed_pct.
  apply stable_bind; [apply stable_lift|]. intros c100.
  apply stable_bind; [apply stable_lift|]. intros c0.
  apply stable_bind; [apply stable_quiet, quiet_get_self|]. intros s.
  apply stable_bind; [apply stable_lift|]. intros lo.
  apply stable_bind; [apply stable_lift|]. intros span.
  apply stable_set_speed, Hd.
Qed.

End Stable.

Lemma offset_is_move_counters k d s :
  offset_is k s -> offset_is k (move_counters d s).
Proof. unfold offset_is. simpl. lia. Qed.

Lemma offset_is_with_delay k d s : offset_is k s -> offset_is k (with_delay d s).
Proof. intros H. exact H. Qed.

Lemma offset_is_with_LEDs k r b g o s :
  offset_is k s -> offset_is k (with_LEDs r b g o s).
Proof. intros H. exact H. Qed.

(** C10. Whatever its arguments and however it ends, [rotate] changes
    [stepsFromHome] and [stepsFromDefaultHome] by one and the same amount,
    so their difference is kept; the speed setters, [set_step],
    [deactivate] and [set_LEDs] keep it as well, and each of [go_home],
    [set_home] and [reset_home] has a run that changes it. *)
Theorem rotate_keeps_offset :
  (forall direction angle steps (w : World),
      let w' := snd (rotate direction angle steps w) in
      (exists d, home w' = home w + d /\
                 default_home w' = default_home w + d) /\
      offset w' = offset w) /\
  (forall (w : World),
      (forall d, offset (snd (set_delay d w)) = offset w) /\
      (forall v, offset (snd (set_speed v w)) = offset w) /\
      (forall p, offset (snd (set_speed_pct p w)) = offset w) /\
      (forall a1 a2 b1 b2,
          offset (snd (set_step a1 a2 b1 b2 w)) = offset w) /\
      offset (snd (deactivate w)) = offset w /\
      (forall r b g o, offset (snd (set_LEDs r b g o w)) = offset w)) /\
  offset (snd (set_home bench_turned)) <> offset bench_turned /\
  offset (snd (reset_home bench_rehomed)) <> offset bench_rehomed /\
  offset (snd (go_home true bench_rehomed)) <> offset bench_rehomed.
Proof.
  assert (Hrot : forall direction angle steps (w : World),
             offset (snd (rotate direction angle steps w)) = offset w).
  { intros direction angle steps w.
    apply (stable_rotate (offset_is (offset w)) direction angle steps
             (offset_is_move_counters (offset w)) w).
    reflexivity. }
  split; [|split].
  - intros direction angle steps w w'. split; [|apply Hrot].
    exists (home w' - home w). split; [lia|].
    pose proof (Hrot direction angle steps w) as H. fold w' in H.
    unfold offset in H. lia.
  - intros w.
    refine (conj _ (conj _ (conj _ (conj _ (conj _ _))))).
    + intros d. reflexivity.
    + intros v.
      apply (stable_set_speed (offset_is (offset w)) v
               (offset_is_with_delay (offset w)) w).
      reflexivity.
    + intros p.
      apply (stable_set_speed_pct (offset_is (offset w)) p
               (offset_is_with_delay (offset w)) w).
      reflexivity.
    + intros a1 a2 b1 b2.
      apply (stable_quiet (offset_is (offset w)) _
               (quiet_set_step a1 a2 b1 b2) w).
      reflexivity.
    + apply (stable_deactivate (offset_is (offset w)) w). reflexivity.
    + intros r b g o.
      assert (Hs : stable (offset_is (offset w)) (set_LEDs r b g o)).
      { apply stable_bind;
          [apply stable_modify_self, offset_is_with_LEDs|]. intros _.
        apply stable_bind; [apply stable_attribute|]. intros l.
        apply stable_quiet, quiet_LED_on. }
      apply (Hs w). reflexivity.
  - repeat split; vm_compute; discriminate.
Qed.

(** ** go_home *)

Lemma go_home_unfold default w :
  go_home default w =
  match to_angle (selected default w) with
  | Err e => (Raise e, w)
  | Ok a =>
      let w1 := logged (EvPrint (going_home (selected default w) a)) w in
      match normalize (selected default w) (-256) 256 with
      | Err e => (Raise e, w1)
      | Ok steps =>
          if steps =? 0 then (Ret tt, logged (EvPrint MsgAlreadyHome) w1)
          else match homing_move steps w1 with
               | (Ret _, w2) => (Ret tt, reset_counters default w2)
               | (Raise e, w2) => (Raise e, w2)
               | (Hang, w2) => (Hang, w2)
               end
      end
  end.
Proof.
  unfold go_home, selected, default_home, home, going_home, homing_move.
  unfold bind at 1. unfold get_self at 1.
  unfold bind at 1.
  destruct (to_angle
              (if default then stepsFromDefaultHome (self w)
               else stepsFromHome (self w))) as [a|e]; [|reflexivity].
  simpl lift. unfold ret at 1.
  unfold bind at 1.
  set (c := if default then stepsFromDefaultHome (self w)
            else stepsFromHome (self w)).
  assert (Hp : (if 0 <? c then print (MsgGoingHome CW c a)
                else print (MsgGoingHome CCW (Z.abs c) a)) w
               = (Ret tt, logged (EvPrint (if 0 <? c then MsgGoingHome CW c a
                                           else MsgGoingHome CCW (Z.abs c) a))
                            w)).
  { destruct (0 <? c); reflexivity. }
  rewrite Hp. unfold bind at 1.
  destruct (normalize c (-256) 256) as [steps|e]; [|reflexivity].
  simpl lift. unfold ret at 1.
  destruct (steps =? 0); [reflexivity|].
  unfold bind at 1.
  destruct ((if steps <? 0 then rotate "ccw" None (Some (Z.abs steps))
             else rotate "cw" None (Some steps)) _) as [[[]|e|] w2];
    try reflexivity.
  destruct default; reflexivity.
Qed.

Lemma normalize_0 : normalize 0 (-256) 256 = Ok 0.
Proof. vm_compute. reflexivity. Qed.

Lemma to_angle_0 : to_angle 0 = Ok (S754_zero false).
Proof. vm_compute. reflexivity. Qed.

(** C8. When the normalized count of the selected counter is [0] (as for
    [go_home(True)] with [stepsFromDefaultHome == 0]), [go_home] only
    prints: the driver object and every GPIO line are as before, the log
    gains no GPIO write and no wait, only the two lines "Going Home" and
    "Already home." (nothing at all when the counter is too large for
    [to_angle], which raises); so running it again does the same. *)
Theorem go_home_already_home (default : bool) (w : World) :
  normalize (selected default w) (-256) 256 = Ok 0 ->
  (exists o w',
      go_home default w = (o, w') /\
      self w' = self w /\ levels w' = levels w /\
      home w' = home w /\ default_home w' = default_home w /\
      outputs (log w') = outputs (log w) /\
      (o = Ret tt /\
       (exists a, log w' = EvPrint MsgAlreadyHome
                           :: EvPrint (going_home (selected default w) a)
                           :: log w)
       \/ (exists e, o = Raise e) /\ w' = w)) /\
  (selected default w = 0 ->
   go_home default w
   = (Ret tt, logged (EvPrint MsgAlreadyHome)
                (logged (EvPrint (MsgGoingHome CCW 0 (S754_zero false))) w))).
Proof.
  intros Hn. split.
  - rewrite go_home_unfold, Hn. simpl.
    destruct (to_angle (selected default w)) as [a|e] eqn:Ea.
    + eexists _, _. split; [reflexivity|]. repeat split.
      left. split; [reflexivity|]. exists a. reflexivity.
    + exists (Raise e), w. split; [reflexivity|]. repeat split.
      right. split; [exists e|]; reflexivity.
  - intros H0. rewrite go_home_unfold, H0, to_angle_0, normalize_0.
    reflexivity.
Qed.

Lemma go_home_already_home_witness :
  go_home true bench
  = (Ret tt, logged (EvPrint MsgAlreadyHome)
               (logged (EvPrint (MsgGoingHome CCW 0 (S754_zero false))) bench))
  /\ exists o w', go_home false bench = (o, w') /\ self w' = self bench /\
                  outputs (log w') = outputs (log bench).
Proof.
  destruct (go_home_already_home true bench normalize_0) as [_ H0].
  destruct (go_home_already_home false bench normalize_0)
    as [(o & w' & Hrun & Hself & _ & _ & _ & Hout & _) _].
  split; [apply H0; reflexivity|].
  exists o, w'. repeat split; assumption.
Defined.

Lemma selected_reset_counters default w :
  selected default (reset_counters default w) = 0 /\
  home (reset_counters default w) = 0.
Proof. destruct default; split; reflexivity. Qed.

(** C2. A call of [go_home] whose normalized count is not [0] calls
    [rotate] with that count, and once it has returned the selected counter
    is [0] and [stepsFromHome] is [0] whichever counter was selected; on a
    wired driver with a finite delay the call does return. *)
Theorem go_home_resets (default : bool) (w : World) (steps : Z) :
  normalize (selected default w) (-256) 256 = Ok steps ->
  steps <> 0 ->
  (forall w',
      go_home default w = (Ret tt, w') ->
      selected default w' = 0 /\
      home w' = 0 /\
      exists a w2,
        to_angle (selected default w) = Ok a /\
        homing_move steps
          (logged (EvPrint (going_home (selected default w) a)) w)
        = (Ret tt, w2) /\
        w' = reset_counters default w2) /\
  (forall a a',
      to_angle (selected default w) = Ok a ->
      to_angle (Z.abs steps) = Ok a' ->
      wired (self w) -> is_pinf (delay (self w)) = false ->
      exists w',
        go_home default w = (Ret tt, w') /\
        home w' = 0 /\ selected default w' = 0 /\
        (default = false -> default_home w' = default_home w - steps)).
Proof.
  intros Hn Hs0. split.
  - intros w' Hrun. rewrite go_home_unfold, Hn in Hrun.
    destruct (to_angle (selected default w)) as [a|e]; [|discriminate].
    simpl in Hrun. destruct (Z.eqb_spec steps 0) as [|_]; [contradiction|].
    destruct (homing_move steps _) as [[[]|e|] w2] eqn:Em; try discriminate.
    inversion Hrun; subst w'.
    destruct (selected_reset_counters default w2) as [H1 H2].
    split; [exact H1|]. split; [exact H2|].
    exists a, w2. auto.
  - intros a a' Ha Ha' Hw Hfin. rewrite go_home_unfold, Hn, Ha. simpl.
    destruct (Z.eqb_spec steps 0) as [|_]; [contradiction|].
    set (w1 := logged (EvPrint (going_home (selected default w) a)) w).
    assert (Hmove : exists w2, homing_move steps w1 = (Ret tt, w2) /\
                               self w2 = move_counters (- steps) (self w)).
    { unfold homing_move. destruct (Z.ltb_spec steps 0) as [Hneg|Hpos].
      - destruct (rotate_steps_returns "ccw" (Z.abs steps) a' w1 eq_refl
                    ltac:(lia) Ha' Hw Hfin) as (w2 & Hr & Hs).
        exists w2. split; [exact Hr|]. rewrite Hs.
        unfold signed_steps. simpl. f_equal. lia.
      - replace (Z.abs steps) with steps in Ha' by lia.
        destruct (rotate_steps_returns "cw" steps a' w1 eq_refl
                    Hs0 Ha' Hw Hfin) as (w2 & Hr & Hs).
        exists w2. split; [exact Hr|]. rewrite Hs. reflexivity. }
    destruct Hmove as (w2 & -> & Hs2).
    exists (reset_counters default w2).
    destruct (selected_reset_counters default w2) as [H1 H2].
    repeat split; try assumption.
    intros ->. unfold default_home. simpl. rewrite Hs2. simpl. lia.
Qed.

Lemma go_home_resets_witness :
  (exists w',
      go_home true bench_turned = (Ret tt, w') /\
      home w' = 0 /\ default_home w' = 0) /\
  (exists w',
      go_home false bench_turned = (Ret tt, w') /\
      home w' = 0 /\ default_home w' = 0) /\
  (exists w',
      go_home true bench_rehomed = (Ret tt, w') /\
      default_home w' = 0 /\ home w' = 0).
Proof.
  assert (H3 : normalize 3 (-256) 256 = Ok 3) by (vm_compute; reflexivity).
  assert (Ha : to_angle 3 = Ok (literal 21 1)) by (vm_compute; reflexivity).
  split; [|split].
  - destruct (go_home_resets true bench_turned 3 H3 ltac:(discriminate))
      as [_ Htot].
    destruct (Htot _ _ Ha Ha wired_bench eq_refl) as (w' & Hr & Hh & Hd & _).
    exists w'. repeat split; assumption.
  - destruct (go_home_resets false bench_turned 3 H3 ltac:(discriminate))
      as [_ Htot].
    destruct (Htot _ _ Ha Ha wired_bench eq_refl) as (w' & Hr & Hh & _ & Hd).
    exists w'. repeat split; try assumption. rewrite (Hd eq_refl). reflexivity.
  - destruct (go_home_resets true bench_rehomed 3 H3 ltac:(discriminate))
      as [Hres Htot].
    destruct (Htot _ _ Ha Ha wired_bench eq_refl) as (w' & Hrun & _).
    destruct (Hres w' Hrun) as (H1 & H2 & _).
    exists w'. repeat split; assumption.
Defined.

(** ** set_speed *)

Lemma set_speed_too_fast (secPerRev : float) (w : World) :
  float_lt_int secPerRev (maxSpeed (self w)) = true ->
  set_speed secPerRev w = (Raise ValueError, w).
Proof.
  intros H. unfold set_speed, bind, get_self. rewrite H. reflexivity.
Qed.

Lemma set_speed_accepted (secPerRev : float) (w : World) :
  float_lt_int secPerRev (maxSpeed (self w)) = false ->
  set_speed secPerRev w = (Ret tt, set_delay_world (fdiv secPerRev f2050) w).
Proof.
  intros H. unfold set_speed, bind, get_self. rewrite H.
  rewrite int_to_float_2050. reflexivity.
Qed.

(** C4. [set_speed(secPerRev)] raises [ValueError] exactly when
    [secPerRev < self.maxSpeed], and then changes nothing; otherwise it
    returns and [self.delay] is [secPerRev/2050].  With [maxSpeed = 4],
    [set_speed(3.9)] raises and [set_speed(4.0)] sets the delay to
    [4.0/2050]. *)
Theorem set_speed_spec (secPerRev : float) (w : World) :
  (fst (set_speed secPerRev w) = Raise ValueError <->
   float_lt_int secPerRev (maxSpeed (self w)) = true) /\
  (float_lt_int secPerRev (maxSpeed (self w)) = true ->
   set_speed secPerRev w = (Raise ValueError, w)) /\
  (float_lt_int secPerRev (maxSpeed (self w)) = false ->
   set_speed secPerRev w = (Ret tt, set_delay_world (fdiv secPerRev f2050) w)) /\
  (maxSpeed (self w) = 4 ->
   set_speed (literal 39 1) w = (Raise ValueError, w) /\
   set_speed (literal 4 0) w
   = (Ret tt, set_delay_world (fdiv (literal 4 0) f2050) w) /\
   fdiv (literal 4 0) f2050 = FloatOps.Prim2SF (4.0 / 2050)%float).
Proof.
  split; [|split; [|split]].
  - destruct (float_lt_int secPerRev (maxSpeed (self w))) eqn:E.
    + rewrite (set_speed_too_fast _ _ E). simpl. tauto.
    + rewrite (set_speed_accepted _ _ E). simpl. split; discriminate.
  - apply set_speed_too_fast.
  - apply set_speed_accepted.
  - intros H4. split; [|split].
    + apply set_speed_too_fast. rewrite H4. vm_compute. reflexivity.
    + apply set_speed_accepted. rewrite H4. vm_compute. reflexivity.
    + vm_compute. reflexivity.
Qed.

Lemma set_speed_spec_witness :
  maxSpeed (self bench) = 4 /\
  float_lt_int (literal 39 1) (maxSpeed (self bench)) = true /\
  float_lt_int (literal 4 0) (maxSpeed (self bench)) = false /\
  set_speed (literal 39 1) bench = (Raise ValueError, bench) /\
  delay (self (snd (set_speed (literal 4 0) bench)))
  = fdiv (literal 4 0) f2050.
Proof.
  pose proof (set_speed_spec (literal 39 1) bench) as (_ & Hfast & _ & Hex).
  pose proof (set_speed_spec (literal 4 0) bench) as (_ & _ & Hok & _).
  assert (H4 : maxSpeed (self bench) = 4) by reflexivity.
  assert (Ht : float_lt_int (literal 39 1) (maxSpeed (self bench)) = true)
    by (vm_compute; reflexivity).
  assert (Hf : float_lt_int (literal 4 0) (maxSpeed (self bench)) = false)
    by (vm_compute; reflexivity).
  split; [exact H4|]. split; [exact Ht|]. split; [exact Hf|].
  split; [exact (Hfast Ht)|].
  rewrite (Hok Hf). reflexivity.
Defined.

(** ** set_speed_pct *)

Lemma int_to_float_100 : int_to_float 100 = Ok f100.
Proof. vm_compute. reflexivity. Qed.

Lemma int_to_float_0 : int_to_float 0 = Ok f0.
Proof. vm_compute. reflexivity. Qed.

Lemma int_to_float_10 : int_to_float 10 = Ok f10.
Proof. vm_compute. reflexivity. Qed.

Lemma int_to_float_6 : int_to_float (10 - 4) = Ok f6.
Proof. vm_compute. reflexivity. Qed.

Lemma set_speed_pct_unfold pct w :
  minSpeed (self w) = 10 -> maxSpeed (self w) = 4 ->
  set_speed_pct pct w = set_speed (seconds_for (clamped (scaled pct))) w.
Proof.
  intros Hmin Hmax. unfold set_speed_pct.
  rewrite (bind_lift_ok _ _ _ _ int_to_float_100).
  rewrite (bind_lift_ok _ _ _ _ int_to_float_0).
  unfold bind at 1. unfold get_self at 1. rewrite Hmin, Hmax.
  rewrite (bind_lift_ok _ _ _ _ int_to_float_10).
  rewrite (bind_lift_ok _ _ _ _ int_to_float_6).
  reflexivity.
Qed.

Lemma fmul_comm x y : fmul x y = fmul y x.
Proof.
  unfold fmul. destruct x as [sx|sx| |sx mx ex], y as [sy|sy| |sy my ey];
    simpl; rewrite ?(xorb_comm sx sy); try reflexivity.
  rewrite (Pos.mul_comm mx my), (Z.add_comm ex ey). reflexivity.
Qed.

Lemma clamped_in_range x :
  float_lt_int (clamped x) 0 = false /\ float_gt_int (clamped x) 100 = false.
Proof.
  unfold clamped. destruct (float_gt_int x 100) eqn:Egt.
  - vm_compute. split; reflexivity.
  - destruct (float_lt_int x 0) eqn:Elt.
    + vm_compute. split; reflexivity.
    + split; assumption.
Qed.

Lemma set_speed_pct_fraction_differs :
  let p := literal 1 2 in
  float_le_int p 1 = true /\ float_lt_int p 0 = false /\
  fst (set_speed_pct p bench) = Ret tt /\
  fst (set_speed_pct (fmul f100 p) bench) = Ret tt /\
  delay_after (set_speed_pct p bench)
  <> delay_after (set_speed_pct (fmul f100 p) bench).
Proof. vm_compute. repeat split; discriminate. Qed.

(** C7, amended. With the speeds 10 and 4, [set_speed_pct(pct)] multiplies
    an input [<= 1] by 100, clamps the result to [0, 100], and calls
    [set_speed] with [10 - (pct/100)*6], which is 10 at 0% and 4 at 100%.
    For every [p <= 1] whose product [100*p] is greater than 1,
    [set_speed_pct(p)] and [set_speed_pct(100*p)] do the same, as for 0.5
    and 50. *)
Theorem set_speed_pct_spec :
  (forall pct (w : World),
      minSpeed (self w) = 10 -> maxSpeed (self w) = 4 ->
      set_speed_pct pct w = set_speed (seconds_for (clamped (scaled pct))) w) /\
  (forall pct,
      (float_le_int pct 1 = true -> scaled pct = fmul pct f100) /\
      (float_le_int pct 1 = false -> scaled pct = pct)) /\
  (forall x, float_lt_int (clamped x) 0 = false /\
             float_gt_int (clamped x) 100 = false) /\
  seconds_for f0 = f10 /\
  seconds_for f100 = f4 /\
  (forall p (w : World),
      float_le_int p 1 = true ->
      float_le_int (fmul f100 p) 1 = false ->
      set_speed_pct p w = set_speed_pct (fmul f100 p) w) /\
  (forall w : World,
      minSpeed (self w) = 10 -> maxSpeed (self w) = 4 ->
      set_speed_pct (literal 5 1) w = set_speed_pct (literal 50 0) w /\
      delay_after (set_speed_pct (literal 5 1) w) = fdiv (literal 7 0) f2050).
Proof.
  refine (conj set_speed_pct_unfold (conj _ (conj clamped_in_range
            (conj _ (conj _ (conj _ _)))))).
  - intros pct. unfold scaled. split; intros ->; reflexivity.
  - vm_compute. reflexivity.
  - vm_compute. reflexivity.
  - intros p w Hp H100. unfold set_speed_pct.
    rewrite !(bind_lift_ok _ _ _ _ int_to_float_100).
    rewrite !(bind_lift_ok _ _ _ _ int_to_float_0).
    rewrite Hp, H100, (fmul_comm p f100). reflexivity.
  - intros w Hmin Hmax. rewrite !set_speed_pct_unfold by assumption.
    replace (seconds_for (clamped (scaled (literal 5 1)))) with (literal 7 0)
      by (vm_compute; reflexivity).
    replace (seconds_for (clamped (scaled (literal 50 0)))) with (literal 7 0)
      by (vm_compute; reflexivity).
    split; [reflexivity|].
    rewrite set_speed_accepted by (rewrite Hmax; vm_compute; reflexivity).
    reflexivity.
Qed.

Lemma set_speed_pct_spec_witness :
  set_speed_pct (literal 5 1) bench = set_speed_pct (fmul f100 (literal 5 1)) bench
  /\ set_speed_pct (literal 5 1) bench = set_speed_pct (literal 50 0) bench
  /\ delay_after (set_speed_pct (literal 5 1) bench) = fdiv (literal 7 0) f2050
  /\ scaled (literal 5 1) = fmul (literal 5 1) f100
  /\ scaled (literal 50 0) = literal 50 0.
Proof.
  destruct set_speed_pct_spec as (Hunf & Hsc & _ & _ & _ & Hsame & Hex).
  destruct (Hex bench eq_refl eq_refl) as [H1 H2].
  destruct (Hsc (literal 5 1)) as [Hs1 _].
  destruct (Hsc (literal 50 0)) as [_ Hs2].
  split; [|split; [|split; [|split]]].
  - apply Hsame; vm_compute; reflexivity.
  - exact H1.
  - exact H2.
  - apply Hs1. vm_compute. reflexivity.
  - apply Hs2. vm_compute. reflexivity.
Defined.

(** ** normalize: the float quotient and the exact one *)

Lemma digits2_pos_bounds p :
  2 ^ (Zpos (digits2_pos p) - 1) <= Zpos p < 2 ^ Zpos (digits2_pos p).
Proof.
  induction p as [p IH|p IH|]; simpl digits2_pos.
  - rewrite Pos2Z.inj_succ.
    replace (Z.succ (Zpos (digits2_pos p)) - 1)
      with (Z.succ (Zpos (digits2_pos p) - 1)) by lia.
    rewrite !Z.pow_succ_r by lia. lia.
  - rewrite Pos2Z.inj_succ.
    replace (Z.succ (Zpos (digits2_pos p)) - 1)
      with (Z.succ (Zpos (digits2_pos p) - 1)) by lia.
    rewrite !Z.pow_succ_r by lia. lia.
  - simpl. lia.
Qed.

Lemma Zdigits2_unique z n :
  0 < z -> 2 ^ (n - 1) <= z < 2 ^ n -> Zdigits2 z = n.
Proof.
  intros Hz Hn. destruct z as [|p|p]; try lia. simpl.
  pose proof (digits2_pos_bounds p) as Hd.
  set (d := Zpos (digits2_pos p)) in *.
  assert (0 < n).
  { destruct (Z.ltb_spec 0 n); [assumption|].
    assert (2 ^ n <= 1).
    { destruct (Z.eq_dec n 0) as [->|]; [simpl; lia|].
      rewrite Z.pow_neg_r by lia. lia. }
    lia. }
  destruct (Z.lt_trichotomy d n) as [Hlt|[Heq|Hgt]]; [|exact Heq|].
  - assert (2 ^ d <= 2 ^ (n - 1)) by (apply Z.pow_le_mono_r; lia). lia.
  - assert (2 ^ n <= 2 ^ (d - 1)) by (apply Z.pow_le_mono_r; lia). lia.
Qed.

Lemma new_location_spec B rr :
  0 < B -> 0 <= rr < B ->
  match new_location B rr with
  | loc_Exact => rr = 0
  | loc_Inexact Lt => 0 < rr /\ 2 * rr < B
  | loc_Inexact Eq => 2 * rr = B
  | loc_Inexact Gt => 2 * rr > B
  end.
Proof.
  intros HB Hr. unfold new_location, new_location_even, new_location_odd.
  destruct (Z.even B) eqn:Ev; destruct (Z.eqb_spec rr 0) as [|Hne];
    try assumption.
  - destruct (Z.compare_spec (2 * rr) B); lia.
  - assert (Hodd : Z.odd B = true) by (rewrite <- Z.negb_even, Ev; reflexivity).
    apply Z.odd_spec in Hodd. destruct Hodd as [k Hk].
    destruct (Z.compare_spec (2 * rr + 1) B); lia.
Qed.

Lemma shr_1_spec q r s :
  0 < q ->
  shr_1 {| shr_m := q; shr_r := r; shr_s := s |}
  = {| shr_m := q / 2; shr_r := Z.odd q; shr_s := r || s |}.
Proof.
  intros Hq. rewrite <- Z.div2_div.
  destruct q as [|[p|p|]|p]; try lia; reflexivity.
Qed.

Lemma loc_of_shr_record_of_loc m l :
  loc_of_shr_record (shr_record_of_loc m l) = l.
Proof. destruct l as [|[]]; reflexivity. Qed.

Lemma shr_m_record_of_loc m l : shr_m (shr_record_of_loc m l) = m.
Proof. destruct l as [|[]]; reflexivity. Qed.

Lemma fexp_shift d e :
  53 <= d -> -1074 <= e -> fexp prec emax (d + e) - e = d - 53.
Proof. intros Hd He. unfold fexp, emin, prec, emax. lia. Qed.

(** Putting a rounded mantissa back on 53 bits. *)
Lemma renormalize sx M e :
  2 ^ 52 <= M <= 2 ^ 53 -> -1074 <= e -> e + 1 <= 971 ->
  exists m e'',
    (let '(mrs, e2) := shr_fexp prec emax M e loc_Exact in
     match shr_m mrs with
     | Z0 => S754_zero sx
     | Zpos m => if e2 <=? emax - prec then S754_finite sx m e2
                 else S754_infinity sx
     | Zneg _ => S754_nan
     end) = S754_finite sx m e'' /\
    e <= e'' /\ Zpos m * 2 ^ (e'' - e) = M.
Proof.
  intros HM He He'. unfold shr_fexp.
  change (2 ^ 52) with 4503599627370496 in *.
  change (2 ^ 53) with 9007199254740992 in *.
  destruct (Z.eq_dec M 9007199254740992) as [->|Hne].
  - change (Zdigits2 9007199254740992) with 54.
    rewrite (fexp_shift 54 e) by lia.
    change (54 - 53) with 1. cbn. change (emax - prec) with 971.
    destruct (Z.leb_spec (e + 1) 971); [|lia].
    exists 4503599627370496%positive, (e + 1).
    split; [reflexivity|]. split; [lia|].
    replace (e + 1 - e) with 1 by lia. reflexivity.
  - rewrite (Zdigits2_unique M 53)
      by (change (2 ^ (53 - 1)) with 4503599627370496;
          change (2 ^ 53) with 9007199254740992; lia).
    rewrite (fexp_shift 53 e) by lia.
    change (53 - 53) with 0. cbn.
    destruct M as [|m|m]; try lia. change (emax - prec) with 971.
    destruct (Z.leb_spec e 971); [|lia].
    exists m, e. split; [reflexivity|]. split; [lia|].
    rewrite Z.sub_diag. simpl. lia.
Qed.

Lemma round_nearest_even_cases m l :
  round_nearest_even m l = m \/ round_nearest_even m l = m + 1.
Proof.
  destruct l as [|[]]; simpl; auto. destruct (Z.even m); auto.
Qed.

(** Rounding the quotient [A / B], known to have 53 or 54 bits: the result
    is [M * 2^(e + c)] for a nearest integer [M] to [A / (2^c * B)]. *)
Lemma round_quotient sx A B e :
  0 < B -> 2 ^ 52 * B <= A < 2 ^ 54 * B ->
  -1074 <= e -> e + 2 <= 971 ->
  exists m e'' M c,
    binary_round_aux prec emax sx (A / B) e (new_location B (A mod B))
    = S754_finite sx m e'' /\
    (c = 0 \/ c = 1) /\
    e + c <= e'' /\
    Zpos m * 2 ^ (e'' - (e + c)) = M /\
    2 * Z.abs (M * (2 ^ c * B) - A) <= 2 ^ c * B.
Proof.
  intros HB HA He He'.
  pose proof (Z.div_mod A B ltac:(lia)) as Hdm.
  pose proof (Z.mod_pos_bound A B HB) as Hmod.
  pose proof (new_location_spec B (A mod B) HB Hmod) as Hloc.
  set (q := A / B) in *. set (rr := A mod B) in *.
  assert (Hq : 2 ^ 52 <= q < 2 ^ 54) by (change (2^52) with 4503599627370496 in *;
    change (2^54) with 18014398509481984 in *; nia).
  unfold binary_round_aux.
  destruct (Z.ltb_spec q (2 ^ 53)) as [Hlt|Hge].
  - (* 53 bits *)
    unfold shr_fexp at 1.
    rewrite (Zdigits2_unique q 53) by lia.
    rewrite (fexp_shift 53 e) by lia. change (53 - 53) with 0. unfold shr.
    rewrite loc_of_shr_record_of_loc, shr_m_record_of_loc.
    set (M := round_nearest_even q (new_location B rr)).
    assert (HM : 2 ^ 52 <= M <= 2 ^ 53)
      by (destruct (round_nearest_even_cases q (new_location B rr));
          fold M in H; lia).
    destruct (renormalize sx M e HM He ltac:(lia)) as (m & e'' & Hr & He'' & Hm).
    exists m, e'', M, 0. split; [exact Hr|]. split; [auto|].
    rewrite Z.add_0_r. split; [exact He''|]. split; [exact Hm|].
    change (2 ^ 0) with 1. rewrite Z.mul_1_l.
    unfold M. destruct (new_location B rr) as [|[]]; simpl.
    + nia.
    + destruct (Z.even q); nia.
    + nia.
    + nia.
  - (* 54 bits *)
    unfold shr_fexp at 1.
    rewrite (Zdigits2_unique q 54) by lia.
    rewrite (fexp_shift 54 e) by lia.
    change (54 - 53) with 1. unfold shr. simpl iter_pos.
    assert (Hrec : shr_record_of_loc q (new_location B rr)
                   = {| shr_m := q;
                        shr_r := shr_r (shr_record_of_loc q (new_location B rr));
                        shr_s := shr_s (shr_record_of_loc q (new_location B rr)) |}).
    { destruct (new_location B rr) as [|[]]; reflexivity. }
    rewrite Hrec, shr_1_spec by lia.
    cbn [shr_m].
    set (l' := loc_of_shr_record _).
    set (F := q / 2).
    set (M := round_nearest_even F l').
    pose proof (Z.div_mod q 2 ltac:(lia)) as Hq2. fold F in Hq2.
    pose proof (Z.mod_pos_bound q 2 ltac:(lia)) as Hb.
    assert (HM : 2 ^ 52 <= M <= 2 ^ 53).
    { destruct (round_nearest_even_cases F l') as [H|H]; fold M in H;
        change (2^52) with 4503599627370496 in *;
        change (2^53) with 9007199254740992 in *;
        change (2^54) with 18014398509481984 in *; lia. }
    destruct (renormalize sx M (e + 1) HM ltac:(lia) ltac:(lia))
      as (m & e'' & Hr & He'' & Hm).
    exists m, e'', M, 1. split; [exact Hr|]. split; [auto|].
    split; [exact He''|]. split; [exact Hm|].
    change (2 ^ 1) with 2.
    assert (Hodd : Z.odd q = negb (q mod 2 =? 0)).
    { rewrite Zmod_odd. destruct (Z.odd q); reflexivity. }
    unfold M, l'. rewrite Hodd.
    destruct (Z.eqb_spec (q mod 2) 0) as [Hb0|Hb1]; simpl negb.
    + destruct (new_location B rr) as [|[]]; simpl; nia.
    + assert (q mod 2 = 1) by lia.
      destruct (new_location B rr) as [|[]]; simpl;
        try destruct (Z.even F); nia.
Qed.

Lemma digits2_pos_le_53 p : Zpos p < 2 ^ 53 -> 1 <= Zpos (digits2_pos p) <= 53.
Proof.
  intros Hp. pose proof (digits2_pos_bounds p) as Hd.
  split; [lia|].
  destruct (Z.leb_spec (Zpos (digits2_pos p)) 53) as [|Hgt]; [assumption|].
  assert (2 ^ 53 <= 2 ^ (Zpos (digits2_pos p) - 1))
    by (apply Z.pow_le_mono_r; lia).
  lia.
Qed.

(** The quotient of two ints below [2^53] in magnitude: the mantissa of the
    result is, up to a power of two, a nearest integer [M] to
    [m1 * 2^g / m2], on a grid fine enough to tell [m1/m2] from the
    integers around it. *)
Lemma SFdiv_small s1 s2 m1 m2 :
  Zpos m1 < 2 ^ 53 -> Zpos m2 < 2 ^ 53 ->
  exists m e'' g M,
    SFdiv prec emax (S754_finite s1 m1 0) (S754_finite s2 m2 0)
    = S754_finite (xorb s1 s2) m e'' /\
    0 <= g /\ - g <= e'' /\
    Zpos m * 2 ^ (e'' + g) = M /\
    2 * Z.abs (M * Zpos m2 - Zpos m1 * 2 ^ g) <= Zpos m2 /\
    Zpos m2 < 2 * 2 ^ g.
Proof.
  intros H1 H2.
  pose proof (digits2_pos_le_53 m1 H1) as Hd1.
  pose proof (digits2_pos_le_53 m2 H2) as Hd2.
  pose proof (digits2_pos_bounds m1) as Hb1.
  pose proof (digits2_pos_bounds m2) as Hb2.
  unfold SFdiv, SFdiv_core_binary. cbn [Zdigits2].
  set (d1 := Zpos (digits2_pos m1)) in *.
  set (d2 := Zpos (digits2_pos m2)) in *.
  rewrite !Z.add_0_r. change (0 - 0) with 0.
  assert (He : Z.min (fexp prec emax (d1 - d2)) 0 = d1 - d2 - 53)
    by (unfold fexp, emin, prec, emax; lia).
  rewrite He. clear He.
  set (s := 53 + d2 - d1).
  replace (0 - (d1 - d2 - 53)) with s by (unfold s; lia).
  replace (d1 - d2 - 53) with (- s) by (unfold s; lia).
  assert (Hs : 1 <= s <= 105) by (unfold s; lia).
  assert (Hm' : match s with
                | 0 => Zpos m1
                | Zpos _ => Z.shiftl (Zpos m1) s
                | Zneg _ => 0
                end = Zpos m1 * 2 ^ s).
  { destruct s; try lia. apply Z.shiftl_mul_pow2. lia. }
  rewrite Hm'. clear Hm'.
  set (A := Zpos m1 * 2 ^ s).
  assert (Hdiv : Z.div_eucl A (Zpos m2) = (A / Zpos m2, A mod Zpos m2)).
  { unfold Z.div, Z.modulo. destruct (Z.div_eucl A (Zpos m2)). reflexivity. }
  rewrite Hdiv. clear Hdiv.
  assert (Hpow1 : 2 ^ (d1 - 1 + s) = 2 ^ (d1 - 1) * 2 ^ s)
    by (apply Z.pow_add_r; lia).
  assert (Hpow2 : 2 ^ (d1 + s) = 2 ^ d1 * 2 ^ s) by (apply Z.pow_add_r; lia).
  assert (Hpow3 : 2 ^ (52 + d2) = 2 ^ 52 * 2 ^ d2) by (apply Z.pow_add_r; lia).
  assert (Hpow4 : 2 ^ (54 + (d2 - 1)) = 2 ^ 54 * 2 ^ (d2 - 1))
    by (apply Z.pow_add_r; lia).
  replace (d1 - 1 + s) with (52 + d2) in Hpow1 by (unfold s; lia).
  replace (d1 + s) with (54 + (d2 - 1)) in Hpow2 by (unfold s; lia).
  assert (H2s : 0 < 2 ^ s) by (apply Z.pow_pos_nonneg; lia).
  assert (HA : 2 ^ 52 * Zpos m2 <= A < 2 ^ 54 * Zpos m2).
  { unfold A. change (2 ^ 52) with 4503599627370496 in *.
    change (2 ^ 54) with 18014398509481984 in *. nia. }
  destruct (round_quotient (xorb s1 s2) A (Zpos m2) (- s)
              ltac:(lia) HA ltac:(lia) ltac:(lia))
    as (m & e'' & M & c & Hr & Hc & He'' & Hm & Hnear).
  exists m, e'', (s - c), M.
  split; [exact Hr|]. split; [lia|]. split; [lia|].
  split; [rewrite <- Hm; f_equal; f_equal; lia|].
  assert (Hsplit : 2 ^ s = 2 ^ c * 2 ^ (s - c)).
  { rewrite <- Z.pow_add_r by lia. f_equal. lia. }
  assert (Hg : 0 < 2 ^ (s - c)) by (apply Z.pow_pos_nonneg; lia).
  assert (Hd2s : 2 ^ d2 <= 2 ^ s) by (apply Z.pow_le_mono_r; unfold s; lia).
  unfold A in Hnear. rewrite Hsplit in Hnear, Hd2s.
  destruct Hc as [-> | ->].
  - change (2 ^ 0) with 1 in *. rewrite !Z.mul_1_l in *.
    split; [exact Hnear | lia].
  - change (2 ^ 1) with 2 in *.
    split; [|lia].
    replace (M * (2 * Zpos m2) - Zpos m1 * (2 * 2 ^ (s - 1)))
      with (2 * (M * Zpos m2 - Zpos m1 * 2 ^ (s - 1))) in Hnear by ring.
    rewrite Z.abs_mul in Hnear. change (Z.abs 2) with 2 in Hnear. lia.
Qed.

Lemma floor_scaled zs e g ms t :
  0 <= g -> - g <= e ->
  zs * 2 ^ (e + g) = ms ->
  t * 2 ^ g <= ms < (t + 1) * 2 ^ g ->
  (if 0 <=? e then zs * 2 ^ e else zs / 2 ^ (- e)) = t.
Proof.
  intros Hg He Hms Ht.
  assert (HG : 0 < 2 ^ g) by (apply Z.pow_pos_nonneg; lia).
  destruct (Z.leb_spec 0 e) as [Hpos|Hneg].
  - rewrite Z.pow_add_r in Hms by lia.
    assert (0 < 2 ^ e) by (apply Z.pow_pos_nonneg; lia). nia.
  - set (h := - e) in *.
    assert (HH : 0 < 2 ^ h) by (apply Z.pow_pos_nonneg; lia).
    assert (HP : 0 < 2 ^ (g - h)) by (apply Z.pow_pos_nonneg; lia).
    assert (Hsplit : 2 ^ g = 2 ^ h * 2 ^ (g - h)).
    { rewrite <- Z.pow_add_r by lia. f_equal. lia. }
    replace (e + g) with (g - h) in Hms by lia.
    pose proof (Z.div_mod zs (2 ^ h) ltac:(lia)) as Hdm.
    pose proof (Z.mod_pos_bound zs (2 ^ h) HH) as Hmod.
    set (f := zs / 2 ^ h) in *. set (rho := zs mod 2 ^ h) in *.
    rewrite Hsplit in Ht. nia.
Qed.

(** Between multiples: a nearest integer to [x * G / w] on a grid with
    [w < 2 * G] lies in the same unit interval of [G] as [x/w]. *)
Lemma nearest_same_floor x w G ms :
  0 < w -> 0 < G -> w < 2 * G ->
  2 * Z.abs (ms * w - x * G) <= w ->
  (x / w) * G <= ms < (x / w + 1) * G.
Proof.
  intros Hw HG HwG Hnear.
  pose proof (Z.div_mod x w ltac:(lia)) as Hdm.
  pose proof (Z.mod_pos_bound x w Hw) as Hmod.
  set (t := x / w) in *. set (d := x mod w) in *.
  set (u := ms - t * G).
  assert (Hu : ms * w - x * G = u * w - d * G) by (unfold u; nia).
  rewrite Hu in Hnear.
  assert (0 <= u < G); [|unfold u in *; lia].
  destruct (Z.eq_dec d 0) as [Hd0|Hd1].
  - rewrite Hd0 in Hnear. nia.
  - assert (1 <= d <= w - 1) by lia. nia.
Qed.

(** For ints below [2^53] in magnitude, the float quotient floors to the
    exact floor quotient. *)
Lemma int_truediv_floor x w :
  0 < w < 2 ^ 53 -> - 2 ^ 53 < x < 2 ^ 53 ->
  exists q, int_truediv x w = Ok q /\ math_floor q = Ok (x / w).
Proof.
  intros Hw Hx. unfold int_truediv.
  destruct (Z.eqb_spec w 0) as [|_]; [lia|].
  destruct w as [|m2|m2]; try lia.
  destruct x as [|m1|m1].
  - eexists. split; [reflexivity|]. reflexivity.
  - change (Z.to_pos (Z.abs (Zpos m1))) with m1.
    change (Z.to_pos (Z.abs (Zpos m2))) with m2.
    change (Zpos m1 <? 0) with false. change (Zpos m2 <? 0) with false.
    destruct (SFdiv_small false false m1 m2 ltac:(lia) ltac:(lia))
      as (m & e'' & g & M & -> & Hg & He & HM & Hnear & Hfine).
    eexists. split; [reflexivity|]. cbn [math_floor signed xorb]. f_equal.
    assert (HG : 0 < 2 ^ g) by (apply Z.pow_pos_nonneg; lia).
    apply (floor_scaled (Zpos m) e'' g M); try assumption.
    apply nearest_same_floor; try assumption; lia.
  - change (Z.to_pos (Z.abs (Zneg m1))) with m1.
    change (Z.to_pos (Z.abs (Zpos m2))) with m2.
    change (Zneg m1 <? 0) with true. change (Zpos m2 <? 0) with false.
    destruct (SFdiv_small true false m1 m2 ltac:(lia) ltac:(lia))
      as (m & e'' & g & M & -> & Hg & He & HM & Hnear & Hfine).
    eexists. split; [reflexivity|]. cbn [math_floor signed xorb]. f_equal.
    assert (HG : 0 < 2 ^ g) by (apply Z.pow_pos_nonneg; lia).
    apply (floor_scaled (Zneg m) e'' g (- M)); try assumption.
    + rewrite <- HM, <- Pos2Z.opp_pos. ring.
    + apply nearest_same_floor; try assumption; [lia|].
      rewrite <- Pos2Z.opp_pos.
      replace (- M * Zpos m2 - - Zpos m1 * 2 ^ g)
        with (- (M * Zpos m2 - Zpos m1 * 2 ^ g)) by ring.
      rewrite Z.abs_opp. exact Hnear.
Qed.

Lemma normalize_mod value rangeStart rangeEnd :
  rangeStart < rangeEnd -> rangeEnd - rangeStart < 2 ^ 53 ->
  Z.abs (value - rangeStart) < 2 ^ 53 ->
  normalize value rangeStart rangeEnd
  = Ok ((value - rangeStart) mod (rangeEnd - rangeStart) + rangeStart).
Proof.
  intros Hlt Hw Hv. unfold normalize.
  destruct (int_truediv_floor (value - rangeStart) (rangeEnd - rangeStart))
    as (q & -> & ->); [lia | lia |].
  f_equal. rewrite Z.mod_eq by lia. ring.
Qed.

Lemma normalize_large_leaves_range :
  normalize (2 ^ 62 + 256) (-256) 256 = Ok 256 /\
  ~ (-256 <= 256 < 256) /\
  normalize (2 ^ 62 - 256) (-256) 256 = Ok (-256) /\
  normalize (2 ^ 62 - 256) (-256) 256
  <> normalize (2 ^ 62 - 256 + (256 - -256)) (-256) 256.
Proof.
  split; [vm_compute; reflexivity|]. split; [lia|].
  split; [vm_compute; reflexivity|]. vm_compute. discriminate.
Qed.

(** C3, amended. For every int [value] with [|value + 256| < 2^53],
    [normalize(value, -256, 256)] is [(value + 256) mod 512 - 256], a
    result in [[-256, 256)]; and for ints [a < b] with [b - a < 2^53] and
    [value] with [|value - a| < 2^53] and [|value + (b - a) - a| < 2^53],
    [normalize(value, a, b)] and [normalize(value + (b - a), a, b)] are the
    same [(value - a) mod (b - a) + a], the modulo being the floor one also
    for negative values. *)
Theorem normalize_spec :
  (forall value,
      Z.abs (value + 256) < 2 ^ 53 ->
      exists r,
        normalize value (-256) 256 = Ok r /\
        -256 <= r < 256 /\
        r = (value + 256) mod 512 - 256) /\
  (forall value a b,
      a < b -> b - a < 2 ^ 53 ->
      Z.abs (value - a) < 2 ^ 53 ->
      Z.abs (value + (b - a) - a) < 2 ^ 53 ->
      normalize value a b = normalize (value + (b - a)) a b /\
      normalize value a b = Ok ((value - a) mod (b - a) + a) /\
      a <= (value - a) mod (b - a) + a < b).
Proof.
  split.
  - intros value Hv.
    exists ((value + 256) mod 512 - 256).
    rewrite normalize_mod by lia.
    replace (value - -256) with (value + 256) by lia.
    change (256 - -256) with 512.
    pose proof (Z.mod_pos_bound (value + 256) 512 ltac:(lia)).
    split; [f_equal; lia|]. split; [lia | reflexivity].
  - intros value a b Hab Hw Hv Hv'.
    rewrite !normalize_mod by assumption.
    pose proof (Z.mod_pos_bound (value - a) (b - a) ltac:(lia)).
    split; [|split; [reflexivity | lia]].
    f_equal. f_equal.
    replace (value + (b - a) - a) with (value - a + 1 * (b - a)) by ring.
    rewrite Z.mod_add by lia. reflexivity.
Qed.

Lemma normalize_spec_witness :
  normalize (-300) (-256) 256 = Ok 212 /\
  normalize 380 (-180) 180 = normalize (380 + (180 - -180)) (-180) 180 /\
  normalize 380 (-180) 180 = Ok 20.
Proof.
  destruct normalize_spec as [Hrange Hperiod].
  destruct (Hrange (-300)) as (r & Hr & _ & ->); [vm_compute; reflexivity|].
  destruct (Hperiod 380 (-180) 180) as (Hp & Hv & _);
    try (vm_compute; reflexivity).
  split; [exact Hr|]. split; [exact Hp | exact Hv].
Defined.

(** ** Steps and angles *)

Lemma forall_from_spec (P : Z -> bool) len :
  forall lo, forall_from lo len P = true ->
  forall n, lo <= n < lo + Z.of_nat len -> P n = true.
Proof.
  induction len as [|k IH]; intros lo H n Hn.
  - simpl in Hn. lia.
  - simpl in H. apply andb_true_iff in H. destruct H as [H0 Hk].
    destruct (Z.eq_dec n lo) as [->|Hne]; [exact H0|].
    apply (IH (lo + 1) Hk). lia.
Qed.

Lemma res_Z_is_true r n : res_Z_is r n = true -> r = Ok n.
Proof.
  destruct r as [m|e]; simpl; [|discriminate].
  intros H. apply Z.eqb_eq in H. congruence.
Qed.

Lemma round_half_even_pow2_eq num k :
  0 <= k -> round_half_even_pow2 num k = round_half_even num (2 ^ k).
Proof.
  intros Hk. unfold round_half_even_pow2, round_half_even.
  rewrite Z.shiftr_div_pow2, Z.land_ones, Z.shiftl_1_l by exact Hk.
  reflexivity.
Qed.

Lemma py_round_pow2_eq x ndigits : py_round_pow2 x ndigits = py_round x ndigits.
Proof.
  destruct x as [| | |s m e]; try reflexivity.
  unfold py_round_pow2, py_round.
  destruct (Z.leb_spec 0 e) as [|He]; [reflexivity|].
  rewrite round_half_even_pow2_eq by lia. reflexivity.
Qed.

Lemma hw_literals :
  FloatOps.Prim2SF hw_1_42222 = lit_1_42222 /\
  FloatOps.Prim2SF hw_1_4222 = lit_1_4222.
Proof. split; vm_compute; reflexivity. Qed.

Lemma hw_of_int_spec n :
  0 <= n < 2 ^ 63 ->
  FloatOps.Prim2SF (hw_of_int n) = binary_normalize prec emax n 0 false.
Proof.
  intros Hn. unfold hw_of_int.
  rewrite FloatAxioms.of_uint63_spec, Uint63.of_Z_spec.
  rewrite Z.mod_small; [reflexivity|]. exact Hn.
Qed.

Lemma hw_div_spec x y :
  FloatOps.Prim2SF (PrimFloat.div x y)
  = fdiv (FloatOps.Prim2SF x) (FloatOps.Prim2SF y).
Proof. apply FloatAxioms.div_spec. Qed.

Lemma hw_mul_spec x y :
  FloatOps.Prim2SF (PrimFloat.mul x y)
  = fmul (FloatOps.Prim2SF x) (FloatOps.Prim2SF y).
Proof. apply FloatAxioms.mul_spec. Qed.

(** The float of a positive int below [2^53] converts back to it. *)
Lemma int_truediv_1_exact k :
  0 < k < 2 ^ 53 ->
  exists q, int_truediv k 1 = Ok q /\ float_to_int q = Ok k.
Proof.
  intros Hk. unfold int_truediv. simpl (1 =? 0).
  destruct k as [|m1|m1]; try lia.
  change (Z.to_pos (Z.abs (Zpos m1))) with m1.
  change (Z.to_pos (Z.abs 1)) with 1%positive.
  change (Zpos m1 <? 0) with false. change (1 <? 0) with false.
  destruct (SFdiv_small false false m1 1 ltac:(lia) ltac:(simpl; lia))
    as (m & e'' & g & M & -> & Hg & He & HM & Hnear & Hfine).
  eexists. split; [reflexivity|]. cbn [float_to_int signed xorb]. f_equal.
  assert (HG : 0 < 2 ^ g) by (apply Z.pow_pos_nonneg; lia).
  assert (HMk : M = Zpos m1 * 2 ^ g) by lia.
  destruct (Z.leb_spec 0 e'') as [Hpos|Hneg].
  - rewrite Z.pow_add_r in HM by lia. nia.
  - set (h := - e'') in *.
    assert (HH : 0 < 2 ^ h) by (apply Z.pow_pos_nonneg; lia).
    assert (Hsplit : 2 ^ g = 2 ^ h * 2 ^ (g - h)).
    { rewrite <- Z.pow_add_r by lia. f_equal. lia. }
    assert (HP : 0 < 2 ^ (g - h)) by (apply Z.pow_pos_nonneg; lia).
    replace (e'' + g) with (g - h) in HM by lia.
    assert (Hm : Zpos m = Zpos m1 * 2 ^ h) by nia.
    rewrite Hm. apply Z.quot_mul. lia.
Qed.

Lemma rounded_int_sound p k :
  rounded_int p = Some k ->
  match py_round p 0 with
  | Ok r => float_to_int r
  | Err e => Err e
  end = Ok k.
Proof.
  destruct p as [s| | |[] m e]; simpl rounded_int; try discriminate.
  - intros H. inversion H. reflexivity.
  - destruct (Z.ltb_spec e 0) as [He|]; [|discriminate].
    destruct (Z.ltb_spec 0 (round_half_even_pow2 (Zpos m) (- e))) as [Hk0|];
      [|discriminate].
    destruct (Z.ltb_spec (round_half_even_pow2 (Zpos m) (- e))
                9007199254740992) as [Hk1|]; [|discriminate].
    simpl andb. cbv iota. intros H. injection H as <-.
    rewrite round_half_even_pow2_eq in * by lia.
    unfold py_round. change (10 ^ 0) with 1.
    destruct (Z.leb_spec 0 e); [lia|].
    rewrite Z.mul_1_r.
    set (k := round_half_even (Zpos m) (2 ^ (- e))) in *.
    destruct k as [|pk|pk]; try lia.
    destruct (int_truediv_1_exact (Zpos pk)) as (q & -> & Hq);
      [change (2 ^ 53) with 9007199254740992; lia|].
    exact Hq.
Qed.

Lemma steps_of_angle_of_hw_sound n k :
  steps_of_angle_of_hw n = Some k -> steps_of_angle_of n = Ok k.
Proof.
  unfold steps_of_angle_of_hw.
  destruct (Z.leb_spec 0 n) as [Hn0|]; [|discriminate].
  destruct (Z.ltb_spec n 9007199254740992) as [Hn1|]; [|discriminate].
  simpl andb. cbv iota.
  destruct hw_literals as [Hc2 Hc1].
  rewrite hw_div_spec, Hc2, hw_of_int_spec, py_round_pow2_eq
    by (change (2 ^ 63) with 9223372036854775808; lia).
  unfold steps_of_angle_of, to_angle, int_to_float.
  destruct (binary_normalize prec emax n 0 false) as [s|s| |s m e] eqn:Ef.
  - destruct (py_round _ 1) as [a|]; [|discriminate].
    destruct (valid_binary prec emax a) eqn:Hv; [|discriminate].
    rewrite hw_mul_spec, Hc1, FloatAxioms.Prim2SF_SF2Prim by exact Hv.
    intros H. unfold num_steps_required. apply rounded_int_sound, H.
  - unfold lit_1_42222. cbn. destruct s; discriminate.
  - destruct (py_round _ 1) as [a|]; [|discriminate].
    destruct (valid_binary prec emax a) eqn:Hv; [|discriminate].
    rewrite hw_mul_spec, Hc1, FloatAxioms.Prim2SF_SF2Prim by exact Hv.
    intros H. unfold num_steps_required. apply rounded_int_sound, H.
  - destruct (py_round _ 1) as [a|]; [|discriminate].
    destruct (valid_binary prec emax a) eqn:Hv; [|discriminate].
    rewrite hw_mul_spec, Hc1, FloatAxioms.Prim2SF_SF2Prim by exact Hv.
    intros H. unfold num_steps_required. apply rounded_int_sound, H.
Qed.

Lemma option_Z_is_true o n : option_Z_is o n = true -> o = Some n.
Proof.
  destruct o as [m|]; simpl; [|discriminate].
  intros H. apply Z.eqb_eq in H. congruence.
Qed.

Lemma steps_of_angle_of_small :
  forall n, 0 <= n <= 30596 -> steps_of_angle_of n = Ok n.
Proof.
  intros n Hn. apply steps_of_angle_of_hw_sound, option_Z_is_true.
  apply (forall_from_spec (fun n => option_Z_is (steps_of_angle_of_hw n) n)
           (Z.to_nat 30597) 0); [|lia].
  vm_cast_no_check (eq_refl true).
Qed.

Lemma steps_of_degrees_nearest :
  forall d, -360 <= d <= 360 ->
            steps_of_degrees d = Ok (round_half_even (14222 * d) 10000).
Proof.
  intros d Hd. apply res_Z_is_true.
  apply (forall_from_spec
           (fun d => res_Z_is (steps_of_degrees d)
                       (round_half_even (14222 * d) 10000))
           (Z.to_nat 721) (-360)); [|lia].
  vm_cast_no_check (eq_refl true).
Qed.

Lemma steps_of_angle_of_drifts :
  steps_of_angle_of 30597 = Ok 30596 /\
  steps_of_angle_of 30597 <> Ok 30597 /\
  steps_of_angle_of 1000000 = Ok 999986.
Proof. vm_compute. repeat split; discriminate. Qed.

(** C9, amended. [num_steps_required(angle)] is
    [int(round(1.4222*angle, 0))], the integer nearest to 1.4222 times the
    angle for every whole number of degrees from -360 to 360; and for every
    [n] from 0 to 30596, [num_steps_required(to_angle(n))] is [n]. *)
Theorem num_steps_required_spec :
  (forall angle,
      num_steps_required angle
      = match py_round (fmul lit_1_4222 angle) 0 with
        | Ok r => float_to_int r
        | Err e => Err e
        end) /\
  (forall d, -360 <= d <= 360 ->
             steps_of_degrees d = Ok (round_half_even (14222 * d) 10000)) /\
  (forall n a, to_angle n = Ok a ->
               steps_of_angle_of n = num_steps_required a) /\
  (forall n, 0 <= n <= 30596 -> steps_of_angle_of n = Ok n).
Proof.
  split; [|split; [|split]].
  - intros angle. unfold num_steps_required.
    destruct (py_round (fmul lit_1_4222 angle) 0); reflexivity.
  - exact steps_of_degrees_nearest.
  - intros n a H. unfold steps_of_angle_of. rewrite H. reflexivity.
  - exact steps_of_angle_of_small.
Qed.

Lemma num_steps_required_spec_witness :
  steps_of_degrees 90 = Ok 128 /\
  to_angle 200 = Ok (literal 1406 1) /\
  num_steps_required (literal 1406 1) = Ok 200 /\
  steps_of_angle_of 30596 = Ok 30596.
Proof.
  destruct num_steps_required_spec as (_ & Hdeg & Hvia & Hsmall).
  assert (Ha : to_angle 200 = Ok (literal 1406 1)) by (vm_compute; reflexivity).
  split; [|split; [|split]].
  - rewrite (Hdeg 90) by lia. reflexivity.
  - exact Ha.
  - rewrite <- (Hvia 200 _ Ha). apply Hsmall. lia.
  - apply Hsmall. lia.
Defined.

(** * Properties of more of the sources *)

(** ** The lines of the LEDs *)

Lemma reads_high_driven p v w q :
  reads_high (driven p v w) q = if bool_decide (q = p) then v else reads_high w q.
Proof.
  unfold reads_high, driven. simpl. case_bool_decide as H.
  - subst q. rewrite lookup_insert_eq. reflexivity.
  - rewrite lookup_insert_ne by congruence. reflexivity.
Qed.

Lemma LED_on_run l w :
  LED_on l w
  = (Ret tt, if reads_high w (LED.pin l) then w else driven (LED.pin l) true w).
Proof.
  unfold LED_on, LED_is_on, bind, GPIO.input. fold (reads_high w (LED.pin l)).
  destruct (reads_high w (LED.pin l)); reflexivity.
Qed.

Lemma LED_off_run l w :
  LED_off l w
  = (Ret tt, if reads_high w (LED.pin l) then driven (LED.pin l) false w else w).
Proof.
  unfold LED_off, LED_is_on, bind, GPIO.input. fold (reads_high w (LED.pin l)).
  destruct (reads_high w (LED.pin l)); reflexivity.
Qed.

(** X1. [LED.on()] and [LED.off()] always return; afterwards [is_on]
    reads true, respectively false; they write nothing when the LED is
    already in that state, so a second call changes nothing at all; they
    do write when the LED was in the other state; and they leave every
    other line, and the driver object, as they were. *)
Theorem LED_switching (l : LED.t) (w : World) :
  let lit := snd (LED_on l w) in
  let dark := snd (LED_off l w) in
  (fst (LED_on l w) = Ret tt /\ fst (LED_off l w) = Ret tt) /\
  (LED_is_on l lit = (Ret true, lit) /\ LED_is_on l dark = (Ret false, dark)) /\
  (reads_high w (LED.pin l) = true -> lit = w) /\
  (reads_high w (LED.pin l) = false -> dark = w) /\
  (LED_on l lit = (Ret tt, lit) /\ LED_off l dark = (Ret tt, dark)) /\
  (snd (LED_off l lit) = driven (LED.pin l) false lit /\
   snd (LED_on l dark) = driven (LED.pin l) true dark) /\
  (forall q, q <> LED.pin l ->
             reads_high lit q = reads_high w q /\
             reads_high dark q = reads_high w q) /\
  (self lit = self w /\ self dark = self w).
Proof.
  intros lit dark.
  assert (Elit : lit = if reads_high w (LED.pin l) then w
                       else driven (LED.pin l) true w)
    by (unfold lit; rewrite LED_on_run; reflexivity).
  assert (Edark : dark = if reads_high w (LED.pin l)
                         then driven (LED.pin l) false w else w)
    by (unfold dark; rewrite LED_off_run; reflexivity).
  assert (Hon : reads_high lit (LED.pin l) = true).
  { rewrite Elit. destruct (reads_high w (LED.pin l)) eqn:E; [exact E|].
    rewrite reads_high_driven, bool_decide_eq_true_2; reflexivity. }
  assert (Hoff : reads_high dark (LED.pin l) = false).
  { rewrite Edark. destruct (reads_high w (LED.pin l)) eqn:E; [|exact E].
    rewrite reads_high_driven, bool_decide_eq_true_2; reflexivity. }
  clearbody lit dark.
  rewrite !LED_on_run, !LED_off_run, Hon, Hoff. simpl.
  split; [split; reflexivity|].
  split; [unfold LED_is_on, GPIO.input;
          fold (reads_high lit (LED.pin l)); fold (reads_high dark (LED.pin l));
          rewrite Hon, Hoff; split; reflexivity|].
  split; [intros H; rewrite Elit, H; reflexivity|].
  split; [intros H; rewrite Edark, H; reflexivity|].
  split; [split; reflexivity|].
  split; [split; reflexivity|].
  split.
  - intros q Hq. rewrite Elit, Edark.
    destruct (reads_high w (LED.pin l)); rewrite ?reads_high_driven,
      ?bool_decide_eq_false_2 by exact Hq; split; reflexivity.
  - rewrite Elit, Edark. destruct (reads_high w (LED.pin l)); split; reflexivity.
Qed.

Lemma LED_switching_witness :
  snd (LED_on {| LED.pin := 5 |} bench) = bench /\
  snd (LED_off {| LED.pin := 6 |} bench) = bench.
Proof.
  destruct (LED_switching {| LED.pin := 5 |} bench)
    as (_ & _ & Hon & _).
  destruct (LED_switching {| LED.pin := 6 |} bench)
    as (_ & _ & _ & Hoff & _).
  split; [apply Hon | apply Hoff]; reflexivity.
Defined.

Lemma LED_init_run pin w :
  LED_init pin w
  = (Ret {| LED.pin := pin |},
     if reads_high w pin then driven pin false (logged (EvSetup pin) w)
     else logged (EvSetup pin) w).
Proof.
  unfold LED_init. unfold bind at 1. unfold GPIO.setup, emit.
  fold (logged (EvSetup pin) w).
  unfold bind at 1. rewrite LED_off_run. cbn [LED.pin].
  change (reads_high (logged (EvSetup pin) w) pin) with (reads_high w pin).
  destruct (reads_high w pin); reflexivity.
Qed.

(** X2. [LED(pin)] sets the pin up and leaves the LED off, whatever the
    level of the line was: the new LED reads off, the line is written low
    only if it read high, and the driver object and every other line are
    as before. *)
Theorem LED_init_off (pin : Z) (w : World) :
  exists l w',
    LED_init pin w = (Ret l, w') /\
    LED.pin l = pin /\
    LED_is_on l w' = (Ret false, w') /\
    self w' = self w /\
    (forall q, q <> pin -> reads_high w' q = reads_high w q) /\
    (reads_high w pin = false -> w' = logged (EvSetup pin) w) /\
    (reads_high w pin = true ->
     w' = driven pin false (logged (EvSetup pin) w)).
Proof.
  rewrite LED_init_run. eexists _, _. split; [reflexivity|].
  split; [reflexivity|].
  destruct (reads_high w pin) eqn:E; cbn [LED.pin].
  - split.
    { unfold LED_is_on, GPIO.input. cbn [LED.pin].
      fold (reads_high (driven pin false (logged (EvSetup pin) w)) pin).
      rewrite reads_high_driven, bool_decide_eq_true_2 by reflexivity.
      reflexivity. }
    split; [reflexivity|]. split.
    { intros q Hq. rewrite reads_high_driven, bool_decide_eq_false_2 by exact Hq.
      reflexivity. }
    split; [discriminate | reflexivity].
  - split.
    { unfold LED_is_on, GPIO.input. cbn [LED.pin].
      fold (reads_high (logged (EvSetup pin) w) pin).
      change (reads_high (logged (EvSetup pin) w) pin) with (reads_high w pin).
      rewrite E. reflexivity. }
    split; [reflexivity|]. split; [reflexivity|].
    split; [reflexivity | discriminate].
Qed.

Lemma LED_init_off_witness :
  exists l w',
    LED_init 5 bench = (Ret l, w') /\ LED_is_on l w' = (Ret false, w') /\
    w' = driven 5 false (logged (EvSetup 5) bench).
Proof.
  destruct (LED_init_off 5 bench) as (l & w' & H1 & _ & H2 & _ & _ & _ & H3).
  exists l, w'. split; [exact H1|]. split; [exact H2|].
  apply H3. reflexivity.
Defined.

(** ** parse *)

Lemma prefix_app (p s : string) :
  String.prefix p s = true -> exists t, s = String.append p t.
Proof.
  revert s. induction p as [|a p IH]; intros s H.
  - exists s. reflexivity.
  - destruct s as [|b s]; simpl in H; [discriminate|].
    destruct (Ascii.ascii_dec a b) as [->|]; [|discriminate].
    destruct (IH s H) as [t ->]. exists t. reflexivity.
Qed.

Lemma prefix_empty (s : string) : String.prefix EmptyString s = true.
Proof. destruct s; reflexivity. Qed.

(** Passing the rest of an occurrence of the separator. *)
Lemma split_from_skip sep (pre s : string) :
  split_from sep (String.length pre) (String.append pre s) = split_from sep 0 s.
Proof.
  induction pre as [|a pre IH]; simpl; [|exact IH].
  destruct s; reflexivity.
Qed.

Lemma join_cons_char sep c f r :
  join_with sep (String c f :: r) = String c (join_with sep (f :: r)).
Proof. destruct r; reflexivity. Qed.

Lemma join_empty_first sep f r :
  join_with sep (EmptyString :: f :: r) = String.append sep (join_with sep (f :: r)).
Proof. reflexivity. Qed.

Lemma string_length_app (a b : string) :
  String.length (String.append a b) = (String.length a + String.length b)%nat.
Proof. induction a; simpl; [reflexivity | rewrite IHa; reflexivity]. Qed.

(** The fields of a text, joined by the separator, are the text. *)
Lemma join_split_from sep :
  sep <> EmptyString ->
  forall (n : nat) (s : string),
    (String.length s <= n)%nat ->
    join_with sep (fst (split_from sep 0 s) :: snd (split_from sep 0 s)) = s.
Proof.
  intros Hsep. induction n as [|n IH]; intros s Hn.
  - destruct s; [reflexivity | simpl in Hn; lia].
  - destruct s as [|c s']; [reflexivity|].
    cbn [split_from].
    destruct (String.prefix sep (String c s')) eqn:Ep.
    + destruct (prefix_app _ _ Ep) as [t Ht].
      destruct sep as [|c0 sep']; [contradiction|].
      simpl in Ht. injection Ht as -> ->.
      cbn [String.length]. rewrite Nat.sub_succ, Nat.sub_0_r.
      rewrite split_from_skip.
      destruct (split_from (String c0 sep') 0 t) as [f r] eqn:Et.
      cbn [fst snd]. rewrite join_empty_first.
      specialize (IH t). rewrite Et in IH. cbn [fst snd] in IH.
      rewrite IH; [reflexivity|].
      simpl in Hn. rewrite string_length_app in Hn. lia.
    + specialize (IH s'). destruct (split_from sep 0 s') as [f r].
      cbn [fst snd] in *. rewrite join_cons_char, IH; [reflexivity|].
      simpl in Hn. lia.
Qed.

Lemma split_ok data sep :
  sep <> EmptyString ->
  split data sep
  = Ok (fst (split_from sep 0 data) :: snd (split_from sep 0 data)).
Proof.
  intros H. unfold split. destruct (String.eqb_spec sep ""); [contradiction|].
  destruct (split_from sep 0 data); reflexivity.
Qed.

Lemma split_from_join_char c f r :
  contains c f = false -> forallb (fun g => negb (contains c g)) r = true ->
  split_from (String c EmptyString) 0 (join_with (String c EmptyString) (f :: r))
  = (f, r).
Proof.
  revert f. induction r as [|g r IHr]; intros f.
  - intros Hf _. induction f as [|a f IHf]; [reflexivity|].
    simpl in Hf. apply orb_false_iff in Hf. destruct Hf as [Hac Hf].
    cbn [join_with] in *. cbn [split_from String.prefix].
    destruct (Ascii.ascii_dec c a) as [->|_];
      [rewrite Ascii.eqb_refl in Hac; discriminate|].
    rewrite (IHf Hf). reflexivity.
  - intros Hf Hr. cbn [forallb] in Hr. apply andb_true_iff in Hr.
    destruct Hr as [Hg Hr]. apply negb_true_iff in Hg.
    induction f as [|a f IHf].
    + rewrite join_empty_first.
      change (String.append (String c "") (join_with (String c "") (g :: r)))
        with (String c (join_with (String c "") (g :: r))).
      cbn [split_from String.prefix].
      destruct (Ascii.ascii_dec c c) as [_|]; [|contradiction].
      cbn [String.length Nat.sub]. rewrite prefix_empty, (IHr g Hg Hr).
      reflexivity.
    + simpl in Hf. apply orb_false_iff in Hf. destruct Hf as [Hac Hf].
      rewrite join_cons_char. cbn [split_from String.prefix].
      destruct (Ascii.ascii_dec c a) as [->|_];
        [rewrite Ascii.eqb_refl in Hac; discriminate|].
      rewrite (IHf Hf). reflexivity.
Qed.

Section ParseFacts.
Context {V : Type}.
Implicit Types (types : list (string -> res V)) (fields : list string).

Lemma cast_fields_some types fields : forall i vs,
  cast_fields types i fields = Some vs <->
  List.length vs = List.length fields /\
  forall j f, fields !! j = Some f ->
              exists type v, types !! (i + j)%nat = Some type /\
                             type f = Ok v /\ vs !! j = Some v.
Proof.
  induction fields as [|f fs IH]; intros i vs; cbn [cast_fields].
  - split.
    + intros H. injection H as <-. split; [reflexivity|]. intros j g Hj.
      destruct j; discriminate.
    + intros [Hl _]. destruct vs; [reflexivity | discriminate].
  - split.
    + intros H. destruct (types !! i) as [type|] eqn:Et; [|discriminate].
      destruct (type f) as [v|] eqn:Ev; [|discriminate].
      destruct (cast_fields types (S i) fs) as [vs'|] eqn:Ec; [|discriminate].
      injection H as <-. apply IH in Ec. destruct Ec as [Hl Hall].
      split; [simpl; congruence|]. intros [|j] g Hj.
      * injection Hj as <-. exists type, v. rewrite Nat.add_0_r. auto.
      * destruct (Hall j g Hj) as (ty & u & H1 & H2 & H3).
        exists ty, u. rewrite Nat.add_succ_r. auto.
    + intros [Hl Hall]. destruct vs as [|v vs']; [discriminate|].
      destruct (Hall 0%nat f eq_refl) as (type & u & H1 & H2 & H3).
      rewrite Nat.add_0_r in H1. rewrite H1, H2. injection H3 as ->.
      assert (Hc : cast_fields types (S i) fs = Some vs').
      { apply IH. split; [simpl in Hl; congruence|]. intros j g Hj.
        destruct (Hall (S j) g Hj) as (ty & w & K1 & K2 & K3).
        exists ty, w. rewrite Nat.add_succ_r in K1. auto. }
      rewrite Hc. reflexivity.
Qed.

Lemma cast_fields_none types fields : forall i,
  cast_fields types i fields = None <->
  exists j f, fields !! j = Some f /\
              match types !! (i + j)%nat with
              | None => True
              | Some type => exists e, type f = Err e
              end.
Proof.
  induction fields as [|f fs IH]; intros i; cbn [cast_fields].
  - split; [discriminate|]. intros (j & g & Hj & _). destruct j; discriminate.
  - split.
    + intros H. destruct (types !! i) as [type|] eqn:Et.
      * destruct (type f) as [v|e] eqn:Ev.
        -- destruct (cast_fields types (S i) fs) eqn:Ec; [discriminate|].
           apply IH in Ec. destruct Ec as (j & g & Hj & Hbad).
           exists (S j), g. rewrite Nat.add_succ_r. auto.
        -- exists 0%nat, f. rewrite Nat.add_0_r, Et. split; [reflexivity|].
           exists e. exact Ev.
      * exists 0%nat, f. rewrite Nat.add_0_r, Et. auto.
    + intros (j & g & Hj & Hbad).
      destruct (types !! i) as [type|] eqn:Et; [|reflexivity].
      destruct (type f) as [v|e] eqn:Ev; [|reflexivity].
      destruct (cast_fields types (S i) fs) eqn:Ec; [|reflexivity].
      exfalso. destruct j as [|j].
      * injection Hj as <-. rewrite Nat.add_0_r, Et in Hbad.
        destruct Hbad as [e He]. congruence.
      * assert (Hn : cast_fields types (S i) fs = None).
        { apply IH. exists j, g. rewrite Nat.add_succ_r in Hbad. auto. }
        congruence.
Qed.

End ParseFacts.

Lemma cast_fields_str (k : nat) (fields : list string) :
  (List.length fields <= k)%nat ->
  cast_fields (replicate k str) 0 fields = Some fields.
Proof.
  intros Hk. apply cast_fields_some. split; [reflexivity|].
  intros j f Hj. exists str, f. simpl.
  split; [|split; [reflexivity | exact Hj]].
  apply lookup_replicate_2. apply lookup_lt_Some in Hj. lia.
Qed.

Lemma cast_fields_str_inv (k : nat) (fields vs : list string) :
  cast_fields (replicate k str) 0 fields = Some vs -> vs = fields.
Proof.
  intros H. apply cast_fields_some in H. destruct H as [Hl Hall].
  apply (list_eq_same_length vs fields (List.length fields));
    [reflexivity | exact Hl |].
  intros j v f _ Hv Hf. destruct (Hall j f Hf) as (type & u & Ht & Hu & Hvu).
  simpl in Ht. apply lookup_replicate_1 in Ht. destruct Ht as [-> _].
  unfold str in Hu. congruence.
Qed.

(** X3. [parse] with a non-empty delimiter never raises.  It returns the
    list of the cast fields exactly when there are at most as many fields
    as types and every cast returns, and [None] exactly when some field has
    no type or its cast raises; the fields, joined by the delimiter, are the
    data.  With an empty delimiter, [ValueError] escapes. *)
Theorem parse_spec {V : Type} (data delimiter : string)
  (types : list (string -> res V)) :
  (delimiter = EmptyString -> parse data types delimiter = Err ValueError) /\
  (delimiter <> EmptyString ->
   exists fields,
     split data delimiter = Ok fields /\
     fields <> [] /\
     join_with delimiter fields = data /\
     (forall vs,
         parse data types delimiter = Ok (Some vs) <->
         List.length vs = List.length fields /\
         forall j f, fields !! j = Some f ->
                     exists type v, types !! j = Some type /\
                                    type f = Ok v /\ vs !! j = Some v) /\
     (parse data types delimiter = Ok None <->
      exists j f, fields !! j = Some f /\
                  match types !! j with
                  | None => True
                  | Some type => exists e, type f = Err e
                  end)).
Proof.
  split.
  - intros ->. reflexivity.
  - intros Hd.
    exists (fst (split_from delimiter 0 data) :: snd (split_from delimiter 0 data)).
    unfold parse. rewrite (split_ok _ _ Hd).
    split; [reflexivity|]. split; [discriminate|].
    split; [apply (join_split_from _ Hd (String.length data)); lia|].
    split.
    + intros vs. rewrite <- (cast_fields_some types _ 0%nat vs).
      split; [intros H; injection H as H; exact H | intros ->; reflexivity].
    + rewrite <- (cast_fields_none types _ 0%nat).
      split; [intros H; injection H as H; exact H | intros ->; reflexivity].
Qed.

Lemma parse_spec_witness :
  parse "a,b" [] "" = @Err (option (list string)) ValueError /\
  parse "cw,90" [str; str; str] "," = Ok (Some ["cw"; "90"]%string) /\
  parse "cw,90,50,1" [str; str; str] "," = Ok None.
Proof.
  split; [|split].
  - apply (proj1 (parse_spec "a,b" "" [])). reflexivity.
  - destruct (proj2 (parse_spec "cw,90" "," [str; str; str]))
      as (fields & Hs & _ & _ & Hsome & _); [discriminate|].
    injection Hs as <-. apply Hsome. split; [reflexivity|].
    intros [|[|j]] f Hj; try discriminate; injection Hj as <-;
      eexists str, _; repeat split.
  - destruct (proj2 (parse_spec "cw,90,50,1" "," [str; str; str]))
      as (fields & Hs & _ & _ & _ & Hnone); [discriminate|].
    injection Hs as <-. apply Hnone. exists 3%nat, "1"%string.
    split; [reflexivity | exact I].
Defined.

(** X4. The number of fields against the number of types: with more
    fields than types [parse] returns [None], whatever the fields are; with
    fewer, and casts that return, it returns a list as short as the fields,
    so a missing field goes unnoticed. *)
Theorem parse_field_count {V : Type} (data delimiter : string)
  (types : list (string -> res V)) (fields : list string) :
  split data delimiter = Ok fields ->
  ((List.length types < List.length fields)%nat ->
   parse data types delimiter = Ok None) /\
  (forall vs, parse data types delimiter = Ok (Some vs) ->
              List.length vs = List.length fields /\
              (List.length fields <= List.length types)%nat) /\
  ((List.length fields <= List.length types)%nat ->
   (forall j f type, fields !! j = Some f -> types !! j = Some type ->
                     exists v, type f = Ok v) ->
   exists vs, parse data types delimiter = Ok (Some vs) /\
              List.length vs = List.length fields).
Proof.
  intros Hs. unfold parse. rewrite Hs. split; [|split].
  - intros Hlt. f_equal. apply cast_fields_none.
    destruct (lookup_lt_is_Some_2 fields (List.length types) Hlt) as [f Hf].
    exists (List.length types), f. split; [exact Hf|].
    simpl. rewrite (lookup_ge_None_2 types (List.length types)) by lia. exact I.
  - intros vs H. injection H as H. apply cast_fields_some in H.
    destruct H as [Hl Hall]. split; [exact Hl|].
    destruct fields as [|f0 fs] eqn:Ef; [simpl; lia|]. rewrite <- Ef in *.
    assert (Hlast : is_Some (fields !! (List.length fields - 1)%nat)).
    { apply lookup_lt_is_Some_2. rewrite Ef. simpl. lia. }
    destruct Hlast as [f Hf].
    destruct (Hall _ f Hf) as (type & v & Ht & _). simpl in Ht.
    apply lookup_lt_Some in Ht. lia.
  - intros Hle Hcast.
    destruct (cast_fields types 0 fields) as [vs|] eqn:Ec.
    + exists vs. split; [reflexivity|]. apply cast_fields_some in Ec. apply Ec.
    + exfalso. apply cast_fields_none in Ec.
      destruct Ec as (j & f & Hf & Hbad). simpl in Hbad.
      destruct (types !! j) as [type|] eqn:Et.
      * destruct (Hcast j f type Hf Et) as [v Hv].
        destruct Hbad as [e He]. congruence.
      * apply lookup_lt_Some in Hf. apply lookup_ge_None in Et. lia.
Qed.

Lemma parse_field_count_witness :
  parse "cw,90,50,1" [str; str; str] "," = Ok None /\
  exists vs, parse "h" [str; str; str] "," = Ok (Some vs) /\
             List.length vs = 1%nat.
Proof.
  split.
  - apply (proj1 (parse_field_count "cw,90,50,1" "," [str; str; str]
                    ["cw"; "90"; "50"; "1"]%string eq_refl)).
    simpl. lia.
  - apply (proj2 (proj2 (parse_field_count "h" "," [str; str; str]
                           ["h"%string] eq_refl))).
    + simpl. lia.
    + intros j f type _ Ht. exists f.
      destruct j as [|[|[|j]]]; try discriminate; injection Ht as <-;
        reflexivity.
Defined.

(** X5. With [str] for every type, [parse] is the inverse of joining:
    fields that do not contain the one-character delimiter, joined by it,
    parse back to themselves; and whatever such a [parse] returns, joined by
    the (non-empty) delimiter, is the data. *)
Theorem parse_join_round_trip :
  (forall (c : ascii) (fields : list string) (k : nat),
      fields <> [] ->
      forallb (fun f => negb (contains c f)) fields = true ->
      (List.length fields <= k)%nat ->
      parse (join_with (String c EmptyString) fields) (replicate k str)
        (String c EmptyString) = Ok (Some fields)) /\
  (forall (data delimiter : string) (k : nat) (fields : list string),
      parse data (replicate k str) delimiter = Ok (Some fields) ->
      join_with delimiter fields = data).
Proof.
  split.
  - intros c fields k Hne Hc Hk. destruct fields as [|f r]; [contradiction|].
    cbn [forallb] in Hc. apply andb_true_iff in Hc. destruct Hc as [Hf Hr].
    apply negb_true_iff in Hf.
    unfold parse. rewrite split_ok by discriminate.
    rewrite (split_from_join_char c f r Hf Hr). cbn [fst snd].
    rewrite (cast_fields_str k (f :: r) Hk). reflexivity.
  - intros data delimiter k fields H. unfold parse in H.
    destruct (String.eqb_spec delimiter "") as [->|Hd]; [discriminate|].
    rewrite (split_ok _ _ Hd) in H.
    set (fs := fst (split_from delimiter 0 data)
               :: snd (split_from delimiter 0 data)) in H.
    assert (Hc : cast_fields (replicate k str) 0 fs = Some fields)
      by congruence.
    apply cast_fields_str_inv in Hc. subst fields.
    apply (join_split_from _ Hd (String.length data)). lia.
Qed.

Lemma parse_join_round_trip_witness :
  parse (join_with "," ["cw"; "90"; ""]%string) (replicate 3 str) ","
  = Ok (Some ["cw"; "90"; ""]%string) /\
  join_with "ab" [""; ""; ""]%string = "abab"%string.
Proof.
  destruct parse_join_round_trip as [Hto Hfrom]. split.
  - apply (Hto ","%char ["cw"; "90"; ""]%string 3%nat);
      [discriminate | reflexivity | simpl; lia].
  - apply (Hfrom "abab"%string "ab"%string 3%nat). reflexivity.
Defined.

(** ** Observed runs *)

Section Acts.
Variable w0 : World.

Lemma shows_start : shows w0 w0 (observe w0).
Proof.
  split; [reflexivity|]. split; [reflexivity|].
  exists []. repeat split; reflexivity.
Qed.

Lemma shows_driven p v w ob :
  shows w0 w ob -> shows w0 (driven p v w) (set_line p v ob).
Proof.
  intros (Hs & Hl & new & Hlog & Hre & Hw & Hh & Hlit).
  split; [exact Hs|]. split.
  - intros q. rewrite reads_high_driven. simpl. rewrite Hl. reflexivity.
  - exists (EvOutput p v :: new). simpl. rewrite Hlog.
    split; [reflexivity|]. split; [|repeat split; assumption].
    intros q. rewrite reads_high_driven, Hre. reflexivity.
Qed.

(** A write of the level a line already has is not seen. *)
Lemma shows_set_line_same p v w ob :
  shows w0 w ob -> reads_high w p = v -> shows w0 w (set_line p v ob).
Proof.
  intros (Hs & Hl & Hnew) Hp. split; [exact Hs|]. split; [|exact Hnew].
  intros q. simpl. case_bool_decide as E; [subst q; exact Hp | apply Hl].
Qed.

Lemma shows_logged_print m w ob :
  shows w0 w ob -> shows w0 (logged (EvPrint m) w) ob.
Proof.
  intros (Hs & Hl & new & Hlog & Hre & Hw & Hh & Hlit).
  split; [exact Hs|]. split; [exact Hl|].
  exists (EvPrint m :: new). simpl. rewrite Hlog. repeat split; assumption.
Qed.

Lemma shows_logged_setup p w ob :
  shows w0 w ob -> shows w0 (logged (EvSetup p) w) ob.
Proof.
  intros (Hs & Hl & new & Hlog & Hre & Hw & Hh & Hlit).
  split; [exact Hs|]. split; [exact Hl|].
  exists (EvSetup p :: new). simpl. rewrite Hlog. repeat split; assumption.
Qed.

Lemma shows_logged_sleep d w ob :
  shows w0 w ob -> shows w0 (logged (EvSleep d) w) (add_wait (self w0) d ob).
Proof.
  intros (Hs & Hl & new & Hlog & Hre & Hw & Hh & Hlit).
  split; [exact Hs|]. split; [exact Hl|].
  exists (EvSleep d :: new). simpl. rewrite Hlog, Hw, Hh, Hlit.
  split; [reflexivity|]. split; [exact Hre|]. split; [reflexivity|].
  split; f_equal.
  - unfold coils. rewrite <- !Hre, !Hl. reflexivity.
  - unfold leds, led_level.
    destruct (redLED (self w0)), (blueLED (self w0)), (greenLED (self w0)),
      (orangeLED (self w0)); rewrite <- ?Hre, ?Hl; reflexivity.
Qed.

Lemma acts_ret {A} (a : A) ob : acts w0 (ret a) a ob ob.
Proof. intros w H. exists w. split; [reflexivity | exact H]. Qed.

Lemma acts_bind {A B} (c : M A) (k : A -> M B) a b ob ob1 ob2 :
  acts w0 c a ob ob1 -> acts w0 (k a) b ob1 ob2 -> acts w0 (bind c k) b ob ob2.
Proof.
  intros Hc Hk w H. destruct (Hc w H) as (w1 & E1 & H1).
  destruct (Hk w1 H1) as (w2 & E2 & H2).
  exists w2. unfold bind. rewrite E1. auto.
Qed.

Lemma acts_get_self ob : acts w0 get_self (o_self ob) ob ob.
Proof.
  intros w H. exists w. split; [|exact H].
  unfold get_self. destruct H as [-> _]. reflexivity.
Qed.

Lemma acts_modify_self f ob : acts w0 (modify_self f) tt ob (on_self f ob).
Proof.
  intros w (Hs & Hl & Hnew). eexists. split; [reflexivity|].
  split; [simpl; rewrite Hs; reflexivity|]. split; [exact Hl | exact Hnew].
Qed.

Lemma acts_print m ob : acts w0 (print m) tt ob ob.
Proof.
  intros w H. exists (logged (EvPrint m) w). split; [reflexivity|].
  apply shows_logged_print, H.
Qed.

Lemma acts_setup p ob : acts w0 (GPIO.setup p) tt ob ob.
Proof.
  intros w H. exists (logged (EvSetup p) w). split; [reflexivity|].
  apply shows_logged_setup, H.
Qed.

Lemma acts_output p v ob : acts w0 (GPIO.output p v) tt ob (set_line p v ob).
Proof.
  intros w H. exists (driven p v w). split; [reflexivity|].
  apply shows_driven, H.
Qed.

Lemma acts_sleep d ob :
  is_pinf d = false -> acts w0 (sleep d) tt ob (add_wait (self w0) d ob).
Proof.
  intros Hd w H. exists (logged (EvSleep d) w). split.
  - unfold sleep, logged. destruct d as [|[]| |]; try reflexivity. discriminate.
  - apply shows_logged_sleep, H.
Qed.

Lemma acts_lift {A} (r : res A) a ob : r = Ok a -> acts w0 (lift r) a ob ob.
Proof. intros ->. apply acts_ret. Qed.

Lemma acts_attribute {A} (f : Stepper -> option A) a ob :
  f (o_self ob) = Some a -> acts w0 (attribute f) a ob ob.
Proof.
  intros Hf. unfold attribute. eapply acts_bind; [apply acts_get_self|].
  rewrite Hf. apply acts_ret.
Qed.

Lemma acts_LED_on l ob : acts w0 (LED_on l) tt ob (set_line (LED.pin l) true ob).
Proof.
  intros w H. rewrite LED_on_run. eexists. split; [reflexivity|].
  destruct (reads_high w (LED.pin l)) eqn:E.
  - apply shows_set_line_same; assumption.
  - apply shows_driven, H.
Qed.

Lemma acts_LED_off l ob :
  acts w0 (LED_off l) tt ob (set_line (LED.pin l) false ob).
Proof.
  intros w H. rewrite LED_off_run. eexists. split; [reflexivity|].
  destruct (reads_high w (LED.pin l)) eqn:E.
  - apply shows_driven, H.
  - apply shows_set_line_same; assumption.
Qed.

Lemma acts_set_step a1 a2 b1 b2 ob :
  acts w0 (set_step a1 a2 b1 b2) tt ob (seen_set_step a1 a2 b1 b2 ob).
Proof.
  unfold set_step, seen_set_step.
  eapply acts_bind; [apply acts_get_self|].
  eapply acts_bind; [apply acts_output|].
  eapply acts_bind; [apply acts_output|].
  eapply acts_bind; [apply acts_output|].
  apply acts_output.
Qed.

Lemma acts_phase a1 a2 b1 b2 ob :
  is_pinf (delay (o_self ob)) = false ->
  acts w0 (phase a1 a2 b1 b2) tt ob (seen_phase (self w0) a1 a2 b1 b2 ob).
Proof.
  intros Hd. unfold phase, seen_phase.
  eapply acts_bind; [apply acts_set_step|].
  eapply acts_bind; [apply acts_get_self|].
  apply acts_sleep. exact Hd.
Qed.

Lemma acts_step_cw ob :
  is_pinf (delay (o_self ob)) = false ->
  acts w0 step_cw tt ob (seen_step_cw (self w0) ob).
Proof.
  intros Hd. unfold step_cw, seen_step_cw.
  eapply acts_bind; [apply acts_phase, Hd|].
  eapply acts_bind; [apply acts_phase, Hd|].
  eapply acts_bind; [apply acts_phase, Hd|].
  apply acts_phase, Hd.
Qed.

Lemma acts_step_ccw ob :
  is_pinf (delay (o_self ob)) = false ->
  acts w0 step_ccw tt ob (seen_step_ccw (self w0) ob).
Proof.
  intros Hd. unfold step_ccw, seen_step_ccw.
  eapply acts_bind; [apply acts_phase, Hd|].
  eapply acts_bind; [apply acts_phase, Hd|].
  eapply acts_bind; [apply acts_phase, Hd|].
  apply acts_phase, Hd.
Qed.

Lemma acts_repeat_body (body : M unit) (F : Obs -> Obs) (P : Obs -> Prop) :
  (forall ob, P ob -> acts w0 body tt ob (F ob) /\ P (F ob)) ->
  forall (n : nat) ob, P ob ->
    acts w0 (repeat_body n body) tt ob (Nat.iter n F ob) /\ P (Nat.iter n F ob).
Proof.
  intros Hb. induction n as [|n IH]; intros ob HP.
  - split; [apply acts_ret | exact HP].
  - destruct (Hb ob HP) as [Hact HP'].
    destruct (IH (F ob) HP') as [Hrest HPn].
    rewrite Nat.iter_succ_r. split; [|exact HPn].
    simpl. eapply acts_bind; [exact Hact | exact Hrest].
Qed.

Lemma acts_deactivate r b g o ob :
  redLED (o_self ob) = Some r -> blueLED (o_self ob) = Some b ->
  greenLED (o_self ob) = Some g -> orangeLED (o_self ob) = Some o ->
  acts w0 deactivate tt ob (seen_deactivate r b g o ob).
Proof.
  intros Hr Hb Hg Ho. unfold deactivate, seen_deactivate.
  eapply acts_bind; [apply acts_set_step|].
  eapply acts_bind; [apply acts_attribute; exact Hr|].
  eapply acts_bind; [apply acts_LED_on|].
  eapply acts_bind; [apply acts_attribute; exact Hb|].
  eapply acts_bind; [apply acts_LED_off|].
  eapply acts_bind; [apply acts_attribute; exact Hg|].
  eapply acts_bind; [apply acts_LED_off|].
  eapply acts_bind; [apply acts_attribute; exact Ho|].
  apply acts_LED_off.
Qed.

End Acts.

(** ** What a rotation is seen to do *)

Lemma seen_step_cw_phases s0 ob : seen_step_cw s0 ob = seen_phases s0 phases_cw ob.
Proof. reflexivity. Qed.

Lemma seen_step_ccw_phases s0 ob :
  seen_step_ccw s0 ob = seen_phases s0 phases_ccw ob.
Proof. reflexivity. Qed.

Lemma o_self_seen_phases s0 ps ob : o_self (seen_phases s0 ps ob) = o_self ob.
Proof.
  revert ob. induction ps as [|[[[a1 a2] b1] b2] ps IH]; intros ob;
    [reflexivity|].
  unfold seen_phases in *. simpl. rewrite IH. reflexivity.
Qed.

Lemma o_self_iter s0 ps k ob :
  o_self (Nat.iter k (seen_phases s0 ps) ob) = o_self ob.
Proof.
  induction k as [|k IH]; [reflexivity|].
  rewrite Nat.iter_succ, o_self_seen_phases. exact IH.
Qed.

Lemma replicate_move {A} (n : nat) (x : A) (l : list A) :
  replicate n x ++ x :: l = x :: replicate n x ++ l.
Proof. induction n as [|n IH]; simpl; [reflexivity | rewrite IH; reflexivity]. Qed.

Lemma o_waits_seen_phases s0 ps ob :
  o_waits (seen_phases s0 ps ob)
  = replicate (List.length ps) (delay (o_self ob)) ++ o_waits ob.
Proof.
  revert ob. induction ps as [|[[[a1 a2] b1] b2] ps IH]; intros ob;
    [reflexivity|].
  unfold seen_phases in *. cbn [fold_left]. rewrite IH. simpl.
  apply replicate_move.
Qed.

Lemma o_waits_iter s0 ps k ob :
  o_waits (Nat.iter k (seen_phases s0 ps) ob)
  = replicate (k * List.length ps) (delay (o_self ob)) ++ o_waits ob.
Proof.
  induction k as [|k IH]; [reflexivity|].
  rewrite Nat.iter_succ, o_waits_seen_phases, o_self_iter.
  rewrite IH, app_assoc, <- replicate_add. reflexivity.
Qed.

Lemma coil_pins_distinct s :
  NoDup (coil_pins s) ->
  coilA1Pin s <> coilA2Pin s /\ coilA1Pin s <> coilB1Pin s /\
  coilA1Pin s <> coilB2Pin s /\ coilA2Pin s <> coilB1Pin s /\
  coilA2Pin s <> coilB2Pin s /\ coilB1Pin s <> coilB2Pin s.
Proof.
  unfold coil_pins. intros H.
  repeat (apply NoDup_cons in H as [? H]).
  repeat match goal with
         | K : _ ∉ _ :: _ |- _ => apply not_elem_of_cons in K as [? ?]
         end.
  repeat split; assumption.
Qed.

(** The coil lines right after [set_step], for four different pins. *)
Lemma coils_seen_set_step s0 a1 a2 b1 b2 ob :
  coil_pins (o_self ob) = coil_pins s0 -> NoDup (coil_pins s0) ->
  coils s0 (o_lines (seen_set_step a1 a2 b1 b2 ob)) = (a1, a2, b1, b2).
Proof.
  intros Hp Hnd. apply coil_pins_distinct in Hnd.
  unfold coil_pins in Hp. injection Hp as E1 E2 E3 E4.
  unfold coils, seen_set_step. simpl. rewrite E1, E2, E3, E4.
  repeat f_equal;
    repeat case_bool_decide; try reflexivity; exfalso; intuition congruence.
Qed.

Lemma o_held_seen_phases s0 ps ob :
  coil_pins (o_self ob) = coil_pins s0 -> NoDup (coil_pins s0) ->
  o_held (seen_phases s0 ps ob) = rev ps ++ o_held ob.
Proof.
  intros Hp Hnd. revert ob Hp.
  induction ps as [|[[[a1 a2] b1] b2] ps IH]; intros ob Hp; [reflexivity|].
  unfold seen_phases in *. cbn [fold_left]. rewrite IH by exact Hp.
  cbn [rev]. rewrite <- app_assoc. f_equal.
  unfold seen_phase, add_wait. cbn [o_held].
  rewrite (coils_seen_set_step s0 a1 a2 b1 b2 ob Hp Hnd). reflexivity.
Qed.

Lemma o_held_iter s0 ps k ob :
  coil_pins (o_self ob) = coil_pins s0 -> NoDup (coil_pins s0) ->
  o_held (Nat.iter k (seen_phases s0 ps) ob)
  = concat (replicate k (rev ps)) ++ o_held ob.
Proof.
  intros Hp Hnd. induction k as [|k IH]; [reflexivity|].
  rewrite Nat.iter_succ.
  rewrite o_held_seen_phases by (rewrite ?o_self_iter; assumption).
  rewrite IH. cbn [replicate concat]. rewrite app_assoc. reflexivity.
Qed.

Lemma rev_concat_replicate {A} (k : nat) (l : list A) :
  rev (concat (replicate k (rev l))) = concat (replicate k l).
Proof.
  induction k as [|k IH]; [reflexivity|].
  cbn [replicate concat]. rewrite rev_app_distr, rev_involutive, IH.
  clear IH. induction k as [|k IH]; simpl; [rewrite app_nil_r; reflexivity|].
  rewrite <- app_assoc, <- IH. reflexivity.
Qed.

Section ActsRotate.
Variable w0 : World.

Lemma acts_for_range (body : M unit) (F : Obs -> Obs) (P : Obs -> Prop) n ob :
  (0 < n -> forall ob, P ob -> acts w0 body tt ob (F ob) /\ P (F ob)) ->
  P ob ->
  acts w0 (for_range n body) tt ob (Nat.iter (Z.to_nat n) F ob).
Proof.
  intros Hb HP. unfold for_range. destruct (Z.ltb_spec 0 n) as [Hn|Hn].
  - apply (acts_repeat_body w0 body F P (Hb Hn)), HP.
  - replace (Z.to_nat n) with 0%nat by lia. apply acts_ret.
Qed.

Lemma acts_stepping (cw : bool) n ob :
  (0 < n -> is_pinf (delay (o_self ob)) = false) ->
  acts w0 (for_range n (if cw then step_cw else step_ccw)) tt ob
    (Nat.iter (Z.to_nat n)
       (if cw then seen_step_cw (self w0) else seen_step_ccw (self w0)) ob).
Proof.
  intros Hfin.
  apply (acts_for_range _ _ (fun ob' => is_pinf (delay (o_self ob')) = false \/ n <= 0)).
  - intros Hpos ob' [Hob'|]; [|lia]. split; [|left; destruct cw; exact Hob'].
    destruct cw; [apply acts_step_cw | apply acts_step_ccw]; exact Hob'.
  - destruct (Z.ltb_spec 0 n); [left; apply Hfin; assumption | right; lia].
Qed.

Lemma o_self_stepping (cw : bool) s0 k ob :
  o_self (Nat.iter k (if cw then seen_step_cw s0 else seen_step_ccw s0) ob)
  = o_self ob.
Proof.
  destruct cw;
    [exact (o_self_iter s0 phases_cw k ob) | exact (o_self_iter s0 phases_ccw k ob)].
Qed.

Lemma acts_rotate direction angle steps n shown r b g o ob :
  valid_direction direction = true ->
  chosen_steps angle steps = Ok (Some n) -> n <> 0 ->
  shown_angle angle n = Ok shown ->
  redLED (o_self ob) = Some r -> blueLED (o_self ob) = Some b ->
  greenLED (o_self ob) = Some g -> orangeLED (o_self ob) = Some o ->
  (0 < n -> is_pinf (delay (o_self ob)) = false) ->
  acts w0 (rotate direction angle steps) tt ob
    (seen_rotate (self w0) (String.eqb (lower direction) "cw") n r b g o ob).
Proof.
  intros Hd Hn Hn0 Hshown Hr Hb Hg Ho Hfin.
  unfold rotate, seen_rotate. rewrite Hd. simpl negb. cbv iota.
  eapply acts_bind; [apply acts_lift, Hn|]. cbv beta iota.
  destruct (Z.eqb_spec n 0) as [|_]; [contradiction|].
  eapply acts_bind; [apply acts_lift, Hshown|].
  eapply acts_bind; [apply acts_attribute, Hr|].
  eapply acts_bind; [apply acts_LED_off|].
  destruct (String.eqb (lower direction) "cw") eqn:Ecw.
  - eapply acts_bind;
      [|apply acts_deactivate; rewrite (o_self_stepping true); assumption].
    eapply acts_bind; [apply acts_attribute, Hb|].
    eapply acts_bind; [apply acts_LED_on|].
    eapply acts_bind; [apply acts_attribute, Hg|].
    eapply acts_bind; [apply acts_LED_on|].
    eapply acts_bind; [apply acts_modify_self|].
    eapply acts_bind; [apply acts_print|].
    apply (acts_stepping true). exact Hfin.
  - apply valid_direction_cases in Hd. destruct Hd as [Hd|Hd];
      [apply String.eqb_eq in Hd; congruence|].
    rewrite Hd. simpl String.eqb. cbv iota.
    eapply acts_bind;
      [|apply acts_deactivate; rewrite (o_self_stepping false); assumption].
    eapply acts_bind; [apply acts_attribute, Hg|].
    eapply acts_bind; [apply acts_LED_on|].
    eapply acts_bind; [apply acts_attribute, Ho|].
    eapply acts_bind; [apply acts_LED_on|].
    eapply acts_bind; [apply acts_modify_self|].
    eapply acts_bind; [apply acts_print|].
    apply (acts_stepping false). exact Hfin.
Qed.
End ActsRotate.

(** A valid call of [rotate], from the start of the observation. *)
Lemma rotate_seen direction angle steps n shown r b g o (w : World) :
  valid_direction direction = true ->
  chosen_steps angle steps = Ok (Some n) -> n <> 0 ->
  shown_angle angle n = Ok shown ->
  redLED (self w) = Some r -> blueLED (self w) = Some b ->
  greenLED (self w) = Some g -> orangeLED (self w) = Some o ->
  (0 < n -> is_pinf (delay (self w)) = false) ->
  exists w',
    rotate direction angle steps w = (Ret tt, w') /\
    shows w w'
      (seen_rotate (self w) (String.eqb (lower direction) "cw") n r b g o
         (observe w)).
Proof.
  intros Hd Hn Hn0 Hshown Hr Hb Hg Ho Hfin.
  apply (acts_rotate w direction angle steps n shown r b g o (observe w));
    try assumption.
  apply shows_start.
Qed.

Lemma o_self_seen_rotate s0 cw n r b g o ob :
  o_self (seen_rotate s0 cw n r b g o ob)
  = move_counters (if cw then - n else n) (o_self ob).
Proof.
  unfold seen_rotate, seen_deactivate. cbn [o_self set_line seen_set_step].
  rewrite o_self_stepping. destruct cw; reflexivity.
Qed.

Lemma o_waits_seen_rotate s0 cw n r b g o ob :
  o_waits (seen_rotate s0 cw n r b g o ob)
  = replicate (Z.to_nat n * 4) (delay (o_self ob)) ++ o_waits ob.
Proof.
  unfold seen_rotate, seen_deactivate. cbn [o_waits set_line seen_set_step].
  destruct cw.
  - rewrite (o_waits_iter s0 phases_cw). reflexivity.
  - rewrite (o_waits_iter s0 phases_ccw). reflexivity.
Qed.

Lemma o_held_seen_rotate s0 cw n r b g o ob :
  coil_pins (o_self ob) = coil_pins s0 -> NoDup (coil_pins s0) ->
  o_held (seen_rotate s0 cw n r b g o ob)
  = concat (replicate (Z.to_nat n) (rev (if cw then phases_cw else phases_ccw)))
    ++ o_held ob.
Proof.
  intros Hp Hnd.
  unfold seen_rotate, seen_deactivate. cbn [o_held set_line seen_set_step].
  destruct cw.
  - rewrite (o_held_iter s0 phases_cw) by assumption. reflexivity.
  - rewrite (o_held_iter s0 phases_ccw) by assumption. reflexivity.
Qed.

(** The lines after [deactivate], when the red LED has a line of its own. *)
Lemma at_rest_seen w0 w' r b g o ob :
  shows w0 w' (seen_deactivate r b g o ob) ->
  redLED (o_self ob) = Some r -> blueLED (o_self ob) = Some b ->
  greenLED (o_self ob) = Some g -> orangeLED (o_self ob) = Some o ->
  red_apart (o_self ob) ->
  at_rest w'.
Proof.
  intros (Hs & Hl & _) Hr Hb Hg Ho Hred.
  specialize (Hred r b g o Hr Hb Hg Ho).
  unfold coil_pins in Hred. simpl in Hred.
  change (o_self (seen_deactivate r b g o ob)) with (o_self ob) in Hs.
  unfold seen_deactivate, seen_set_step in Hl.
  unfold at_rest, idle, LED_reads. rewrite Hs, !Hl.
  cbn [o_lines set_line o_self].
  refine (conj (conj _ (conj _ (conj _ (conj _ _)))) (conj _ (conj _ _))).
  - repeat case_bool_decide; try reflexivity; exfalso; intuition congruence.
  - repeat case_bool_decide; try reflexivity; exfalso; intuition congruence.
  - repeat case_bool_decide; try reflexivity; exfalso; intuition congruence.
  - repeat case_bool_decide; try reflexivity; exfalso; intuition congruence.
  - exists r. split; [exact Hr|]. rewrite Hl. cbn [o_lines set_line o_self].
    repeat case_bool_decide; try reflexivity; exfalso; intuition congruence.
  - exists b. split; [exact Hb|]. rewrite Hl. cbn [o_lines set_line o_self].
    repeat case_bool_decide; try reflexivity; exfalso; intuition congruence.
  - exists g. split; [exact Hg|]. rewrite Hl. cbn [o_lines set_line o_self].
    repeat case_bool_decide; try reflexivity; exfalso; intuition congruence.
  - exists o. split; [exact Ho|]. rewrite Hl. cbn [o_lines set_line o_self].
    repeat case_bool_decide; try reflexivity; exfalso; intuition congruence.
Qed.

Lemma shows_log w0 w' ob :
  shows w0 w' ob ->
  self w' = o_self ob /\
  exists new, log w' = new ++ log w0 /\ waits new = o_waits ob /\
              held (self w0) new (reads_high w0) = o_held ob.
Proof.
  intros (Hs & _ & new & Hlog & _ & Hw & Hh & _). split; [exact Hs|].
  exists new. auto.
Qed.

Lemma shows_lit w0 w' ob :
  shows w0 w' ob ->
  exists new, log w' = new ++ log w0 /\
              lit (self w0) new (reads_high w0) = o_lit ob.
Proof. intros (_ & _ & new & Hlog & _ & _ & _ & Hlit). exists new. auto. Qed.

Lemma red_apart_bench : red_apart (self bench).
Proof.
  intros r b g o Hr Hb Hg Ho. vm_compute in Hr, Hb, Hg, Ho.
  injection Hr as <-. injection Hb as <-. injection Hg as <-.
  injection Ho as <-. vm_compute.
  intros [H|[H|[H|[H|[H|[H|[H|[]]]]]]]]; discriminate.
Qed.

(** X6. On a driver with its LEDs attached, [deactivate] returns without
    a wait and leaves the driver object as it is; when the red LED has a
    line of its own, the four coil lines are then low, the red LED is on and
    the three others are off. *)
Theorem deactivate_rests (w : World) :
  wired (self w) ->
  exists w',
    deactivate w = (Ret tt, w') /\
    self w' = self w /\
    (exists new, log w' = new ++ log w /\ waits new = []) /\
    (red_apart (self w) -> at_rest w').
Proof.
  intros ([r Hr] & [b Hb] & [g Hg] & [o Ho]).
  destruct (acts_deactivate w r b g o (observe w) Hr Hb Hg Ho w (shows_start w))
    as (w' & Hrun & Hshow).
  exists w'. split; [exact Hrun|].
  destruct (shows_log _ _ _ Hshow) as (Hs & new & Hlog & Hw & _).
  split; [exact Hs|]. split; [exists new; auto|].
  intros Hred. apply (at_rest_seen w w' r b g o (observe w)); assumption.
Qed.

Lemma deactivate_rests_witness :
  exists w', deactivate bench_turned = (Ret tt, w') /\ at_rest w'.
Proof.
  destruct (deactivate_rests bench_turned wired_bench)
    as (w' & Hrun & _ & _ & Hrest).
  exists w'. split; [exact Hrun|]. apply Hrest. exact red_apart_bench.
Defined.

(** X7. On a driver with its LEDs attached, a call of [rotate] with a
    valid direction, a nonzero step count and an angle text that is
    computed without an exception returns, provided the delay is not [+inf]
    when the count is positive; when the red LED shares its line with no
    coil and no other LED, the driver is then at rest: coil lines low, red
    LED on, blue, green and orange LEDs off. *)
Theorem rotate_ends_at_rest
  (direction : string) (angle : option float) (steps : option Z) (n : Z)
  (shown : angle_text) (w : World) :
  valid_direction direction = true ->
  chosen_steps angle steps = Ok (Some n) -> n <> 0 ->
  shown_angle angle n = Ok shown ->
  wired (self w) ->
  (0 < n -> is_pinf (delay (self w)) = false) ->
  exists w',
    rotate direction angle steps w = (Ret tt, w') /\
    (red_apart (self w) -> at_rest w').
Proof.
  intros Hd Hn Hn0 Hshown ([r Hr] & [b Hb] & [g Hg] & [o Ho]) Hfin.
  destruct (rotate_seen direction angle steps n shown r b g o w
              Hd Hn Hn0 Hshown Hr Hb Hg Ho Hfin) as (w' & Hrun & Hshow).
  exists w'. split; [exact Hrun|]. intros Hred.
  unfold seen_rotate in Hshow.
  apply (at_rest_seen w w' r b g o _ Hshow);
    rewrite o_self_stepping; destruct (String.eqb (lower direction) "cw");
    assumption.
Qed.

Lemma rotate_ends_at_rest_witness :
  exists w', rotate "ccw" None (Some 2) bench = (Ret tt, w') /\ at_rest w'.
Proof.
  destruct (rotate_ends_at_rest "ccw" None (Some 2) 2
              (AngleApprox (literal 14 1)) bench) as (w' & Hrun & Hrest).
  - reflexivity.
  - reflexivity.
  - discriminate.
  - vm_compute. reflexivity.
  - exact wired_bench.
  - reflexivity.
  - exists w'. split; [exact Hrun|]. apply Hrest. exact red_apart_bench.
Defined.

(** X8. On a driver with its LEDs attached and a delay that is not
    [+inf], a call of [rotate] with a valid direction, a step count
    [n > 0] and an angle text that is computed without an exception makes
    exactly [4 * n] waits, each of [self.delay] seconds, and returns. *)
Theorem rotate_waits
  (direction : string) (angle : option float) (steps : option Z) (n : Z)
  (shown : angle_text) (w : World) :
  valid_direction direction = true ->
  chosen_steps angle steps = Ok (Some n) -> 0 < n ->
  shown_angle angle n = Ok shown ->
  wired (self w) -> is_pinf (delay (self w)) = false ->
  exists w' new,
    rotate direction angle steps w = (Ret tt, w') /\
    log w' = new ++ log w /\
    waits new = replicate (Z.to_nat (4 * n)) (delay (self w)).
Proof.
  intros Hd Hn Hn0 Hshown ([r Hr] & [b Hb] & [g Hg] & [o Ho]) Hfin.
  destruct (rotate_seen direction angle steps n shown r b g o w
              Hd Hn ltac:(lia) Hshown Hr Hb Hg Ho (fun _ => Hfin))
    as (w' & Hrun & Hshow).
  destruct (shows_log _ _ _ Hshow) as (_ & new & Hlog & Hw & _).
  exists w', new. split; [exact Hrun|]. split; [exact Hlog|].
  rewrite Hw, o_waits_seen_rotate. simpl. rewrite app_nil_r.
  f_equal. lia.
Qed.

Lemma rotate_waits_witness :
  exists w' new,
    rotate "cw" (Some (literal 90 0)) None bench = (Ret tt, w') /\
    log w' = new ++ log bench /\
    waits new = replicate 512 lit_0_00195.
Proof.
  apply (rotate_waits "cw" (Some (literal 90 0)) None 128
           (AngleGiven (literal 90 0)) bench).
  - reflexivity.
  - vm_compute. reflexivity.
  - lia.
  - reflexivity.
  - exact wired_bench.
  - reflexivity.
Defined.

(** X9. On a driver with its LEDs attached, a delay that is not [+inf]
    and four different coil pins, a call of [rotate] with a valid
    direction, a step count [n > 0] and an angle text that is computed
    without an exception returns, and during it the coil lines hold, wait
    after wait, [n] times the four phases of the direction, in the order of
    the code; each phase has one end of each coil high and the other low,
    and the counter-clockwise phases are the clockwise ones in reverse
    order. *)
Theorem rotate_holds_full_steps
  (direction : string) (angle : option float) (steps : option Z) (n : Z)
  (shown : angle_text) (w : World) :
  valid_direction direction = true ->
  chosen_steps angle steps = Ok (Some n) -> 0 < n ->
  shown_angle angle n = Ok shown ->
  wired (self w) -> is_pinf (delay (self w)) = false ->
  NoDup (coil_pins (self w)) ->
  exists w' new,
    rotate direction angle steps w = (Ret tt, w') /\
    log w' = new ++ log w /\
    rev (held (self w) new (reads_high w))
    = concat (replicate (Z.to_nat n)
                (if String.eqb (lower direction) "cw" then phases_cw
                 else phases_ccw)) /\
    Forall (fun p => full_step p = true) (held (self w) new (reads_high w)) /\
    phases_ccw = rev phases_cw.
Proof.
  intros Hd Hn Hn0 Hshown ([r Hr] & [b Hb] & [g Hg] & [o Ho]) Hfin Hnd.
  destruct (rotate_seen direction angle steps n shown r b g o w
              Hd Hn ltac:(lia) Hshown Hr Hb Hg Ho (fun _ => Hfin))
    as (w' & Hrun & Hshow).
  destruct (shows_log _ _ _ Hshow) as (_ & new & Hlog & _ & Hh).
  exists w', new. split; [exact Hrun|]. split; [exact Hlog|].
  rewrite Hh, o_held_seen_rotate by (try exact Hnd; reflexivity).
  cbn [observe o_held]. rewrite app_nil_r.
  split; [apply rev_concat_replicate|]. split; [|reflexivity].
  apply Forall_concat, Forall_replicate.
  destruct (String.eqb (lower direction) "cw");
    repeat constructor.
Qed.

Lemma NoDup_coil_pins_bench : NoDup (coil_pins (self bench)).
Proof.
  change (NoDup [4; 17; 23; 24]).
  repeat (apply NoDup_cons; split;
          [rewrite ?not_elem_of_cons; repeat split;
           try discriminate; apply not_elem_of_nil|]).
  apply NoDup_nil. exact I.
Qed.

Lemma rotate_holds_full_steps_witness :
  exists w' new,
    rotate "ccw" None (Some 2) bench = (Ret tt, w') /\
    log w' = new ++ log bench /\
    rev (held (self bench) new (reads_high bench))
    = phases_ccw ++ phases_ccw.
Proof.
  destruct (rotate_holds_full_steps "ccw" None (Some 2) 2
              (AngleApprox (literal 14 1)) bench)
    as (w' & new & Hrun & Hlog & Hheld & _).
  - reflexivity.
  - reflexivity.
  - lia.
  - vm_compute. reflexivity.
  - exact wired_bench.
  - reflexivity.
  - exact NoDup_coil_pins_bench.
  - exists w', new. split; [exact Hrun|]. split; [exact Hlog|].
    rewrite Hheld. reflexivity.
Defined.

(** X10. On a driver with its LEDs attached, a call of [rotate] with a
    valid direction, a negative step count (from a negative angle or a
    negative [steps]) and an angle text that is computed without an
    exception returns without a single wait, whatever the delay; yet both
    counters are moved by it, clockwise up and counter-clockwise down, so
    they no longer tell the position; the driver is left at rest when the
    red LED shares its line with no coil and no other LED. *)
Theorem rotate_negative_steps
  (direction : string) (angle : option float) (steps : option Z) (n : Z)
  (shown : angle_text) (w : World) :
  valid_direction direction = true ->
  chosen_steps angle steps = Ok (Some n) -> n < 0 ->
  shown_angle angle n = Ok shown ->
  wired (self w) ->
  exists w' new,
    rotate direction angle steps w = (Ret tt, w') /\
    log w' = new ++ log w /\ waits new = [] /\
    home w' = home w + signed_steps direction n /\
    default_home w' = default_home w + signed_steps direction n /\
    (red_apart (self w) -> at_rest w').
Proof.
  intros Hd Hn Hn0 Hshown ([r Hr] & [b Hb] & [g Hg] & [o Ho]).
  destruct (rotate_seen direction angle steps n shown r b g o w
              Hd Hn ltac:(lia) Hshown Hr Hb Hg Ho ltac:(lia))
    as (w' & Hrun & Hshow).
  destruct (shows_log _ _ _ Hshow) as (Hs & new & Hlog & Hw & _).
  exists w', new. split; [exact Hrun|]. split; [exact Hlog|].
  rewrite o_self_seen_rotate in Hs.
  split; [|split; [|split]].
  - rewrite Hw, o_waits_seen_rotate.
    replace (Z.to_nat n) with 0%nat by lia. reflexivity.
  - unfold home, signed_steps. rewrite Hs.
    destruct (String.eqb (lower direction) "cw"); reflexivity.
  - unfold default_home, signed_steps. rewrite Hs.
    destruct (String.eqb (lower direction) "cw"); reflexivity.
  - intros Hred. unfold seen_rotate in Hshow.
    apply (at_rest_seen w w' r b g o _ Hshow);
      rewrite o_self_stepping; destruct (String.eqb (lower direction) "cw");
      assumption.
Qed.

Lemma rotate_negative_steps_witness :
  exists w' new,
    rotate "cw" (Some (literal (-90) 0)) None bench = (Ret tt, w') /\
    log w' = new ++ log bench /\ waits new = [] /\
    home w' = 128 /\ default_home w' = 128.
Proof.
  destruct (rotate_negative_steps "cw" (Some (literal (-90) 0)) None (-128)
              (AngleGiven (literal (-90) 0)) bench)
    as (w' & new & Hrun & Hlog & Hw & Hh & Hdh & _).
  - reflexivity.
  - vm_compute. reflexivity.
  - lia.
  - reflexivity.
  - exact wired_bench.
  - exists w', new. repeat split; assumption.
Defined.

(** ** rotate: calls that raise, and arguments that do not count *)

Lemma set_LEDs_run r b g o w :
  exists w',
    set_LEDs r b g o w = (Ret tt, w') /\
    self w' = with_LEDs r b g o (self w) /\
    reads_high w' (LED.pin r) = true.
Proof.
  unfold set_LEDs. unfold bind at 1. unfold modify_self at 1.
  unfold bind at 1. unfold attribute, bind, get_self. simpl.
  rewrite LED_on_run. eexists. split; [reflexivity|].
  destruct (reads_high _ (LED.pin r)) eqn:E.
  - split; [reflexivity | exact E].
  - split; [reflexivity|]. rewrite reads_high_driven, bool_decide_eq_true_2;
      reflexivity.
Qed.

(** X11. Without [set_LEDs] the driver cannot rotate: a call that would
    move (valid direction, nonzero step count, angle text computed without
    an exception) raises [AttributeError] before anything is written or
    counted, the world being as it was; once [set_LEDs] has run, with the
    red LED then lit, the same call returns with both counters moved (the
    delay not being [+inf] when the count is positive). *)
Theorem rotate_needs_LEDs
  (direction : string) (angle : option float) (steps : option Z) (n : Z)
  (shown : angle_text) (w : World) :
  valid_direction direction = true ->
  chosen_steps angle steps = Ok (Some n) -> n <> 0 ->
  shown_angle angle n = Ok shown ->
  redLED (self w) = None ->
  rotate direction angle steps w = (Raise AttributeError, w) /\
  forall r b g o,
    (0 < n -> is_pinf (delay (self w)) = false) ->
    exists w1 w2,
      set_LEDs r b g o w = (Ret tt, w1) /\
      reads_high w1 (LED.pin r) = true /\
      rotate direction angle steps w1 = (Ret tt, w2) /\
      home w2 = home w + signed_steps direction n /\
      default_home w2 = default_home w + signed_steps direction n.
Proof.
  intros Hd Hn Hn0 Hshown Hred.
  split; [apply (rotate_raises_unwired _ _ _ n shown); assumption|].
  intros r b g o Hfin.
  destruct (set_LEDs_run r b g o w) as (w1 & Hrun1 & Hs1 & Hlit).
  destruct (rotate_seen direction angle steps n shown r b g o w1
              Hd Hn Hn0 Hshown) as (w2 & Hrun2 & Hshow);
    try (rewrite Hs1; reflexivity).
  { rewrite Hs1. exact Hfin. }
  exists w1, w2. split; [exact Hrun1|]. split; [exact Hlit|].
  split; [exact Hrun2|].
  destruct (shows_log _ _ _ Hshow) as (Hs2 & _).
  rewrite o_self_seen_rotate in Hs2. cbn [observe o_self] in Hs2.
  unfold home, default_home, signed_steps. rewrite Hs2, Hs1.
  destruct (String.eqb (lower direction) "cw"); split; reflexivity.
Qed.

Lemma rotate_needs_LEDs_witness :
  let w := fresh_world (Stepper_init 18 4 17 23 24) in
  rotate "cw" None (Some 10) w = (Raise AttributeError, w) /\
  exists w1 w2,
    set_LEDs {| LED.pin := 5 |} {| LED.pin := 6 |} {| LED.pin := 13 |}
      {| LED.pin := 19 |} w = (Ret tt, w1) /\
    rotate "cw" None (Some 10) w1 = (Ret tt, w2) /\ home w2 = -10.
Proof.
  intros w.
  destruct (rotate_needs_LEDs "cw" None (Some 10) 10
              (AngleApprox (literal 7 0)) w) as [Hraise Hthen].
  - reflexivity.
  - reflexivity.
  - discriminate.
  - vm_compute. reflexivity.
  - reflexivity.
  - split; [exact Hraise|].
    destruct (Hthen {| LED.pin := 5 |} {| LED.pin := 6 |} {| LED.pin := 13 |}
                {| LED.pin := 19 |}) as (w1 & w2 & H1 & _ & H2 & H3 & _).
    + reflexivity.
    + exists w1, w2. split; [exact H1|]. split; [exact H2|].
      rewrite H3. reflexivity.
Defined.

Lemma rotate_raises_steps direction a steps e w :
  valid_direction direction = true ->
  float_truthy a = true -> num_steps_required a = Err e ->
  rotate direction (Some a) steps w = (Raise e, w).
Proof.
  intros Hd Ha He. unfold rotate. rewrite Hd. cbn [negb].
  unfold bind at 1. unfold chosen_steps. rewrite Ha, He. reflexivity.
Qed.

Lemma rotate_raises_shown direction n e w :
  valid_direction direction = true -> n <> 0 -> to_angle n = Err e ->
  rotate direction None (Some n) w = (Raise e, w).
Proof.
  intros Hd Hn He. unfold rotate. rewrite Hd. cbn [negb].
  unfold bind at 1. unfold chosen_steps, truthy_steps.
  destruct (Z.eqb_spec n 0) as [|_]; [contradiction|]. simpl.
  destruct (Z.eqb_spec n 0) as [|_]; [contradiction|].
  unfold bind at 1. unfold shown_angle. rewrite He. reflexivity.
Qed.

(** X12. For a valid direction, [rotate] raises what the conversion of
    its argument raises, before anything is printed, written or counted:
    [ValueError] for the angle [nan], [OverflowError] for the angles
    [+inf] and [-inf], and [OverflowError] for a step count whose angle
    [to_angle] cannot compute, as [2^1024]. *)
Theorem rotate_raises_on_conversion (direction : string) (w : World) :
  valid_direction direction = true ->
  (forall a steps e,
      float_truthy a = true -> num_steps_required a = Err e ->
      rotate direction (Some a) steps w = (Raise e, w)) /\
  (forall n e,
      n <> 0 -> to_angle n = Err e ->
      rotate direction None (Some n) w = (Raise e, w)) /\
  (forall steps,
      rotate direction (Some S754_nan) steps w = (Raise ValueError, w) /\
      rotate direction (Some (S754_infinity false)) steps w
      = (Raise OverflowError, w) /\
      rotate direction (Some (S754_infinity true)) steps w
      = (Raise OverflowError, w)) /\
  rotate direction None (Some (2 ^ 1024)) w = (Raise OverflowError, w).
Proof.
  intros Hd. split; [|split; [|split]].
  - intros a steps e Ha He. apply rotate_raises_steps; assumption.
  - intros n e Hn He. apply rotate_raises_shown; assumption.
  - intros steps. repeat split; apply rotate_raises_steps;
      try assumption; reflexivity.
  - apply rotate_raises_shown; [assumption | discriminate |].
    vm_compute. reflexivity.
Qed.

Lemma rotate_raises_on_conversion_witness :
  rotate "ccw" (Some S754_nan) (Some 5) bench = (Raise ValueError, bench) /\
  rotate "ccw" None (Some (2 ^ 1024)) bench = (Raise OverflowError, bench).
Proof.
  destruct (rotate_raises_on_conversion "ccw" bench eq_refl)
    as (_ & _ & Hnan & Hbig).
  split; [apply (Hnan (Some 5)) | exact Hbig].
Defined.

Lemma chosen_steps_angle a steps :
  float_truthy a = true ->
  chosen_steps (Some a) steps
  = match num_steps_required a with
    | Ok n => Ok (Some n)
    | Err e => Err e
    end.
Proof. intros Ha. unfold chosen_steps. rewrite Ha. reflexivity. Qed.

(** X13. When [rotate] is given an angle that is not zero, [steps] is
    not looked at: any two values of it give the same run.  So an angle
    that rounds to no step at all has [rotate] print "No angle or steps
    specified." and return, even when steps were given with it. *)
Theorem rotate_angle_overrides_steps
  (direction : string) (a : float) (w : World) :
  float_truthy a = true ->
  (forall steps steps',
      rotate direction (Some a) steps w = rotate direction (Some a) steps' w) /\
  (valid_direction direction = true -> num_steps_required a = Ok 0 ->
   forall steps,
     rotate direction (Some a) steps w
     = (Ret tt, logged (EvPrint MsgNoDistance) w)).
Proof.
  intros Ha. split.
  - intros steps steps'. unfold rotate.
    rewrite !(chosen_steps_angle a _ Ha).
    unfold shown_angle. rewrite Ha. reflexivity.
  - intros Hd H0 steps. unfold rotate. rewrite Hd. cbn [negb].
    unfold bind at 1. rewrite (chosen_steps_angle a _ Ha), H0. reflexivity.
Qed.

Lemma rotate_angle_overrides_steps_witness :
  rotate "cw" (Some (literal 3 1)) (Some 100) bench
  = (Ret tt, logged (EvPrint MsgNoDistance) bench) /\
  rotate "cw" (Some (literal 90 0)) (Some 7) bench
  = rotate "cw" (Some (literal 90 0)) None bench.
Proof.
  destruct (rotate_angle_overrides_steps "cw" (literal 3 1) bench eq_refl)
    as [_ Hnone].
  destruct (rotate_angle_overrides_steps "cw" (literal 90 0) bench eq_refl)
    as [Hsame _].
  split; [|apply Hsame].
  apply Hnone; [reflexivity | vm_compute; reflexivity].
Defined.

Lemma lower_ascii_idempotent c : lower_ascii (lower_ascii c) = lower_ascii c.
Proof. destruct c as [[] [] [] [] [] [] [] []]; reflexivity. Qed.

Lemma lower_idempotent s : lower (lower s) = lower s.
Proof.
  induction s as [|c s IH]; simpl; [reflexivity|].
  rewrite lower_ascii_idempotent, IH. reflexivity.
Qed.

(** X14. [rotate] reads its direction without regard to case: a valid
    direction and its lower-case form give the same run, and a direction is
    valid exactly when its lower-case form is. *)
Theorem rotate_ignores_case (direction : string) :
  lower (lower direction) = lower direction /\
  valid_direction (lower direction) = valid_direction direction /\
  (valid_direction direction = true ->
   forall angle steps w,
     rotate direction angle steps w = rotate (lower direction) angle steps w).
Proof.
  assert (Hv : valid_direction (lower direction) = valid_direction direction)
    by (unfold valid_direction; rewrite lower_idempotent; reflexivity).
  split; [apply lower_idempotent|]. split; [exact Hv|].
  intros Hd angle steps w. unfold rotate.
  rewrite Hv, Hd, lower_idempotent. reflexivity.
Qed.

Lemma rotate_ignores_case_witness :
  rotate "CcW" None (Some 3) bench = rotate "ccw" None (Some 3) bench.
Proof.
  destruct (rotate_ignores_case "CcW") as (_ & _ & H).
  apply (H eq_refl).
Defined.

(** ** go_home: how far, and back from a rotation *)

Lemma to_angle_small n : -256 <= n <= 256 -> exists a, to_angle n = Ok a.
Proof.
  intros Hn.
  assert (H : res_is_ok (to_angle n) = true).
  { apply (forall_from_spec (fun n => res_is_ok (to_angle n))
             (Z.to_nat 513) (-256)); [|lia].
    vm_cast_no_check (eq_refl true). }
  destruct (to_angle n) as [a|]; [exists a; reflexivity | discriminate].
Qed.

(** The normalized count of a counter within the exact range of floats. *)
Lemma normalize_home c :
  Z.abs (c + 256) < 2 ^ 53 ->
  exists steps,
    normalize c (-256) 256 = Ok steps /\
    -256 <= steps < 256 /\
    (c - steps) mod 512 = 0 /\
    (c mod 512 <> 0 -> steps <> 0) /\
    (-256 <= c < 256 -> steps = c).
Proof.
  intros Hc. exists ((c + 256) mod 512 - 256).
  rewrite normalize_mod by lia.
  replace (c - -256) with (c + 256) by lia. change (256 - -256) with 512.
  pose proof (Z.mod_pos_bound (c + 256) 512 ltac:(lia)) as Hb.
  pose proof (Z.div_mod (c + 256) 512 ltac:(lia)) as Hdm.
  split; [f_equal; lia|]. split; [lia|]. split; [|split].
  - replace (c - ((c + 256) mod 512 - 256)) with (((c + 256) / 512) * 512)
      by lia.
    apply Z.mod_mul. lia.
  - intros Hne Heq. apply Hne.
    replace c with (((c + 256) / 512) * 512) by lia. apply Z.mod_mul. lia.
  - intros Hr. rewrite Z.mod_small by lia. lia.
Qed.

(** The move [go_home] makes for a normalized count, seen from its start. *)
Lemma homing_move_seen steps a' r b g o (w : World) :
  steps <> 0 -> to_angle (Z.abs steps) = Ok a' ->
  redLED (self w) = Some r -> blueLED (self w) = Some b ->
  greenLED (self w) = Some g -> orangeLED (self w) = Some o ->
  is_pinf (delay (self w)) = false ->
  exists w2,
    homing_move steps w = (Ret tt, w2) /\
    shows w w2 (seen_rotate (self w) (0 <? steps) (Z.abs steps) r b g o
                  (observe w)).
Proof.
  intros Hs Ha Hr Hb Hg Ho Hfin. unfold homing_move.
  assert (Hc : chosen_steps None (Some (Z.abs steps)) = Ok (Some (Z.abs steps)))
    by (apply chosen_steps_only_steps; lia).
  assert (Hsh : shown_angle None (Z.abs steps) = Ok (AngleApprox a'))
    by (apply shown_angle_only_steps, Ha).
  destruct (Z.ltb_spec steps 0) as [Hneg|Hpos].
  - replace (0 <? steps) with (String.eqb (lower "ccw") "cw")
      by (symmetry; apply Z.ltb_ge; lia).
    apply (rotate_seen "ccw" None (Some (Z.abs steps)) (Z.abs steps)
             (AngleApprox a')); try assumption; [reflexivity | lia | auto].
  - replace (0 <? steps) with (String.eqb (lower "cw") "cw")
      by (symmetry; apply Z.ltb_lt; lia).
    assert (Habs : Z.abs steps = steps) by lia. rewrite Habs in *.
    apply (rotate_seen "cw" None (Some steps) steps (AngleApprox a'));
      try assumption; [reflexivity | auto].
Qed.

Lemma go_home_moves default w a steps w2 :
  to_angle (selected default w) = Ok a ->
  normalize (selected default w) (-256) 256 = Ok steps -> steps <> 0 ->
  homing_move steps (logged (EvPrint (going_home (selected default w) a)) w)
  = (Ret tt, w2) ->
  go_home default w = (Ret tt, reset_counters default w2).
Proof.
  intros Ha Hn Hs Hm. rewrite go_home_unfold, Ha, Hn. cbv zeta.
  destruct (Z.eqb_spec steps 0) as [|_]; [contradiction|].
  rewrite Hm. reflexivity.
Qed.

(** X15. [go_home] takes the short way.  For a counter within the exact
    range of floats that is not a multiple of 512, on a driver with its
    LEDs attached and a delay other than [+inf], it makes one move of
    [steps] steps with [-256 <= steps < 256], so at most [4 * 256] waits;
    the counter it then resets had come to a multiple of 512, a whole
    number of turns. *)
Theorem go_home_short_way (default : bool) (w : World) (a : float) :
  Z.abs (selected default w + 256) < 2 ^ 53 ->
  to_angle (selected default w) = Ok a ->
  selected default w mod 512 <> 0 ->
  wired (self w) -> is_pinf (delay (self w)) = false ->
  exists steps w2 new,
    normalize (selected default w) (-256) 256 = Ok steps /\
    -256 <= steps < 256 /\ steps <> 0 /\
    homing_move steps (logged (EvPrint (going_home (selected default w) a)) w)
    = (Ret tt, w2) /\
    log w2 = new ++ EvPrint (going_home (selected default w) a) :: log w /\
    waits new = replicate (Z.to_nat (4 * Z.abs steps)) (delay (self w)) /\
    (Z.to_nat (4 * Z.abs steps) <= 1024)%nat /\
    selected default w2 = selected default w - steps /\
    selected default w2 mod 512 = 0 /\
    go_home default w = (Ret tt, reset_counters default w2).
Proof.
  intros Hc Ha Hmod ([r Hr] & [b Hb] & [g Hg] & [o Ho]) Hfin.
  destruct (normalize_home _ Hc) as (steps & Hn & Hb' & Hturn & Hne & _).
  specialize (Hne Hmod).
  destruct (to_angle_small (Z.abs steps) ltac:(lia)) as [a' Ha'].
  set (w1 := logged (EvPrint (going_home (selected default w) a)) w).
  destruct (homing_move_seen steps a' r b g o w1 Hne Ha' Hr Hb Hg Ho Hfin)
    as (w2 & Hm & Hshow).
  destruct (shows_log _ _ _ Hshow) as (Hs2 & new & Hlog & Hw & _).
  rewrite o_self_seen_rotate in Hs2. cbn [observe o_self] in Hs2.
  assert (Hsel : selected default w2 = selected default w - steps).
  { unfold selected, default_home, home. rewrite Hs2.
    destruct (Z.ltb_spec 0 steps); destruct default; simpl; lia. }
  exists steps, w2, new.
  split; [exact Hn|]. split; [exact Hb'|]. split; [exact Hne|].
  split; [exact Hm|]. split; [exact Hlog|]. split.
  { rewrite Hw, o_waits_seen_rotate. simpl. rewrite app_nil_r. f_equal. lia. }
  split; [lia|]. split; [exact Hsel|]. split; [rewrite Hsel; exact Hturn|].
  apply (go_home_moves default w a steps w2 Ha Hn Hne Hm).
Qed.

Lemma go_home_short_way_witness :
  exists steps w2,
    normalize (selected true bench_turned) (-256) 256 = Ok steps /\
    homing_move steps
      (logged (EvPrint (going_home (selected true bench_turned) (literal 21 1)))
         bench_turned) = (Ret tt, w2) /\
    go_home true bench_turned = (Ret tt, reset_counters true w2).
Proof.
  destruct (go_home_short_way true bench_turned (literal 21 1))
    as (steps & w2 & new & H1 & _ & _ & H2 & _ & _ & _ & _ & _ & H3).
  - vm_compute. reflexivity.
  - vm_compute. reflexivity.
  - vm_compute. discriminate.
  - exact wired_bench.
  - reflexivity.
  - exists steps, w2. auto.
Defined.

Lemma rotate_steps_counters direction n a w :
  valid_direction direction = true -> n <> 0 -> to_angle n = Ok a ->
  wired (self w) -> is_pinf (delay (self w)) = false ->
  exists w',
    rotate direction None (Some n) w = (Ret tt, w') /\
    self w' = move_counters (signed_steps direction n) (self w).
Proof. apply rotate_steps_returns. Qed.

(** X16. [go_home] undoes a rotation.  On a driver with its LEDs
    attached and a delay that is not [+inf], from the default home (counter
    0), [rotate(direction, steps=n)] with a valid direction and
    [0 < n < 256] returns, and [go_home()] then makes the move of [n] steps
    in the other direction, which brings the counter back to 0 before it is
    reset, and returns. *)
Theorem go_home_undoes_rotate (direction : string) (n : Z) (w : World) :
  valid_direction direction = true -> 0 < n < 256 ->
  default_home w = 0 ->
  wired (self w) -> is_pinf (delay (self w)) = false ->
  exists w1 a w2,
    rotate direction None (Some n) w = (Ret tt, w1) /\
    default_home w1 = signed_steps direction n /\
    to_angle (default_home w1) = Ok a /\
    rotate (opposite direction) None (Some n)
      (logged (EvPrint (going_home (default_home w1) a)) w1) = (Ret tt, w2) /\
    default_home w2 = 0 /\
    go_home true w1 = (Ret tt, reset_counters true w2).
Proof.
  intros Hd Hn H0 Hw Hfin.
  destruct (to_angle_small n ltac:(lia)) as [an Han].
  destruct (rotate_steps_counters direction n an w Hd ltac:(lia) Han Hw Hfin)
    as (w1 & Hrun1 & Hs1).
  assert (Hc1 : default_home w1 = signed_steps direction n).
  { unfold default_home in *. rewrite Hs1. simpl. lia. }
  assert (Hab : Z.abs (signed_steps direction n) = n)
    by (unfold signed_steps; destruct (String.eqb (lower direction) "cw"); lia).
  destruct (to_angle_small (default_home w1)) as [a Ha].
  { rewrite Hc1. lia. }
  set (w1' := logged (EvPrint (going_home (default_home w1) a)) w1).
  assert (Hw1 : wired (self w1')) by (unfold w1'; simpl; rewrite Hs1; exact Hw).
  assert (Hf1 : is_pinf (delay (self w1')) = false)
    by (unfold w1'; simpl; rewrite Hs1; exact Hfin).
  assert (Hvo : valid_direction (opposite direction) = true)
    by (unfold opposite; destruct (String.eqb (lower direction) "cw");
        reflexivity).
  destruct (rotate_steps_counters (opposite direction) n an w1' Hvo
              ltac:(lia) Han Hw1 Hf1) as (w2 & Hrun2 & Hs2).
  assert (Hc2 : default_home w2 = 0).
  { unfold default_home in *. rewrite Hs2. unfold w1'. simpl.
    rewrite Hc1. unfold signed_steps, opposite.
    destruct (String.eqb (lower direction) "cw"); simpl; lia. }
  exists w1, a, w2.
  split; [exact Hrun1|]. split; [exact Hc1|]. split; [exact Ha|].
  split; [exact Hrun2|]. split; [exact Hc2|].
  destruct (normalize_home (default_home w1)) as (steps & Hnorm & _ & _ & _ & Hid).
  { rewrite Hc1. change (2 ^ 53) with 9007199254740992. lia. }
  rewrite Hid in Hnorm by (rewrite Hc1; lia).
  apply (go_home_moves true w1 a (default_home w1) w2 Ha Hnorm).
  - rewrite Hc1. lia.
  - fold w1'. unfold homing_move. rewrite <- Hrun2, Hc1, Hab.
    unfold signed_steps, opposite.
    destruct (String.eqb (lower direction) "cw") eqn:E.
    + destruct (Z.ltb_spec (- n) 0); [reflexivity | lia].
    + destruct (Z.ltb_spec n 0); [lia | reflexivity].
Qed.

Lemma go_home_undoes_rotate_witness :
  exists w1 a w2,
    rotate "cw" None (Some 100) bench = (Ret tt, w1) /\
    default_home w1 = -100 /\
    rotate "ccw" None (Some 100)
      (logged (EvPrint (going_home (default_home w1) a)) w1) = (Ret tt, w2) /\
    default_home w2 = 0 /\
    go_home true w1 = (Ret tt, reset_counters true w2).
Proof.
  destruct (go_home_undoes_rotate "cw" 100 bench eq_refl ltac:(lia) eq_refl
              wired_bench eq_refl)
    as (w1 & a & w2 & H1 & H2 & _ & H3 & H4 & H5).
  exists w1, a, w2. repeat split; assumption.
Defined.



(** ** The coil lines, written and read back *)

(** X18. [set_step] always returns, and on four different coil pins the
    four lines then read what was written, (A1, A2, B1, B2); the driver
    object and every other line are as before, no wait is made, and the
    same call again leaves the lines as they are. *)
Theorem set_step_reads_back (A1 A2 B1 B2 : bool) (w : World) :
  exists w',
    set_step A1 A2 B1 B2 w = (Ret tt, w') /\
    self w' = self w /\
    (exists new, log w' = new ++ log w /\ waits new = []) /\
    (forall q, ~ In q (coil_pins (self w)) -> reads_high w' q = reads_high w q) /\
    (NoDup (coil_pins (self w)) ->
     coils (self w') (reads_high w') = (A1, A2, B1, B2) /\
     forall q, reads_high (snd (set_step A1 A2 B1 B2 w')) q = reads_high w' q).
Proof.
  destruct (acts_set_step w A1 A2 B1 B2 (observe w) w (shows_start w))
    as (w' & Hrun & Hshow).
  exists w'. split; [exact Hrun|].
  destruct (shows_log _ _ _ Hshow) as (Hs & new & Hlog & Hw & _).
  destruct Hshow as (_ & Hl & _).
  split; [exact Hs|]. split; [exists new; auto|]. split.
  - intros q Hq. rewrite Hl. unfold seen_set_step, coil_pins in *.
    cbn [o_lines set_line o_self observe] in *. simpl in Hq.
    repeat case_bool_decide; try reflexivity; exfalso; intuition congruence.
  - intros Hnd.
    assert (Hc : coils (self w') (reads_high w') = (A1, A2, B1, B2)).
    { unfold coils. rewrite !Hl, Hs.
      apply (coils_seen_set_step (self w) A1 A2 B1 B2 (observe w) eq_refl Hnd). }
    split; [exact Hc|]. intros q.
    destruct (acts_set_step w' A1 A2 B1 B2 (observe w') w' (shows_start w'))
      as (w'' & Hrun' & (_ & Hl' & _)).
    rewrite Hrun'. cbn [snd]. rewrite Hl'.
    unfold coils in Hc. injection Hc as H1 H2 H3 H4.
    unfold seen_set_step. cbn [o_lines set_line o_self observe].
    repeat case_bool_decide; subst; try reflexivity; congruence.
Qed.

Lemma set_step_reads_back_witness :
  coils (self bench)
    (reads_high (snd (set_step true false false true bench)))
  = (true, false, false, true).
Proof.
  destruct (set_step_reads_back true false false true bench)
    as (w' & Hrun & Hs & _ & _ & Hback).
  rewrite Hrun. cbn [snd]. rewrite <- Hs.
  apply (Hback NoDup_coil_pins_bench).
Defined.

(** ** Lines the driver never writes *)

Section Frame.
Variable s0 : Stepper.
Variable q : Z.
Variable v0 : bool.
Hypothesis Hq : ~ In q (own_pins s0).

Abbreviation Inv := (untouched s0 q v0).

Lemma keeps_bind {A B} (c : M A) (k : A -> M B) :
  keeps Inv c -> (forall a, keeps Inv (k a)) -> keeps Inv (bind c k).
Proof.
  intros Hc Hk w Hw. unfold bind. specialize (Hc w Hw).
  destruct (c w) as [[a|e|] w']; simpl in *; auto. apply Hk, Hc.
Qed.

Lemma keeps_same {A} (c : M A) :
  (forall w, self (snd (c w)) = self w /\ levels (snd (c w)) = levels w) ->
  keeps Inv c.
Proof.
  intros H w [Hh Hl]. destruct (H w) as [Hs Hv]. split.
  - rewrite Hs. exact Hh.
  - unfold reads_high in *. rewrite Hv. exact Hl.
Qed.

Lemma keeps_ret {A} (a : A) : keeps Inv (ret a).
Proof. apply keeps_same. intros w. split; reflexivity. Qed.

Lemma keeps_raise {A} e : keeps Inv (@raise A e).
Proof. apply keeps_same. intros w. split; reflexivity. Qed.

Lemma keeps_lift {A} (r : res A) : keeps Inv (lift r).
Proof. destruct r; [apply keeps_ret | apply keeps_raise]. Qed.

Lemma keeps_emit ev : keeps Inv (emit ev).
Proof. apply keeps_same. intros w. split; reflexivity. Qed.

Lemma keeps_sleep d : keeps Inv (sleep d).
Proof.
  apply keeps_same. intros w. unfold sleep.
  destruct d as [|[]| |]; split; reflexivity.
Qed.

Lemma keeps_output p v : p <> q -> keeps Inv (GPIO.output p v).
Proof.
  intros Hp w [Hh Hl]. split; [exact Hh|].
  change (snd (GPIO.output p v w)) with (driven p v w).
  rewrite reads_high_driven, bool_decide_eq_false_2 by congruence. exact Hl.
Qed.

Lemma keeps_LED_on l : LED.pin l <> q -> keeps Inv (LED_on l).
Proof.
  intros Hp w Hw. rewrite LED_on_run. cbn [snd].
  destruct (reads_high w (LED.pin l)); [exact Hw|].
  apply (keeps_output (LED.pin l) true Hp w Hw).
Qed.

Lemma keeps_LED_off l : LED.pin l <> q -> keeps Inv (LED_off l).
Proof.
  intros Hp w Hw. rewrite LED_off_run. cbn [snd].
  destruct (reads_high w (LED.pin l)); [|exact Hw].
  apply (keeps_output (LED.pin l) false Hp w Hw).
Qed.

Lemma keeps_modify_self f :
  (forall s, same_hardware s0 s -> same_hardware s0 (f s)) ->
  keeps Inv (modify_self f).
Proof. intros Hf w [Hh Hl]. split; [apply Hf, Hh | exact Hl]. Qed.

Lemma keeps_get_self {B} (k : Stepper -> M B) :
  (forall s, same_hardware s0 s -> keeps Inv (k s)) -> keeps Inv (bind get_self k).
Proof. intros H w Hw. unfold bind, get_self. apply H; [apply Hw | exact Hw]. Qed.

Lemma keeps_attribute {A B} (f : Stepper -> option A) (k : A -> M B) :
  (forall s a, same_hardware s0 s -> f s = Some a -> keeps Inv (k a)) ->
  keeps Inv (bind (attribute f) k).
Proof.
  intros H w Hw. unfold attribute. unfold bind, get_self.
  destruct (f (self w)) as [a|] eqn:E; simpl; [|exact Hw].
  apply (H (self w) a); [apply Hw | exact E | exact Hw].
Qed.

Lemma coil_pins_apart s :
  same_hardware s0 s ->
  coilA1Pin s <> q /\ coilA2Pin s <> q /\ coilB1Pin s <> q /\ coilB2Pin s <> q.
Proof.
  intros (_ & Hc & _). unfold own_pins in Hq. rewrite in_app_iff in Hq.
  rewrite <- Hc in Hq. unfold coil_pins in Hq. simpl in Hq.
  repeat split; intros E; apply Hq; left; tauto.
Qed.

Lemma LED_pin_apart s l :
  same_hardware s0 s ->
  redLED s = Some l \/ blueLED s = Some l \/ greenLED s = Some l
  \/ orangeLED s = Some l ->
  LED.pin l <> q.
Proof.
  intros (_ & _ & Hr & Hb & Hg & Ho & _) Hl E. apply Hq.
  unfold own_pins. rewrite !in_app_iff. right.
  rewrite <- Hr, <- Hb, <- Hg, <- Ho.
  destruct Hl as [-> | [-> | [-> | ->]]]; simpl; tauto.
Qed.

Lemma keeps_set_step a1 a2 b1 b2 : keeps Inv (set_step a1 a2 b1 b2).
Proof.
  unfold set_step. apply keeps_get_self. intros s Hs.
  destruct (coil_pins_apart s Hs) as (H1 & H2 & H3 & H4).
  repeat (apply keeps_bind; [apply keeps_output; assumption|]; intros _).
  apply keeps_output. assumption.
Qed.

Lemma keeps_phase a1 a2 b1 b2 : keeps Inv (phase a1 a2 b1 b2).
Proof.
  unfold phase. apply keeps_bind; [apply keeps_set_step|]. intros _.
  apply keeps_get_self. intros s _. apply keeps_sleep.
Qed.

Lemma keeps_step_cw : keeps Inv step_cw.
Proof.
  unfold step_cw.
  repeat (apply keeps_bind; [apply keeps_phase|]; intros _).
  apply keeps_phase.
Qed.

Lemma keeps_step_ccw : keeps Inv step_ccw.
Proof.
  unfold step_ccw.
  repeat (apply keeps_bind; [apply keeps_phase|]; intros _).
  apply keeps_phase.
Qed.

Lemma keeps_for_range n (body : M unit) : keeps Inv body -> keeps Inv (for_range n body).
Proof.
  intros Hb. unfold for_range. induction (Z.to_nat n) as [|k IH]; simpl.
  - apply keeps_ret.
  - apply keeps_bind; [exact Hb|]. intros _. exact IH.
Qed.

Lemma keeps_deactivate : keeps Inv deactivate.
Proof.
  unfold deactivate.
  apply keeps_bind; [apply keeps_set_step|]. intros _.
  apply keeps_attribute. intros s r Hs Hr.
  apply keeps_bind; [apply keeps_LED_on, (LED_pin_apart s r Hs); tauto|].
  intros _. apply keeps_attribute. intros s1 b Hs1 Hb.
  apply keeps_bind; [apply keeps_LED_off, (LED_pin_apart s1 b Hs1); tauto|].
  intros _. apply keeps_attribute. intros s2 g Hs2 Hg.
  apply keeps_bind; [apply keeps_LED_off, (LED_pin_apart s2 g Hs2); tauto|].
  intros _. apply keeps_attribute. intros s3 o Hs3 Ho.
  apply keeps_LED_off, (LED_pin_apart s3 o Hs3). tauto.
Qed.

Lemma same_hardware_move_counters d s :
  same_hardware s0 s -> same_hardware s0 (move_counters d s).
Proof. intros H. exact H. Qed.

Lemma same_hardware_with_stepsFromHome n s :
  same_hardware s0 s -> same_hardware s0 (with_stepsFromHome n s).
Proof. intros H. exact H. Qed.

Lemma same_hardware_with_stepsFromDefaultHome n s :
  same_hardware s0 s -> same_hardware s0 (with_stepsFromDefaultHome n s).
Proof. intros H. exact H. Qed.

Lemma same_hardware_with_delay d s :
  same_hardware s0 s -> same_hardware s0 (with_delay d s).
Proof. intros H. exact H. Qed.

Lemma keeps_rotate direction angle steps : keeps Inv (rotate direction angle steps).
Proof.
  unfold rotate. destruct (valid_direction direction); cbn [negb];
    [|apply keeps_emit].
  apply keeps_bind; [apply keeps_lift|]. intros [n|]; [|apply keeps_emit].
  destruct (n =? 0); [apply keeps_emit|].
  apply keeps_bind; [apply keeps_lift|]. intros shown.
  apply keeps_attribute. intros s r Hs Hr.
  apply keeps_bind; [apply keeps_LED_off, (LED_pin_apart s r Hs); tauto|].
  intros _. apply keeps_bind; [|intros _; apply keeps_deactivate].
  destruct (String.eqb (lower direction) "cw");
    [|destruct (String.eqb (lower direction) "ccw"); [|apply keeps_ret]].
  - apply keeps_attribute. intros s1 b Hs1 Hb.
    apply keeps_bind; [apply keeps_LED_on, (LED_pin_apart s1 b Hs1); tauto|].
    intros _. apply keeps_attribute. intros s2 g Hs2 Hg.
    apply keeps_bind; [apply keeps_LED_on, (LED_pin_apart s2 g Hs2); tauto|].
    intros _.
    apply keeps_bind;
      [apply keeps_modify_self, same_hardware_move_counters|]. intros _.
    apply keeps_bind; [apply keeps_emit|]. intros _.
    apply keeps_for_range, keeps_step_cw.
  - apply keeps_attribute. intros s1 g Hs1 Hg.
    apply keeps_bind; [apply keeps_LED_on, (LED_pin_apart s1 g Hs1); tauto|].
    intros _. apply keeps_attribute. intros s2 o Hs2 Ho.
    apply keeps_bind; [apply keeps_LED_on, (LED_pin_apart s2 o Hs2); tauto|].
    intros _.
    apply keeps_bind;
      [apply keeps_modify_self, same_hardware_move_counters|]. intros _.
    apply keeps_bind; [apply keeps_emit|]. intros _.
    apply keeps_for_range, keeps_step_ccw.
Qed.

Lemma keeps_go_home default : keeps Inv (go_home default).
Proof.
  unfold go_home. apply keeps_get_self. intros s _.
  apply keeps_bind; [apply keeps_lift|]. intros a.
  apply keeps_bind; [destruct (0 <? _); apply keeps_emit|]. intros _.
  apply keeps_bind; [apply keeps_lift|]. intros steps.
  destruct (steps =? 0); [apply keeps_emit|].
  apply keeps_bind; [destruct (steps <? 0); apply keeps_rotate|]. intros _.
  apply keeps_bind.
  - destruct default; apply keeps_modify_self;
      [apply same_hardware_with_stepsFromDefaultHome
      | apply same_hardware_with_stepsFromHome].
  - intros _. apply keeps_modify_self, same_hardware_with_stepsFromHome.
Qed.

Lemma keeps_set_speed secPerRev : keeps Inv (set_speed secPerRev).
Proof.
  unfold set_speed. apply keeps_get_self. intros s _.
  destruct (float_lt_int secPerRev (maxSpeed s)); [apply keeps_raise|].
  apply keeps_bind; [apply keeps_lift|]. intros c.
  apply keeps_modify_self, same_hardware_with_delay.
Qed.

Lemma keeps_set_speed_pct pct : keeps Inv (set_speed_pct pct).
Proof.
  unfold set_speed_pct.
  apply keeps_bind; [apply keeps_lift|]. intros c100.
  apply keeps_bind; [apply keeps_lift|]. intros c0.
  apply keeps_get_self. intros s _.
  apply keeps_bind; [apply keeps_lift|]. intros lo.
  apply keeps_bind; [apply keeps_lift|]. intros span.
  apply keeps_set_speed.
Qed.

Lemma keeps_set_home : keeps Inv set_home.
Proof.
  unfold set_home.
  apply keeps_bind;
    [apply keeps_modify_self, same_hardware_with_stepsFromHome|]. intros _.
  apply keeps_emit.
Qed.

Lemma keeps_reset_home : keeps Inv reset_home.
Proof.
  unfold reset_home. apply keeps_get_self. intros s _.
  apply keeps_bind;
    [apply keeps_modify_self, same_hardware_with_stepsFromHome|]. intros _.
  apply keeps_emit.
Qed.

End Frame.

Lemma same_hardware_refl s : same_hardware s s.
Proof. repeat split. Qed.

(** X19. Once built, a driver writes only its four coil lines and the
    lines of its LEDs: whatever the arguments, and however the call ends
    (return, exception, or a wait that never ends), [rotate], [go_home],
    [deactivate], [set_step], [set_speed], [set_speed_pct], [set_home] and
    [reset_home] leave every other line at its level, and leave the pins,
    the LEDs and the speed limits of the driver as they are.  So the enable
    line, when it is a line of its own, stays as [__init__] set it. *)
Theorem methods_keep_other_lines (w : World) (q : Z) :
  ~ In q (own_pins (self w)) ->
  let kept (w' : World) :=
    same_hardware (self w) (self w') /\ reads_high w' q = reads_high w q in
  (forall direction angle steps, kept (snd (rotate direction angle steps w))) /\
  (forall default, kept (snd (go_home default w))) /\
  kept (snd (deactivate w)) /\
  (forall a1 a2 b1 b2, kept (snd (set_step a1 a2 b1 b2 w))) /\
  (forall secPerRev, kept (snd (set_speed secPerRev w))) /\
  (forall pct, kept (snd (set_speed_pct pct w))) /\
  kept (snd (set_home w)) /\
  kept (snd (reset_home w)).
Proof.
  intros Hq kept.
  assert (Hw : untouched (self w) q (reads_high w q) w)
    by (split; [apply same_hardware_refl | reflexivity]).
  refine (conj _ (conj _ (conj _ (conj _ (conj _ (conj _ (conj _ _))))))).
  - intros direction angle steps.
    apply (keeps_rotate (self w) q (reads_high w q) Hq direction angle steps w Hw).
  - intros default.
    apply (keeps_go_home (self w) q (reads_high w q) Hq default w Hw).
  - apply (keeps_deactivate (self w) q (reads_high w q) Hq w Hw).
  - intros a1 a2 b1 b2.
    apply (keeps_set_step (self w) q (reads_high w q) Hq a1 a2 b1 b2 w Hw).
  - intros secPerRev.
    apply (keeps_set_speed (self w) q (reads_high w q) secPerRev w Hw).
  - intros pct.
    apply (keeps_set_speed_pct (self w) q (reads_high w q) pct w Hw).
  - apply (keeps_set_home (self w) q (reads_high w q) w Hw).
  - apply (keeps_reset_home (self w) q (reads_high w q) w Hw).
Qed.

Lemma methods_keep_other_lines_witness :
  reads_high bench (enablePin (self bench)) = true /\
  reads_high (snd (rotate "cw" None (Some 2) bench)) (enablePin (self bench))
  = true /\
  reads_high (snd (go_home true bench_turned)) (enablePin (self bench_turned))
  = true.
Proof.
  assert (Hq : ~ In 18 (own_pins (self bench))).
  { vm_compute. intros [H|[H|[H|[H|[H|[H|[H|[H|[]]]]]]]]]; discriminate. }
  assert (Hq' : ~ In 18 (own_pins (self bench_turned))).
  { vm_compute. intros [H|[H|[H|[H|[H|[H|[H|[H|[]]]]]]]]]; discriminate. }
  destruct (methods_keep_other_lines bench 18 Hq) as (Hrot & _).
  destruct (methods_keep_other_lines bench_turned 18 Hq') as (_ & Hhome & _).
  split; [reflexivity|]. split.
  - destruct (Hrot "cw"%string None (Some 2)) as [_ H].
    change (enablePin (self bench)) with 18. rewrite H. reflexivity.
  - destruct (Hhome true) as [_ H].
    change (enablePin (self bench_turned)) with 18. rewrite H. reflexivity.
Defined.

(** ** Signs of angles and step counts *)

Lemma binary_round_aux_opp s m e l :
  binary_round_aux prec emax (negb s) m e l
  = SFopp (binary_round_aux prec emax s m e l).
Proof.
  unfold binary_round_aux.
  destruct (shr_fexp prec emax m e l) as [mrs' e'].
  destruct (shr_fexp prec emax _ e' loc_Exact) as [mrs'' e''].
  destruct (shr_m mrs''); try reflexivity.
  destruct (_ <=? _); reflexivity.
Qed.

Lemma binary_round_aux_sign s m e l :
  negative (binary_round_aux prec emax s m e l) = true -> s = true.
Proof.
  unfold binary_round_aux.
  destruct (shr_fexp prec emax m e l) as [mrs' e'].
  destruct (shr_fexp prec emax _ e' loc_Exact) as [mrs'' e''].
  destruct (shr_m mrs''); simpl; try discriminate; try (intros ->; reflexivity).
  destruct (_ <=? _); simpl; intros ->; reflexivity.
Qed.

Lemma binary_round_opp s m e :
  binary_round prec emax (negb s) m e = SFopp (binary_round prec emax s m e).
Proof.
  unfold binary_round. destruct (shl_align _ _ _) as [mz ez].
  apply binary_round_aux_opp.
Qed.

Lemma SFdiv_opp_l x y : fdiv (fneg x) y = fneg (fdiv x y).
Proof.
  unfold fdiv, fneg.
  destruct x as [sx|sx| |sx mx ex], y as [sy|sy| |sy my ey]; simpl;
    rewrite <- ?negb_xorb_l; try reflexivity.
  destruct (SFdiv_core_binary _ _ _ _ _ _) as [[mz ez] lz].
  apply binary_round_aux_opp.
Qed.

Lemma SFmul_opp_r x y : fmul x (fneg y) = fneg (fmul x y).
Proof.
  unfold fmul, fneg.
  destruct x as [sx|sx| |sx mx ex], y as [sy|sy| |sy my ey]; simpl;
    rewrite <- ?negb_xorb_r; try reflexivity.
  apply binary_round_aux_opp.
Qed.

Lemma fabs_fneg x : fabs (fneg x) = fabs x.
Proof. destruct x; reflexivity. Qed.

Lemma int_to_float_opp z :
  z <> 0 -> int_to_float (- z) = res_map fneg (int_to_float z).
Proof.
  intros Hz. unfold int_to_float. destruct z as [|p|p]; [contradiction| |].
  - change (binary_normalize prec emax (- Zpos p) 0 false)
      with (binary_round prec emax (negb false) p 0).
    rewrite binary_round_opp.
    change (binary_normalize prec emax (Zpos p) 0 false)
      with (binary_round prec emax false p 0).
    destruct (binary_round prec emax false p 0); reflexivity.
  - change (binary_normalize prec emax (- Zneg p) 0 false)
      with (binary_round prec emax false p 0).
    change (binary_normalize prec emax (Zneg p) 0 false)
      with (binary_round prec emax (negb false) p 0).
    rewrite binary_round_opp.
    destruct (binary_round prec emax false p 0) as [[]|[]| |[] ? ?];
      reflexivity.
Qed.

Lemma to_angle_opp n : to_angle (- n) = to_angle n.
Proof.
  destruct (Z.eq_dec n 0) as [->|Hn]; [reflexivity|].
  unfold to_angle. rewrite (int_to_float_opp n Hn).
  destruct (int_to_float n) as [f|e]; [|reflexivity].
  cbn [res_map]. rewrite SFdiv_opp_l, fabs_fneg. reflexivity.
Qed.

Lemma round_half_even_nonneg num den :
  0 <= num -> 0 < den -> 0 <= round_half_even num den.
Proof.
  intros Hn Hd. unfold round_half_even.
  assert (0 <= num / den) by (apply Z.div_pos; lia).
  destruct (2 * (num mod den) ?= den); [destruct (Z.even _)| |]; lia.
Qed.

Lemma int_truediv_sign a b q :
  0 < a -> 0 < b -> int_truediv a b = Ok q -> negative q = false.
Proof.
  intros Ha Hb. unfold int_truediv.
  destruct (Z.eqb_spec b 0); [lia|].
  destruct a as [|pa|pa]; try lia. destruct b as [|pb|pb]; try lia.
  change (Zpos pa <? 0) with false. change (Zpos pb <? 0) with false.
  unfold SFdiv. destruct (SFdiv_core_binary _ _ _ _ _ _) as [[mz ez] lz].
  pose proof (binary_round_aux_sign (xorb false false) mz ez lz) as Hs.
  destruct (binary_round_aux prec emax (xorb false false) mz ez lz)
    as [s|s| |s m e]; try discriminate;
    intros H; injection H as <-; simpl in *;
    try reflexivity; destruct s; try reflexivity;
    specialize (Hs eq_refl); discriminate.
Qed.

Lemma py_round_fabs_sign x a : py_round (fabs x) 1 = Ok a -> negative a = false.
Proof.
  destruct x as [s|s| |s m e]; simpl fabs.
  - intros H. injection H as <-. reflexivity.
  - intros H. injection H as <-. reflexivity.
  - intros H. injection H as <-. reflexivity.
  - unfold py_round. change (10 ^ 1) with 10.
    set (k := if 0 <=? e then Zpos m * 2 ^ e * 10
              else round_half_even (Zpos m * 10) (2 ^ (- e))).
    assert (Hk : 0 <= k).
    { unfold k. destruct (Z.leb_spec 0 e).
      - assert (0 < 2 ^ e) by (apply Z.pow_pos_nonneg; lia). nia.
      - apply round_half_even_nonneg; [lia|]. apply Z.pow_pos_nonneg; lia. }
    destruct k as [|pk|pk] eqn:Ek; try lia.
    + intros H. injection H as <-. reflexivity.
    + apply int_truediv_sign; lia.
Qed.

Lemma not_negative_not_lt a : negative a = false -> float_lt_int a 0 = false.
Proof.
  intros H. destruct a as [s|s| |s m e]; simpl in H; subst;
    try reflexivity.
  unfold float_lt_int, float_cmp_int. cbn [signed].
  destruct (Z.leb_spec 0 e).
  - assert (0 < 2 ^ e) by (apply Z.pow_pos_nonneg; lia).
    destruct (Z.compare_spec (Zpos m * 2 ^ e) 0); try reflexivity. nia.
  - reflexivity.
Qed.

(** X20. [to_angle] gives a positive angle, as its docstring says: the
    angle it returns never has the sign bit set (not even as [-0.0]) and is
    never below 0; and the sign of the step count does not matter,
    [to_angle(-steps)] being [to_angle(steps)], exception included. *)
Theorem to_angle_sign (steps : Z) :
  to_angle (- steps) = to_angle steps /\
  forall a, to_angle steps = Ok a ->
            negative a = false /\ float_lt_int a 0 = false.
Proof.
  split; [apply to_angle_opp|].
  intros a Ha. unfold to_angle in Ha.
  destruct (int_to_float steps) as [f|]; [|discriminate].
  apply py_round_fabs_sign in Ha.
  split; [exact Ha | apply not_negative_not_lt, Ha].
Qed.

Lemma to_angle_sign_witness :
  to_angle (-200) = Ok (literal 1406 1) /\
  negative (literal 1406 1) = false.
Proof.
  destruct (to_angle_sign 200) as [Hopp Hpos].
  assert (Ha : to_angle 200 = Ok (literal 1406 1)) by (vm_compute; reflexivity).
  split; [rewrite <- Ha; exact Hopp | apply (Hpos _ Ha)].
Defined.

Lemma int_truediv_opp z b :
  z <> 0 -> int_truediv (- z) b = res_map fneg (int_truediv z b).
Proof.
  intros Hz. unfold int_truediv. destruct (b =? 0); [reflexivity|].
  destruct z as [|p|p]; [contradiction| |].
  - change (- Zpos p) with (Zneg p).
    change (Z.to_pos (Z.abs (Zneg p))) with p.
    change (Z.to_pos (Z.abs (Zpos p))) with p.
    change (Zneg p <? 0) with (negb false). change (Zpos p <? 0) with false.
    change (S754_finite (negb false) p 0) with (fneg (S754_finite false p 0)).
    change (SFdiv prec emax) with fdiv. rewrite SFdiv_opp_l.
    destruct (fdiv (S754_finite false p 0) _) as [[]|[]| |[] ? ?];
      reflexivity.
  - change (- Zneg p) with (Zpos p).
    change (Z.to_pos (Z.abs (Zneg p))) with p.
    change (Z.to_pos (Z.abs (Zpos p))) with p.
    change (Zneg p <? 0) with (negb false). change (Zpos p <? 0) with false.
    change (S754_finite (negb false) p 0) with (fneg (S754_finite false p 0)).
    change (SFdiv prec emax) with fdiv. rewrite SFdiv_opp_l.
    destruct (fdiv (S754_finite false p 0) _) as [[]|[]| |[] ? ?];
      reflexivity.
Qed.

Lemma py_round_fneg x ndigits :
  py_round (fneg x) ndigits = res_map fneg (py_round x ndigits).
Proof.
  destruct x as [s|s| |s m e]; try reflexivity.
  unfold py_round, fneg. cbn [SFopp].
  set (k := if 0 <=? e then Zpos m * 2 ^ e * 10 ^ ndigits
            else round_half_even (Zpos m * 10 ^ ndigits) (2 ^ (- e))).
  destruct (Z.eq_dec k 0) as [->|Hk]; [reflexivity|].
  assert (Hm : forall (A : Type) (u v : A),
             match k with 0 => u | _ => v end = v)
    by (intros; destruct k; [contradiction | reflexivity | reflexivity]).
  rewrite !Hm. destruct s; cbn [negb].
  - rewrite <- (Z.opp_involutive k) at 1.
    rewrite int_truediv_opp by lia.
    destruct (int_truediv (- k) _) as [q|]; [|reflexivity].
    cbn [res_map]. unfold fneg. destruct q as [[]|[]| |[] ? ?]; reflexivity.
  - apply int_truediv_opp, Hk.
Qed.

Lemma float_to_int_fneg x :
  float_to_int (fneg x) = res_map Z.opp (float_to_int x).
Proof.
  destruct x as [s|s| |s m e]; try reflexivity.
  unfold float_to_int, fneg. cbn [SFopp res_map]. f_equal.
  assert (Hs : signed (negb s) m = - signed s m) by (destruct s; reflexivity).
  rewrite Hs. destruct (Z.leb_spec 0 e); [ring|].
  apply Z.quot_opp_l.
  assert (0 < 2 ^ (- e)) by (apply Z.pow_pos_nonneg; lia). lia.
Qed.

(** X21. [num_steps_required] is odd: for every float, the opposite angle
    needs the opposite number of steps, and raises when the angle does. *)
Theorem num_steps_required_odd (angle : float) :
  num_steps_required (fneg angle) = res_map Z.opp (num_steps_required angle).
Proof.
  unfold num_steps_required. rewrite SFmul_opp_r, py_round_fneg.
  destruct (py_round (fmul lit_1_4222 angle) 0) as [r|e]; [|reflexivity].
  cbn [res_map]. apply float_to_int_fneg.
Qed.

Lemma num_steps_required_odd_witness :
  num_steps_required (literal (-90) 0) = Ok (-128).
Proof.
  assert (H : num_steps_required (literal 90 0) = Ok 128)
    by (vm_compute; reflexivity).
  change (literal (-90) 0) with (fneg (literal 90 0)).
  rewrite (num_steps_required_odd (literal 90 0)), H. reflexivity.
Defined.

(** ** Speeds and the time of a rotation *)

(** X22. On a driver with its LEDs attached, a [set_speed(secPerRev)]
    that is not refused returns with the delay [secPerRev/2050], and a call
    of [rotate] with a valid direction, a step count [n > 0] and an angle
    text that is computed without an exception then makes exactly [4 * n]
    waits of that length and returns, provided [secPerRev/2050] is not
    [+inf]; when it is [+inf] (as after [set_speed(float('inf'))], which is
    not refused), that call of [rotate] never returns. *)
Theorem set_speed_times_rotation
  (secPerRev : float) (direction : string) (angle : option float)
  (steps : option Z) (n : Z) (shown : angle_text) (w : World) :
  float_lt_int secPerRev (maxSpeed (self w)) = false ->
  valid_direction direction = true ->
  chosen_steps angle steps = Ok (Some n) -> 0 < n ->
  shown_angle angle n = Ok shown ->
  wired (self w) ->
  exists w1,
    set_speed secPerRev w = (Ret tt, w1) /\
    delay (self w1) = fdiv secPerRev f2050 /\
    (is_pinf (fdiv secPerRev f2050) = false ->
     exists w2 new,
       rotate direction angle steps w1 = (Ret tt, w2) /\
       log w2 = new ++ log w1 /\
       waits new = replicate (Z.to_nat (4 * n)) (fdiv secPerRev f2050)) /\
    (is_pinf (fdiv secPerRev f2050) = true ->
     fst (rotate direction angle steps w1) = Hang).
Proof.
  intros Hok Hd Hn Hn0 Hshown Hwired.
  set (w1 := set_delay_world (fdiv secPerRev f2050) w).
  exists w1. split; [apply set_speed_accepted, Hok|].
  split; [reflexivity|]. split.
  - intros Hfin. destruct Hwired as ([r Hr] & [b Hb] & [g Hg] & [o Ho]).
    destruct (rotate_seen direction angle steps n shown r b g o w1
                Hd Hn ltac:(lia) Hshown Hr Hb Hg Ho (fun _ => Hfin))
      as (w2 & Hrun & Hshow).
    destruct (shows_log _ _ _ Hshow) as (_ & new & Hlog & Hw & _).
    exists w2, new. split; [exact Hrun|]. split; [exact Hlog|].
    rewrite Hw, o_waits_seen_rotate. simpl. rewrite app_nil_r. f_equal. lia.
  - intros Hinf.
    destruct (rotate_valid (self w1) direction angle steps n shown
                Hd Hn ltac:(lia) Hshown Hwired w1 eq_refl) as [Ho _].
    rewrite Ho. unfold waited. change (delay (self w1))
      with (fdiv secPerRev f2050). rewrite Hinf.
    destruct (Z.ltb_spec 0 n); [reflexivity | lia].
Qed.

Lemma set_speed_times_rotation_witness :
  (exists w1 w2 new,
      set_speed (literal 4 0) bench = (Ret tt, w1) /\
      rotate "cw" (Some (literal 90 0)) None w1 = (Ret tt, w2) /\
      log w2 = new ++ log w1 /\
      waits new = replicate 512 (fdiv (literal 4 0) f2050)) /\
  (exists w1,
      set_speed (S754_infinity false) bench = (Ret tt, w1) /\
      fst (rotate "cw" (Some (literal 90 0)) None w1) = Hang).
Proof.
  split.
  - destruct (set_speed_times_rotation (literal 4 0) "cw"
                (Some (literal 90 0)) None 128 (AngleGiven (literal 90 0))
                bench) as (w1 & Hset & _ & Hfin & _).
    + vm_compute. reflexivity.
    + reflexivity.
    + vm_compute. reflexivity.
    + lia.
    + reflexivity.
    + exact wired_bench.
    + destruct Hfin as (w2 & new & H); [vm_compute; reflexivity|].
      exists w1, w2, new. split; [exact Hset | exact H].
  - destruct (set_speed_times_rotation (S754_infinity false) "cw"
                (Some (literal 90 0)) None 128 (AngleGiven (literal 90 0))
                bench) as (w1 & Hset & _ & _ & Hinf).
    + vm_compute. reflexivity.
    + reflexivity.
    + vm_compute. reflexivity.
    + lia.
    + reflexivity.
    + exact wired_bench.
    + exists w1. split; [exact Hset|]. apply Hinf. vm_compute. reflexivity.
Defined.

Lemma within_limits_percent k :
  0 <= k <= 100 -> within_limits (seconds_of_percent k) = true.
Proof.
  intros Hk.
  apply (forall_from_spec (fun k => within_limits (seconds_of_percent k))
           (Z.to_nat 101) 0); [|lia].
  vm_cast_no_check (eq_refl true).
Qed.

(** X23. With the speed limits 10 and 4, [set_speed_pct] of a whole
    percentage from 0 to 100 never raises: it asks [set_speed] for a
    number of seconds that is neither below 4 nor above 10, and returns
    with the delay set to that number divided by 2050. *)
Theorem set_speed_pct_whole_percent (k : Z) (w : World) :
  0 <= k <= 100 ->
  minSpeed (self w) = 10 -> maxSpeed (self w) = 4 ->
  exists pct secs,
    int_to_float k = Ok pct /\
    secs = seconds_for (clamped (scaled pct)) /\
    float_lt_int secs 4 = false /\ float_gt_int secs 10 = false /\
    set_speed_pct pct w = (Ret tt, set_delay_world (fdiv secs f2050) w).
Proof.
  intros Hk Hmin Hmax. pose proof (within_limits_percent k Hk) as H.
  unfold within_limits, seconds_of_percent in H.
  destruct (int_to_float k) as [pct|]; [|discriminate].
  apply andb_true_iff in H. destruct H as [Hlo Hhi].
  apply negb_true_iff in Hlo, Hhi.
  exists pct, (seconds_for (clamped (scaled pct))).
  split; [reflexivity|]. split; [reflexivity|].
  split; [exact Hlo|]. split; [exact Hhi|].
  rewrite set_speed_pct_unfold by assumption.
  apply set_speed_accepted. rewrite Hmax. exact Hlo.
Qed.

Lemma set_speed_pct_whole_percent_witness :
  exists pct secs,
    int_to_float 50 = Ok pct /\
    secs = seconds_for (clamped (scaled pct)) /\
    set_speed_pct pct bench = (Ret tt, set_delay_world (fdiv secs f2050) bench).
Proof.
  destruct (set_speed_pct_whole_percent 50 bench ltac:(lia) eq_refl eq_refl)
    as (pct & secs & H1 & H2 & _ & _ & H3).
  exists pct, secs. auto.
Defined.


(** ** From an angle to steps and back *)

Lemma angle_of_steps_of_near d :
  0 <= d <= 360 -> res_near_int (angle_of_steps_of d) d 4 10 = true.
Proof.
  intros Hd.
  apply (forall_from_spec (fun d => res_near_int (angle_of_steps_of d) d 4 10)
           (Z.to_nat 361) 0); [|lia].
  vm_cast_no_check (eq_refl true).
Qed.

(** X24. For a whole number of degrees from 0 to 360, the angle
    [to_angle] gives back for the steps [num_steps_required] asks for is
    within 0.4 degree of it (a step is about 0.7 degree, and [to_angle]
    rounds to a tenth). *)
Theorem angle_round_trip_error (d : Z) :
  0 <= d <= 360 ->
  exists f n a,
    int_to_float d = Ok f /\ num_steps_required f = Ok n /\
    to_angle n = Ok a /\ float_near_int a d 4 10 = true.
Proof.
  intros Hd. pose proof (angle_of_steps_of_near d Hd) as H.
  unfold res_near_int, angle_of_steps_of, steps_of_degrees in H.
  destruct (int_to_float d) as [f|]; [|discriminate].
  destruct (num_steps_required f) as [n|] eqn:En; [|discriminate].
  destruct (to_angle n) as [a|] eqn:Ea; [|discriminate].
  exists f, n, a. auto.
Qed.

Lemma angle_round_trip_error_witness :
  exists f n a,
    int_to_float 90 = Ok f /\ num_steps_required f = Ok n /\
    to_angle n = Ok a /\ float_near_int a 90 4 10 = true.
Proof. apply (angle_round_trip_error 90). lia. Defined.

(** ** set_home and reset_home *)

Lemma with_stepsFromHome_same s :
  with_stepsFromHome (stepsFromHome s) s = s.
Proof. destruct s; reflexivity. Qed.

(** X25. [reset_home()] undoes [set_home()]: after the two calls
    [stepsFromHome] is [stepsFromDefaultHome] again, which is untouched, so
    a driver whose two counters agreed is exactly as it was; no line is
    written and no wait made.  After [reset_home()], [go_home(False)] homes
    against the same count as [go_home(True)]. *)
Theorem reset_home_undoes_set_home (w : World) :
  exists w1 w2,
    set_home w = (Ret tt, w1) /\ reset_home w1 = (Ret tt, w2) /\
    home w1 = 0 /\
    home w2 = default_home w /\ default_home w2 = default_home w /\
    levels w2 = levels w /\
    log w2 = EvPrint MsgHomeReset :: EvPrint MsgNewHomeSet :: log w /\
    selected false w2 = selected true w2 /\
    (home w = default_home w -> self w2 = self w).
Proof.
  exists (snd (set_home w)), (snd (reset_home (snd (set_home w)))).
  repeat split.
  intros H. unfold home, default_home in H. simpl.
  rewrite <- H. destruct (self w); reflexivity.
Qed.

Lemma reset_home_undoes_set_home_witness :
  exists w1 w2,
    set_home bench_turned = (Ret tt, w1) /\ reset_home w1 = (Ret tt, w2) /\
    home w1 = 0 /\ home w2 = 3 /\ self w2 = self bench_turned.
Proof.
  destruct (reset_home_undoes_set_home bench_turned)
    as (w1 & w2 & H1 & H2 & H3 & H4 & _ & _ & _ & _ & H5).
  exists w1, w2. split; [exact H1|]. split; [exact H2|]. split; [exact H3|].
  split; [rewrite H4; reflexivity | apply H5; reflexivity].
Defined.

(** ** The LEDs during a rotation *)

Lemma own_pins_apart s r b g o :
  NoDup (own_pins s) ->
  redLED s = Some r -> blueLED s = Some b ->
  greenLED s = Some g -> orangeLED s = Some o ->
  (forall l, In l [r; b; g; o] -> ~ In (LED.pin l) (coil_pins s)) /\
  LED.pin r <> LED.pin b /\ LED.pin r <> LED.pin g /\ LED.pin r <> LED.pin o /\
  LED.pin b <> LED.pin g /\ LED.pin b <> LED.pin o /\ LED.pin g <> LED.pin o.
Proof.
  intros Hnd Hr Hb Hg Ho. unfold own_pins in Hnd.
  rewrite Hr, Hb, Hg, Ho in Hnd. simpl pin_of in Hnd.
  apply NoDup_app in Hnd as (_ & Hapart & Hleds). simpl in Hleds.
  split.
  - intros l Hl Hin. apply (Hapart (LED.pin l)).
    + apply list_elem_of_In, Hin.
    + apply list_elem_of_In. simpl in *.
      destruct Hl as [<-|[<-|[<-|[<-|[]]]]]; tauto.
  - repeat (apply NoDup_cons in Hleds as [? Hleds]).
    repeat match goal with
           | K : _ ∉ _ :: _ |- _ => apply not_elem_of_cons in K as [? ?]
           end.
    repeat split; assumption.
Qed.

Lemma leds_seen_set_step s0 r b g o a1 a2 b1 b2 ob :
  NoDup (own_pins s0) ->
  redLED s0 = Some r -> blueLED s0 = Some b ->
  greenLED s0 = Some g -> orangeLED s0 = Some o ->
  coil_pins (o_self ob) = coil_pins s0 ->
  leds s0 (o_lines (seen_set_step a1 a2 b1 b2 ob)) = leds s0 (o_lines ob).
Proof.
  intros Hnd Hr Hb Hg Ho Hp.
  destruct (own_pins_apart s0 r b g o Hnd Hr Hb Hg Ho) as [Hapart _].
  unfold coil_pins in Hp. injection Hp as E1 E2 E3 E4.
  assert (Hline : forall l, In l [r; b; g; o] ->
            o_lines (seen_set_step a1 a2 b1 b2 ob) (LED.pin l)
            = o_lines ob (LED.pin l)).
  { intros l Hl. specialize (Hapart l Hl). unfold coil_pins in Hapart.
    simpl in Hapart. unfold seen_set_step. cbn [o_lines set_line o_self].
    rewrite E1, E2, E3, E4.
    repeat case_bool_decide; try reflexivity; exfalso; intuition congruence. }
  unfold leds, led_level. rewrite Hr, Hb, Hg, Ho.
  rewrite !Hline by (simpl; tauto). reflexivity.
Qed.

Lemma o_lit_seen_phases s0 r b g o ps ob :
  NoDup (own_pins s0) ->
  redLED s0 = Some r -> blueLED s0 = Some b ->
  greenLED s0 = Some g -> orangeLED s0 = Some o ->
  coil_pins (o_self ob) = coil_pins s0 ->
  o_lit (seen_phases s0 ps ob)
  = replicate (List.length ps) (leds s0 (o_lines ob)) ++ o_lit ob /\
  leds s0 (o_lines (seen_phases s0 ps ob)) = leds s0 (o_lines ob).
Proof.
  intros Hnd Hr Hb Hg Ho. revert ob.
  induction ps as [|[[[a1 a2] b1] b2] ps IH]; intros ob Hp;
    [split; reflexivity|].
  unfold seen_phases in *. cbn [fold_left].
  destruct (IH (seen_phase s0 a1 a2 b1 b2 ob) Hp) as [IH1 IH2].
  rewrite IH1, IH2. unfold seen_phase, add_wait. cbn [o_lit o_lines].
  rewrite (leds_seen_set_step s0 r b g o a1 a2 b1 b2 ob) by assumption.
  split; [apply replicate_move | reflexivity].
Qed.

Lemma o_lit_iter s0 r b g o ps k ob :
  NoDup (own_pins s0) ->
  redLED s0 = Some r -> blueLED s0 = Some b ->
  greenLED s0 = Some g -> orangeLED s0 = Some o ->
  coil_pins (o_self ob) = coil_pins s0 ->
  o_lit (Nat.iter k (seen_phases s0 ps) ob)
  = replicate (k * List.length ps) (leds s0 (o_lines ob)) ++ o_lit ob /\
  leds s0 (o_lines (Nat.iter k (seen_phases s0 ps) ob)) = leds s0 (o_lines ob).
Proof.
  intros Hnd Hr Hb Hg Ho Hp. induction k as [|k [IH1 IH2]];
    [split; reflexivity|].
  rewrite Nat.iter_succ.
  destruct (o_lit_seen_phases s0 r b g o ps (Nat.iter k (seen_phases s0 ps) ob)
              Hnd Hr Hb Hg Ho) as [H1 H2];
    [rewrite o_self_iter; exact Hp|].
  rewrite H1, H2, IH1, IH2, app_assoc, <- replicate_add. split; reflexivity.
Qed.

(** X26. The LEDs show the rotation.  On a driver with its LEDs
    attached, eight different lines and a delay that is not [+inf], during
    every wait of a call of [rotate] with a valid direction, a step count
    [n > 0] and an angle text computed without an exception, the red LED
    is off; clockwise the blue and green LEDs are on, counter-clockwise
    the green and orange ones; the fourth LED (orange, respectively blue)
    is as it was when the call was made. *)
Theorem rotate_lights
  (direction : string) (angle : option float) (steps : option Z) (n : Z)
  (shown : angle_text) (r b g o : LED.t) (w : World) :
  valid_direction direction = true ->
  chosen_steps angle steps = Ok (Some n) -> 0 < n ->
  shown_angle angle n = Ok shown ->
  redLED (self w) = Some r -> blueLED (self w) = Some b ->
  greenLED (self w) = Some g -> orangeLED (self w) = Some o ->
  is_pinf (delay (self w)) = false ->
  NoDup (own_pins (self w)) ->
  exists w' new,
    rotate direction angle steps w = (Ret tt, w') /\
    log w' = new ++ log w /\
    lit (self w) new (reads_high w)
    = replicate (Z.to_nat (4 * n))
        (if String.eqb (lower direction) "cw"
         then (false, true, true, reads_high w (LED.pin o))
         else (false, reads_high w (LED.pin b), true, true)).
Proof.
  intros Hd Hn Hn0 Hshown Hr Hb Hg Ho Hfin Hnd.
  destruct (rotate_seen direction angle steps n shown r b g o w
              Hd Hn ltac:(lia) Hshown Hr Hb Hg Ho (fun _ => Hfin))
    as (w' & Hrun & Hshow).
  destruct (shows_lit _ _ _ Hshow) as (new & Hlog & Hlit).
  exists w', new. split; [exact Hrun|]. split; [exact Hlog|].
  rewrite Hlit. unfold seen_rotate, seen_deactivate.
  cbn [o_lit set_line seen_set_step].
  destruct (own_pins_apart (self w) r b g o Hnd Hr Hb Hg Ho)
    as (_ & Hrb & Hrg & Hro & Hbg & Hbo & Hgo).
  destruct (String.eqb (lower direction) "cw").
  - destruct (o_lit_iter (self w) r b g o phases_cw (Z.to_nat n)
                (on_self (move_counters (- n))
                   (set_line (LED.pin g) true
                      (set_line (LED.pin b) true
                         (set_line (LED.pin r) false (observe w)))))
                Hnd Hr Hb Hg Ho eq_refl) as [H1 _].
    change (seen_step_cw (self w)) with (seen_phases (self w) phases_cw).
    rewrite H1. cbn [o_lit on_self set_line observe]. rewrite app_nil_r.
    f_equal; [simpl; lia|].
    unfold leds, led_level. rewrite Hr, Hb, Hg, Ho.
    cbn [o_lines on_self set_line observe].
    repeat case_bool_decide; try reflexivity; exfalso; congruence.
  - destruct (o_lit_iter (self w) r b g o phases_ccw (Z.to_nat n)
                (on_self (move_counters n)
                   (set_line (LED.pin o) true
                      (set_line (LED.pin g) true
                         (set_line (LED.pin r) false (observe w)))))
                Hnd Hr Hb Hg Ho eq_refl) as [H1 _].
    change (seen_step_ccw (self w)) with (seen_phases (self w) phases_ccw).
    rewrite H1. cbn [o_lit on_self set_line observe]. rewrite app_nil_r.
    f_equal; [simpl; lia|].
    unfold leds, led_level. rewrite Hr, Hb, Hg, Ho.
    cbn [o_lines on_self set_line observe].
    repeat case_bool_decide; try reflexivity; exfalso; congruence.
Qed.

Lemma NoDup_own_pins_bench : NoDup (own_pins (self bench)).
Proof.
  change (NoDup [4; 17; 23; 24; 5; 6; 13; 19]).
  repeat (apply NoDup_cons; split;
          [rewrite ?not_elem_of_cons; repeat split;
           try discriminate; apply not_elem_of_nil|]).
  apply NoDup_nil. exact I.
Qed.

Lemma rotate_lights_witness :
  exists w' new,
    rotate "cw" None (Some 2) bench = (Ret tt, w') /\
    log w' = new ++ log bench /\
    lit (self bench) new (reads_high bench)
    = replicate 8 (false, true, true, false).
Proof.
  apply (rotate_lights "cw" None (Some 2) 2 (AngleApprox (literal 14 1))
           {| LED.pin := 5 |} {| LED.pin := 6 |} {| LED.pin := 13 |}
           {| LED.pin := 19 |} bench).
  - reflexivity.
  - reflexivity.
  - lia.
  - vm_compute. reflexivity.
  - reflexivity.
  - reflexivity.
  - reflexivity.
  - reflexivity.
  - reflexivity.
  - exact NoDup_own_pins_bench.
Defined.
